(** * Spriteworld collision and carried-movement engine

    A shallow embedding of [environment/sprite.py], [environment/utils.py] and
    [environment/abstractsprite.py].

    Numbers.  The program computes with numpy float64 values.  The collision
    engine only uses field operations, comparisons, [abs], [min]/[max] and
    Euclidean norms compared against a bound, so it is embedded over the
    rationals [Q] with exact arithmetic: every definition evaluates, and
    rounding is not modelled.  A test [norm v <= r] is written without the
    square root as [0 <= r /\ v.v <= r*r].  The pose setters need [cos],
    [sin], [sqrt] and [pi]; they are embedded over the reals in [Geometry].

    Objects.  Sprites are mutable objects that are shared between the lists
    handed to [move]; they live in a store indexed by references, and every
    operation that assigns to [self._position] is a store transformer.
    Exceptions leave the store as it is at the point where they are raised. *)

From Stdlib Require Import QArith Qminmax Qabs.
From Stdlib Require Import ZArith List Bool.
From Stdlib Require Import Reals.
From Stdlib Require Import Lia Psatz.
Import ListNotations.

(** ** Outcomes of fallible computations *)

Inductive Exn : Set :=
| TypeError        (* arithmetic or comparison with [None] *)
| AttributeError   (* [.x] / [.y] on a geometry that is not a Point *)
| ValueError       (* [CheckTriWinding] on a clockwise triangle *)
| SystemExit       (* [exit(...)] *)
| RecursionError.  (* recursion deeper than the interpreter allows *)

Inductive res (A : Type) : Type :=
| Ok (a : A)
| Raise (e : Exn).
Arguments Ok {A} a.
Arguments Raise {A} e.

Definition rbind {A B : Type} (m : res A) (k : A -> res B) : res B :=
  match m with
  | Ok a => k a
  | Raise e => Raise e
  end.

Declare Scope res_scope.
Delimit Scope res_scope with res.
Notation "x <- m ;; k" := (rbind m (fun x => k))
  (at level 61, m at next level, right associativity) : res_scope.

(** [need o]: use of an attribute that may hold [None] in arithmetic. *)
Definition need {A : Type} (o : option A) : res A :=
  match o with
  | Some a => Ok a
  | None => Raise TypeError
  end.

(** The three kinds of shape the engine dispatches on. *)
Inductive Shape : Set := circle | square | triangle.

Module Engine.

Open Scope Q_scope.

(** ** Numbers and points *)

Definition Qltb (a b : Q) : bool := negb (Qle_bool b a).
Infix "<=?" := Qle_bool (at level 70, no associativity) : Q_scope.
Infix "<?" := Qltb (at level 70, no associativity) : Q_scope.
Infix "=?" := Qeq_bool (at level 70, no associativity) : Q_scope.
Notation "a >=? b" := (Qle_bool b a) (at level 70, no associativity) : Q_scope.
Notation "a >? b" := (Qltb b a) (at level 70, no associativity) : Q_scope.

Definition point : Type := Q * Q.

Definition padd (p q : point) : point := (fst p + fst q, snd p + snd q).
Definition psub (p q : point) : point := (fst p - fst q, snd p - snd q).
Definition pscale (t : Q) (p : point) : point := (t * fst p, t * snd p).
Definition pabs (p : point) : point := (Qabs (fst p), Qabs (snd p)).
Definition dot (p q : point) : Q := fst p * fst q + snd p * snd q.
(** z-component of the cross product of two plane vectors. *)
Definition cross2 (p q : point) : Q := fst p * snd q - snd p * fst q.
Definition peqb (p q : point) : bool := (fst p =? fst q) && (snd p =? snd q).
(** Equality of points up to the value of the fractions. *)
Definition peq (p q : point) : Prop := fst p == fst q /\ snd p == snd q.

(** [np.linalg.norm(v) <= r], for a bound [r]. *)
Definition norm_le (v : point) (r : Q) : bool := (0 <=? r) && (dot v v <=? r * r).

(** ** Sprites *)

Inductive Direction : Set := up | down | left_ | right_.

Definition Direction_eqb (a b : Direction) : bool :=
  match a, b with
  | up, up | down, down | left_, left_ | right_, right_ => true
  | _, _ => false
  end.

(** The attributes of [AbstractSprite] that the engine reads.  [prop] is
    [None] until [_geometrical_properties] assigns it (it never does for a
    triangle); [_centered_path] is the cached scaled and rotated outline. *)
Record Sprite : Type := mkSprite {
  _position : point;
  _shape : Shape;
  prop : option Q;
  _centered_path : list point
}.

Definition x (s : Sprite) : Q := fst (_position s).
Definition y (s : Sprite) : Q := snd (_position s).

Definition set_position (s : Sprite) (p : point) : Sprite :=
  mkSprite p (_shape s) (prop s) (_centered_path s).

(** [vertices]: the centred path translated by the position. *)
Definition vertices (s : Sprite) : list point :=
  map (fun v => padd v (_position s)) (_centered_path s).

(** [vertices[i]]; shapes of [constants.SHAPES] have the vertices the
    handlers index (four for a square, three for a triangle). *)
Definition vert (s : Sprite) (i : nat) : point := nth i (vertices s) (0, 0).

(** ** Shapely geometry used by the engine *)

Fixpoint minimum (a : Q) (l : list Q) : Q :=
  match l with
  | [] => a
  | b :: t => Qmin a (minimum b t)
  end.

Fixpoint maximum (a : Q) (l : list Q) : Q :=
  match l with
  | [] => a
  | b :: t => Qmax a (maximum b t)
  end.

(** [Polygon(vs).bounds] as a record [(minx, miny, maxx, maxy)]. *)
Record Bounds : Type := mkBounds { minx : Q; miny : Q; maxx : Q; maxy : Q }.

Definition bounds_of (vs : list point) : Bounds :=
  match vs with
  | [] => mkBounds 0 0 0 0
  | v :: t =>
      mkBounds (minimum (fst v) (map fst t)) (minimum (snd v) (map snd t))
               (maximum (fst v) (map fst t)) (maximum (snd v) (map snd t))
  end.

Definition bounds (s : Sprite) : Bounds := bounds_of (vertices s).

(** Indexing [bounds[i]] as the source does. *)
Definition bnd (b : Bounds) (i : nat) : Q :=
  match i with
  | 0%nat => minx b
  | 1%nat => miny b
  | 2%nat => maxx b
  | _ => maxy b
  end.

(** Orientation of [p] with respect to the directed line [a -> b]:
    positive on the left. *)
Definition cross (a b p : point) : Q := cross2 (psub b a) (psub p a).

(** The edges of the closed outline through [vs]. *)
Definition edges (vs : list point) : list (point * point) :=
  match vs with
  | [] => []
  | v :: t => combine vs (t ++ [v])
  end.

(** [separates P R e]: the line through the edge [e] of [P] has [P] on one
    closed side and every vertex of [R] strictly on the other. *)
Definition separates (P R : list point) (e : point * point) : bool :=
  let side := cross (fst e) (snd e) in
  (forallb (fun p => 0 <=? side p) P && forallb (fun r => side r <? 0) R)
  || (forallb (fun p => side p <=? 0) P && forallb (fun r => 0 <? side r) R).

Definition envelope_intersects (a b : Bounds) : bool :=
  (minx a <=? maxx b) && (minx b <=? maxx a)
  && (miny a <=? maxy b) && (miny b <=? maxy a).

(** [Polygon(P).intersects(Polygon(R))]: the two polygons share a point,
    boundary included; an empty polygon meets nothing.  Shapely rejects on
    disjoint envelopes first; for the convex outlines of this program the
    remaining test is the separating-axis test over the edges of both
    polygons. *)
Definition intersects (P R : list point) : bool :=
  match P, R with
  | [], _ | _, [] => false
  | _, _ =>
      envelope_intersects (bounds_of P) (bounds_of R)
      && negb (existsb (separates P R) (edges P))
      && negb (existsb (separates R P) (edges R))
  end.

(** The result of [LineString.intersection]: nothing, one point, or anything
    else (several points, a piece of line).  Only a Point has [.x] and [.y]. *)
Inductive Geom : Type :=
| GEmpty
| GPoint (p : point)
| GOther.

Definition geom_x (g : Geom) : res Q :=
  match g with
  | GPoint p => Ok (fst p)
  | _ => Raise AttributeError
  end.

Definition geom_y (g : Geom) : res Q :=
  match g with
  | GPoint p => Ok (snd p)
  | _ => Raise AttributeError
  end.

Definition is_zero (v : point) : bool := (fst v =? 0) && (snd v =? 0).

(** [p] lies on the closed segment [a b]. *)
Definition on_segment (p a b : point) : bool :=
  (cross a b p =? 0)
  && (0 <=? dot (psub p a) (psub b a))
  && (dot (psub p a) (psub b a) <=? dot (psub b a) (psub b a)).

(** Intersection of the closed segments [a1 a2] and [b1 b2]. *)
Definition segment_intersection (a1 a2 b1 b2 : point) : Geom :=
  let d1 := psub a2 a1 in
  let d2 := psub b2 b1 in
  let w := psub b1 a1 in
  let den := cross2 d1 d2 in
  if den =? 0 then
    if is_zero d1 then (if on_segment a1 b1 b2 then GPoint a1 else GEmpty)
    else if is_zero d2 then (if on_segment b1 a1 a2 then GPoint b1 else GEmpty)
    else if cross2 d1 w =? 0 then
      let t0 := dot w d1 / dot d1 d1 in
      let t1 := dot (psub b2 a1) d1 / dot d1 d1 in
      let lo := Qmax 0 (Qmin t0 t1) in
      let hi := Qmin 1 (Qmax t0 t1) in
      if hi <? lo then GEmpty
      else if lo =? hi then GPoint (padd a1 (pscale lo d1))
      else GOther
    else GEmpty
  else
    let t := cross2 w d2 / den in
    let u := cross2 w d1 / den in
    if (0 <=? t) && (t <=? 1) && (0 <=? u) && (u <=? 1)
    then GPoint (padd a1 (pscale t d1))
    else GEmpty.

Definition geom_union (g h : Geom) : Geom :=
  match g, h with
  | GEmpty, _ => h
  | _, GEmpty => g
  | GPoint p, GPoint q => if peqb p q then GPoint p else GOther
  | _, _ => GOther
  end.

(** [contours]: the vertices closed into a polyline. *)
Definition contours (s : Sprite) : list point :=
  match vertices s with
  | [] => []
  | v :: t => (v :: t) ++ [v]
  end.

Fixpoint pieces (l : list point) : list (point * point) :=
  match l with
  | a :: (b :: _) as t => (a, b) :: pieces t
  | _ => []
  end.

(** Intersection of the segment [a1 a2] with a polyline. *)
Definition line_intersection (a1 a2 : point) (line : list point) : Geom :=
  fold_right
    (fun e g => geom_union (segment_intersection a1 a2 (fst e) (snd e)) g)
    GEmpty (pieces line).

(** ** [utils.py]: region codes and Cohen-Sutherland clipping *)

Definition INSIDE : Z := 0.
Definition LEFT : Z := 1.
Definition RIGHT : Z := 2.
Definition BOTTOM : Z := 4.
Definition TOP : Z := 8.

Definition opposite (d : Direction) : Direction :=
  match d with
  | right_ => left_
  | left_ => right_
  | up => down
  | down => up
  end.

Definition computeCode (x y : Q) (b : Bounds) : Z :=
  let code := INSIDE in
  let code :=
    if x <? minx b then Z.lor code LEFT
    else if maxx b <? x then Z.lor code RIGHT
    else code in
  let code :=
    if y <? miny b then Z.lor code BOTTOM
    else if maxy b <? y then Z.lor code TOP
    else code in
  code.

Definition has (code flag : Z) : bool := negb (Z.land code flag =? 0)%Z.

(** One pass of the [while True] loop: either the loop exits with [accept],
    or it continues with a clipped endpoint. *)
Definition clipStep (x1 y1 x2 y2 : Q) (code1 code2 : Z) (b : Bounds)
  : bool + (Q * Q * Q * Q * Z * Z) :=
  if ((code1 =? 0)%Z && (code2 =? 0)%Z)%bool then inl true
  else if negb (Z.land code1 code2 =? 0)%Z then inl false
  else
    let code_out := if negb (code1 =? 0)%Z then code1 else code2 in
    let xy :=
      if has code_out TOP then
        (x1 + (x2 - x1) * (maxy b - y1) / (y2 - y1), maxy b)
      else if has code_out BOTTOM then
        (x1 + (x2 - x1) * (miny b - y1) / (y2 - y1), miny b)
      else if has code_out RIGHT then
        (maxx b, y1 + (y2 - y1) * (maxx b - x1) / (x2 - x1))
      else if has code_out LEFT then
        (minx b, y1 + (y2 - y1) * (minx b - x1) / (x2 - x1))
      else (1, 1) in
    if (code_out =? code1)%Z
    then inr (fst xy, snd xy, x2, y2, computeCode (fst xy) (snd xy) b, code2)
    else inr (x1, y1, fst xy, snd xy, code1, computeCode (fst xy) (snd xy) b).

Fixpoint clipLoop (fuel : nat) (x1 y1 x2 y2 : Q) (code1 code2 : Z) (b : Bounds)
  : option bool :=
  match fuel with
  | O => None
  | S n =>
      match clipStep x1 y1 x2 y2 code1 code2 b with
      | inl accept => Some accept
      | inr (x1', y1', x2', y2', code1', code2') =>
          clipLoop n x1' y1' x2' y2' code1' code2' b
      end
  end.

(** Every pass that continues clears one of the four region bits from both
    endpoints for good, so the loop exits within five passes
    ([clipLoop_exits] below). *)
Definition cohenSutherlandClip (x1 y1 x2 y2 : Q) (b : Bounds) : bool :=
  match clipLoop 5 x1 y1 x2 y2 (computeCode x1 y1 b) (computeCode x2 y2 b) b with
  | Some accept => accept
  | None => false
  end.

(** ** [utils.py]: overlap predicates *)

(** 3x3 determinant of the rows [(a, 1)], [(b, 1)], [(c, 1)]. *)
Definition det3 (a b c : point) : Q :=
  fst a * (snd b - snd c) - snd a * (fst b - fst c)
  + (fst b * snd c - snd b * fst c).

Definition tri : Type := point * point * point.

Definition tri_of (vs : list point) : tri :=
  (nth 0 vs (0, 0), nth 1 vs (0, 0), nth 2 vs (0, 0)).

Definition CheckTriWinding (t : tri) (allowReversed : bool) : res tri :=
  let '(a, b, c) := t in
  if det3 a b c <? 0 then
    if allowReversed then Ok (a, c, b) else Raise ValueError
  else Ok (a, b, c).

Definition chkEdge (a b p : point) : bool := det3 a b p <? 0.

(** The rows [np.roll(t, i, axis=0)[:2]] for [i = 0, 1, 2]. *)
Definition rolled_edges (t : tri) : list (point * point) :=
  let '(a, b, c) := t in [(a, b); (c, a); (b, c)].

Definition outside_all (e : point * point) (t : tri) : bool :=
  let '(a, b, c) := t in
  chkEdge (fst e) (snd e) a && chkEdge (fst e) (snd e) b
  && chkEdge (fst e) (snd e) c.

Definition TriTri2D (t1 t2 : tri) (allowReversed : bool) : res bool :=
  (t1s <- CheckTriWinding t1 allowReversed ;;
   t2s <- CheckTriWinding t2 allowReversed ;;
   if existsb (fun e => outside_all e t2s) (rolled_edges t1s) then Ok false
   else if existsb (fun e => outside_all e t1s) (rolled_edges t2s) then Ok false
   else Ok true)%res.

Definition circle_circle (pos1 pos2 : point) (rad1 rad2 : option Q) : res bool :=
  (r1 <- need rad1 ;;
   r2 <- need rad2 ;;
   Ok (norm_le (psub pos1 pos2) (r1 + r2)))%res.

Definition square_circle (cpos spos : point) (rad side : option Q) : res bool :=
  let dist := pabs (psub cpos spos) in
  (side <- need side ;;
   rad <- need rad ;;
   if side / 2 + rad <? fst dist then Ok false
   else if side / 2 + rad <? snd dist then Ok false
   else if (fst dist <=? side / 2) || (snd dist <=? side / 2) then Ok true
   else Ok (norm_le (psub dist (side / 2, side / 2)) rad))%res.

(** The edge test of [triangle_circle] for the edge that starts at [v] with
    direction [e]: the projection of [cpos - v] on the edge is positive and
    shorter than the edge, and the distance to the line is at most [rad]. *)
Definition edge_hit (cpos v e : point) (rad : Q) : bool :=
  let cv := psub cpos v in
  let k := dot cv e in
  (0 <? k) && (k <? dot e e)
  && (0 <=? rad) && (dot cv cv - k * k / dot e e <=? rad * rad).

Definition triangle_circle (tvert : tri) (cpos : point) (rad : option Q)
  : res bool :=
  let '(v0, v1, v2) := tvert in
  (rad <- need rad ;;
   if norm_le (psub v0 cpos) rad then Ok true
   else if norm_le (psub v1 cpos) rad then Ok true
   else if norm_le (psub v2 cpos) rad then Ok true
   else
     let a := psub v1 v0 in
     let a' := psub cpos v0 in
     let b := psub v2 v1 in
     let b' := psub cpos v1 in
     let c := psub v0 v2 in
     let c' := psub cpos v2 in
     if (fst a * fst a' >=? snd a * snd a')
        && (fst b * fst b' >=? snd b * snd b')
        && (fst c * fst c' >=? snd c * snd c')
     then Ok true
     else Ok (edge_hit cpos v0 a rad || edge_hit cpos v1 b rad
              || edge_hit cpos v2 c rad))%res.

Definition triangle_square (tvert : tri) (b : Bounds) : bool :=
  let '(v0, v1, v2) := tvert in
  if cohenSutherlandClip (fst v0) (snd v0) (fst v1) (snd v1) b then true
  else if cohenSutherlandClip (fst v0) (snd v0) (fst v2) (snd v2) b then true
  else cohenSutherlandClip (fst v1) (snd v1) (fst v2) (snd v2) b.

Definition get_motion_direction (motion : point) : res Direction :=
  if (fst motion =? 0) && (0 <? snd motion) then Ok up
  else if (snd motion =? 0) && (0 <? fst motion) then Ok right_
  else if (fst motion =? 0) && (snd motion <? 0) then Ok down
  else if (snd motion =? 0) && (fst motion <? 0) then Ok left_
  else Raise SystemExit.

(** ** [utils.py]: relative positions *)

Definition when (b : bool) (d : Direction) : list Direction :=
  if b then [d] else [].

Definition circle_circle_position (s1 s2 : Sprite) : list Direction :=
  when (x s1 <? x s2) left_ ++ when (x s1 >? x s2) right_
  ++ when (y s1 <? y s2) down ++ when (y s1 >? y s2) up.

Definition circle_square_position (s1 s2 : Sprite) (reverse : bool)
  : list Direction :=
  let directions :=
    when (x s1 <? bnd (bounds s2) 0) left_
    ++ when (x s1 >? bnd (bounds s2) 2) right_
    ++ when (y s1 <? bnd (bounds s2) 1) down
    ++ when (y s1 >? bnd (bounds s2) 3) up in
  if reverse then map opposite directions else directions.

(** [p * sqrt(1/2) < d], decided on the squares. *)
Definition times_sqrt_half_lt (p d : Q) : bool :=
  if 0 <=? p then (0 <? d) && (p * p / 2 <? d * d)
  else (0 <=? d) || (d * d <? p * p / 2).

(** [y = c.y + c.prop * sin(5 pi / 4)] is [c.y - c.prop * sqrt(1/2)], so
    [y > t.bounds[1]] is [c.prop * sqrt(1/2) < c.y - t.bounds[1]]. *)
Definition circle_triangle_position (c t : Sprite) : res (list Direction) :=
  (r <- need (prop c) ;;
   Ok (when ((x c <? x t) && (bnd (bounds c) 1 <? bnd (bounds t) 3)
             && (bnd (bounds c) 3 >? bnd (bounds t) 1)) left_
       ++ when ((x c >? x t) && (bnd (bounds c) 1 <? bnd (bounds t) 3)
                && (bnd (bounds c) 3 >? bnd (bounds t) 1)) right_
       ++ when (times_sqrt_half_lt r (y c - bnd (bounds t) 1)) up
       ++ when (y c + r <=? bnd (bounds t) 1 + 0.02) down))%res.

Definition triangle_circle_position (c t : Sprite) : list Direction :=
  let level :=
    ((bnd (bounds t) 1 <=? bnd (bounds c) 3)
     && (bnd (bounds t) 3 >=? bnd (bounds c) 1))
    || ((bnd (bounds t) 3 <=? bnd (bounds c) 3)
        && (bnd (bounds t) 1 >=? bnd (bounds c) 1)) in
  when ((x t <? x c) && level) left_
  ++ when ((x t >? x c) && level) right_
  ++ when (bnd (bounds t) 1 >? y c) up
  ++ when (bnd (bounds t) 1 <=? y c) down.

Definition square_square_position (s1 s2 : Sprite) : list Direction :=
  when (x s1 <=? bnd (bounds s2) 0) left_
  ++ when (x s1 >=? bnd (bounds s2) 2) right_
  ++ when (y s1 <=? bnd (bounds s2) 1) down
  ++ when (y s1 >=? bnd (bounds s2) 3) up.

Definition square_triangle_position (s t : Sprite) : list Direction :=
  when ((x s <? x t) && (bnd (bounds s) 1 <? bnd (bounds t) 3)
        && (bnd (bounds s) 3 >? bnd (bounds t) 1)) left_
  ++ when ((x s >? x t) && (bnd (bounds s) 1 <? bnd (bounds t) 3)
           && (bnd (bounds s) 3 >? bnd (bounds t) 1)) right_
  ++ when (bnd (bounds s) 1 >? bnd (bounds t) 1) up
  ++ when ((y s <? bnd (bounds t) 1) && (bnd (bounds s) 0 <=? bnd (bounds t) 2)
           && (bnd (bounds s) 2 >=? bnd (bounds t) 0)) down.

Definition triangle_square_position (t s : Sprite) : list Direction :=
  when ((x t <? x s) && (bnd (bounds t) 1 <=? bnd (bounds s) 3)
        && (bnd (bounds t) 3 >=? bnd (bounds s) 1)) left_
  ++ when ((x t >? x s) && (bnd (bounds t) 1 <=? bnd (bounds s) 3)
           && (bnd (bounds t) 3 >=? bnd (bounds s) 1)) right_
  ++ when (y t >=? bnd (bounds s) 3) up
  ++ when ((bnd (bounds t) 1 <? bnd (bounds s) 1)
           && (bnd (bounds t) 2 >=? bnd (bounds s) 0)
           && (bnd (bounds t) 0 <=? bnd (bounds t) 2)) down.

Definition triangle_triangle_position (t1 t2 : Sprite) : list Direction :=
  when ((x t1 <? x t2) && (bnd (bounds t1) 1 <? bnd (bounds t2) 3)
        && (bnd (bounds t1) 3 >? bnd (bounds t2) 1)) left_
  ++ when ((x t1 >? x t2) && (bnd (bounds t1) 1 <? bnd (bounds t2) 3)
           && (bnd (bounds t1) 3 >? bnd (bounds t2) 1)) right_
  ++ when (bnd (bounds t1) 1 >? bnd (bounds t2) 1) up
  ++ when ((y t1 <? bnd (bounds t2) 1)
           && (bnd (bounds t1) 0 <=? bnd (bounds t2) 2)
           && (bnd (bounds t1) 2 >=? bnd (bounds t2) 0)) down.

Definition get_relative_positions (s1 s2 : Sprite) : res (list Direction) :=
  match _shape s1, _shape s2 with
  | circle, circle => Ok (circle_circle_position s1 s2)
  | circle, square => Ok (circle_square_position s1 s2 false)
  | circle, triangle => circle_triangle_position s1 s2
  | square, circle => Ok (circle_square_position s2 s1 true)
  | square, square => Ok (square_square_position s1 s2)
  | square, triangle => Ok (square_triangle_position s1 s2)
  | triangle, circle => Ok (triangle_circle_position s2 s1)
  | triangle, square => Ok (triangle_square_position s1 s2)
  | triangle, triangle => Ok (triangle_triangle_position s1 s2)
  end.

(** ** [abstractsprite.py]: the cells of the three dispatch tables

    A cell takes [self], [other] and the direction.  A snapper or resolver
    cell assigns to [self._position] only: it is embedded as the function
    that returns the new position, or the exception it raises.  A distance
    cell returns a number. *)

Definition mover : Type := Sprite -> Sprite -> Direction -> res point.
Definition gauge : Type := Sprite -> Sprite -> Direction -> res Q.

Definition add_x (p : point) (d : Q) : point := (fst p + d, snd p).
Definition add_y (p : point) (d : Q) : point := (fst p, snd p + d).
Definition sub_x (p : point) (d : Q) : point := (fst p - d, snd p).
Definition sub_y (p : point) (d : Q) : point := (fst p, snd p - d).

(** [try: self._position[..] op= e  except: pass]. *)
Definition attempt (p : point) (m : res point) : res point :=
  match m with
  | Ok q => Ok q
  | Raise _ => Ok p
  end.

(** [try: return e  except: return 1]. *)
Definition or_one (m : res Q) : res Q :=
  match m with
  | Ok q => Ok q
  | Raise _ => Ok 1
  end.

Definition _handle_square_square : mover := fun self other direction =>
  let p := _position self in
  match direction with
  | down => Ok (sub_y p (bnd (bounds self) 1 - bnd (bounds other) 3))
  | up => Ok (add_y p (bnd (bounds other) 1 - bnd (bounds self) 3))
  | right_ => Ok (add_x p (bnd (bounds other) 0 - bnd (bounds self) 2))
  | left_ => Ok (sub_x p (bnd (bounds self) 0 - bnd (bounds other) 2))
  end.

(** The literal [1e-5] of the source is written [0.00001]. *)
Definition _square_square_overlap : mover := fun self other direction =>
  let p := _position self in
  match direction with
  | down =>
      if bnd (bounds other) 3 >=? bnd (bounds self) 1
      then Ok (add_y p (bnd (bounds other) 3 - bnd (bounds self) 1 + 0.00001))
      else Ok p
  | up =>
      if bnd (bounds self) 3 >=? bnd (bounds other) 1
      then Ok (sub_y p (bnd (bounds self) 3 - bnd (bounds other) 1 + 0.00001))
      else Ok p
  | right_ =>
      if bnd (bounds self) 2 >=? bnd (bounds other) 0
      then Ok (sub_x p (bnd (bounds self) 2 - bnd (bounds other) 0 + 0.00001))
      else Ok p
  | left_ =>
      if bnd (bounds other) 2 >=? bnd (bounds self) 0
      then Ok (add_x p (bnd (bounds other) 2 - bnd (bounds self) 0 + 0.00001))
      else Ok p
  end.

Definition square_square_distance : gauge := fun self other direction =>
  match direction with
  | down => Ok (bnd (bounds self) 1 - bnd (bounds other) 3)
  | up => Ok (bnd (bounds other) 1 - bnd (bounds self) 3)
  | right_ => Ok (bnd (bounds other) 0 - bnd (bounds self) 2)
  | left_ => Ok (bnd (bounds self) 0 - bnd (bounds other) 2)
  end.

(** [LineString([a1, a2]).intersection(LineString([b1, b2]))]. *)
Definition LineString2 (a1 a2 b1 b2 : point) : Geom :=
  segment_intersection a1 a2 b1 b2.

Definition _handle_square_triangle : mover := fun self other direction =>
  let p := _position self in
  let self_vert := vert self in
  let other_vert := vert other in
  match direction with
  | down =>
      if fst (self_vert 3%nat) <? fst (other_vert 0%nat) then
        let point := LineString2 (other_vert 0%nat) (other_vert 1%nat)
                       (fst (self_vert 3%nat), 0) (self_vert 3%nat) in
        attempt p (py <- geom_y point ;;
                   Ok (sub_y p (snd (self_vert 3%nat) - py)))%res
      else if fst (self_vert 2%nat) >? fst (other_vert 0%nat) then
        let point := LineString2 (other_vert 0%nat) (other_vert 2%nat)
                       (fst (self_vert 2%nat), 0) (self_vert 2%nat) in
        attempt p (py <- geom_y point ;;
                   Ok (sub_y p (snd (self_vert 2%nat) - py)))%res
      else Ok (sub_y p (bnd (bounds self) 1 - bnd (bounds other) 3))
  | up => Ok (add_y p (bnd (bounds other) 1 - bnd (bounds self) 3))
  | right_ =>
      if bnd (bounds self) 1 >=? bnd (bounds other) 1 then
        let point := LineString2 (other_vert 0%nat) (other_vert 1%nat)
                       (self_vert 3%nat) (1, snd (self_vert 3%nat)) in
        attempt p (px <- geom_x point ;;
                   Ok (add_x p (px - fst (self_vert 3%nat))))%res
      else Ok (add_x p (bnd (bounds other) 0 - bnd (bounds self) 2))
  | left_ =>
      if bnd (bounds self) 1 >=? bnd (bounds other) 1 then
        let point := LineString2 (other_vert 0%nat) (other_vert 2%nat)
                       (0, snd (self_vert 2%nat)) (self_vert 2%nat) in
        attempt p (px <- geom_x point ;;
                   Ok (sub_x p (fst (self_vert 2%nat) - px)))%res
      else Ok (sub_x p (bnd (bounds self) 0 - bnd (bounds other) 2))
  end.

Definition _square_triangle_overlap : mover := fun self other direction =>
  let p := _position self in
  let self_vert := vert self in
  let other_vert := vert other in
  match direction with
  | down =>
      if fst (self_vert 3%nat) <? fst (other_vert 0%nat) then
        let point := LineString2 (other_vert 0%nat) (other_vert 1%nat)
                       (self_vert 3%nat) (fst (self_vert 3%nat), 1) in
        attempt p (py <- geom_y point ;;
                   Ok (add_y p (py - snd (self_vert 3%nat))))%res
      else if fst (self_vert 2%nat) >? fst (other_vert 0%nat) then
        let point := LineString2 (other_vert 0%nat) (other_vert 2%nat)
                       (self_vert 2%nat) (fst (self_vert 2%nat), 1) in
        attempt p (py <- geom_y point ;;
                   Ok (add_y p (py - snd (self_vert 2%nat))))%res
      else Ok (add_y p (bnd (bounds other) 3 - bnd (bounds self) 1))
  | up => Ok (sub_y p (bnd (bounds self) 3 - bnd (bounds other) 1 + 0.00001))
  | right_ =>
      if bnd (bounds self) 1 >=? bnd (bounds other) 1 then
        let point := LineString2 (other_vert 0%nat) (other_vert 1%nat)
                       (0, snd (self_vert 3%nat)) (self_vert 3%nat) in
        attempt p (px <- geom_x point ;;
                   Ok (sub_x p (fst (self_vert 3%nat) - px)))%res
      else Ok (sub_x p (bnd (bounds self) 2 - bnd (bounds other) 0))
  | left_ =>
      if bnd (bounds self) 1 >=? bnd (bounds other) 1 then
        let point := LineString2 (other_vert 0%nat) (other_vert 2%nat)
                       (self_vert 2%nat) (1, snd (self_vert 2%nat)) in
        attempt p (px <- geom_x point ;;
                   Ok (add_x p (px - fst (self_vert 2%nat))))%res
      else Ok (add_x p (bnd (bounds other) 2 - bnd (bounds self) 0))
  end.

Definition square_triangle_distance : gauge := fun self other direction =>
  let self_vert := vert self in
  let other_vert := vert other in
  match direction with
  | down =>
      if fst (self_vert 3%nat) <? fst (other_vert 0%nat) then
        let point := LineString2 (other_vert 0%nat) (other_vert 1%nat)
                       (fst (self_vert 3%nat), 0) (self_vert 3%nat) in
        or_one (py <- geom_y point ;; Ok (snd (self_vert 3%nat) - py))%res
      else if fst (self_vert 2%nat) >? fst (other_vert 0%nat) then
        let point := LineString2 (other_vert 0%nat) (other_vert 2%nat)
                       (fst (self_vert 2%nat), 0) (self_vert 2%nat) in
        or_one (py <- geom_y point ;; Ok (snd (self_vert 2%nat) - py))%res
      else Ok (bnd (bounds self) 1 - bnd (bounds other) 3)
  | up => Ok (bnd (bounds other) 1 - bnd (bounds self) 3)
  | right_ =>
      if bnd (bounds self) 1 >=? bnd (bounds other) 1 then
        let point := LineString2 (other_vert 0%nat) (other_vert 1%nat)
                       (self_vert 3%nat) (1, snd (self_vert 3%nat)) in
        or_one (px <- geom_x point ;; Ok (px - fst (self_vert 3%nat)))%res
      else Ok (bnd (bounds other) 0 - bnd (bounds self) 2)
  | left_ =>
      if bnd (bounds self) 1 >=? bnd (bounds other) 1 then
        let point := LineString2 (other_vert 0%nat) (other_vert 2%nat)
                       (0, snd (self_vert 2%nat)) (self_vert 2%nat) in
        or_one (px <- geom_x point ;; Ok (fst (self_vert 2%nat) - px))%res
      else Ok (bnd (bounds self) 0 - bnd (bounds other) 2)
  end.

(** [p1] is the point of [self]'s contour on the segment between the two
    centres, [p2] the point of [other]'s contour on it.  Neither [.x] nor
    [.y] is guarded: when an intersection is not a Point the call raises. *)
Definition _handle_circle_circle : mover := fun self other direction =>
  let p := _position self in
  let p1 := line_intersection (_position self) (_position other) (contours self) in
  let p2 := line_intersection (_position self) (_position other) (contours other) in
  match direction with
  | down => (a <- geom_y p1 ;; b <- geom_y p2 ;; Ok (sub_y p (a - b)))%res
  | up => (b <- geom_y p2 ;; a <- geom_y p1 ;; Ok (add_y p (b - a)))%res
  | right_ => (b <- geom_x p2 ;; a <- geom_x p1 ;; Ok (add_x p (b - a)))%res
  | left_ => (a <- geom_x p1 ;; b <- geom_x p2 ;; Ok (sub_x p (a - b)))%res
  end.

Definition circle_circle_distance : gauge := fun self other direction =>
  let p1 := line_intersection (_position self) (_position other) (contours self) in
  let p2 := line_intersection (_position self) (_position other) (contours other) in
  match direction with
  | down => (a <- geom_y p1 ;; b <- geom_y p2 ;; Ok (a - b))%res
  | up => (b <- geom_y p2 ;; a <- geom_y p1 ;; Ok (b - a))%res
  | right_ => (b <- geom_x p2 ;; a <- geom_x p1 ;; Ok (b - a))%res
  | left_ => (a <- geom_x p1 ;; b <- geom_x p2 ;; Ok (a - b))%res
  end.

(** The remaining cells construct points with [cos] and [sin] of multiples
    of [pi/4] or clip lines against circle polygons; no property below
    depends on what they compute, so they are parameters of the engine. *)
Record Cells : Type := mkCells {
  _handle_circle_square : mover;
  _handle_circle_triangle : mover;
  _handle_square_circle : mover;
  _handle_triangle_circle : mover;
  _handle_triangle_square : mover;
  _handle_triangle_triangle : mover;
  _circle_circle_overlap : mover;
  _circle_square_overlap : mover;
  _circle_triangle_overlap : mover;
  _square_circle_overlap : mover;
  _triangle_circle_overlap : mover;
  _triangle_square_overlap : mover;
  _triangle_triangle_overlap : mover;
  circle_square_distance : gauge;
  circle_triangle_distance : gauge;
  square_circle_distance : gauge;
  triangle_circle_distance : gauge;
  triangle_square_distance : gauge;
  triangle_triangle_distance : gauge
}.

(** ** The store of sprites and its monad *)

(** References to sprite objects. *)
Abbreviation ref := nat (only parsing).
Definition Store : Type := ref -> Sprite.

Definition upd (st : Store) (i : ref) (s : Sprite) : Store :=
  fun j => if Nat.eqb j i then s else st j.

(** A computation reads and writes the store and returns a value or raises;
    an exception keeps the store of the moment it is raised. *)
Definition M (A : Type) : Type := Store -> res A * Store.

Definition ret {A : Type} (a : A) : M A := fun st => (Ok a, st).

Definition bind {A B : Type} (m : M A) (k : A -> M B) : M B :=
  fun st =>
    match m st with
    | (Ok a, st') => k a st'
    | (Raise e, st') => (Raise e, st')
    end.

Definition lift {A : Type} (r : res A) : M A := fun st => (r, st).

Definition get (i : ref) : M Sprite := fun st => (Ok (st i), st).

Definition assign_position (i : ref) (p : point) : M unit :=
  fun st => (Ok tt, upd st i (set_position (st i) p)).

(** [self._position += motion] and [self._position -= motion]. *)
Definition iadd_position (i : ref) (motion : point) : M unit :=
  fun st => assign_position i (padd (_position (st i)) motion) st.

Definition isub_position (i : ref) (motion : point) : M unit :=
  fun st => assign_position i (psub (_position (st i)) motion) st.

Declare Scope st_scope.
Delimit Scope st_scope with st.
Notation "x <- m ;; k" := (bind m (fun x => k))
  (at level 61, m at next level, right associativity) : st_scope.
Notation "m ;; k" := (bind m (fun _ => k))
  (at level 61, right associativity) : st_scope.

(** ** [sprite.py] *)

Section Sprite.

Variable cells : Cells.

Definition check_collision (self other : Sprite) : bool :=
  intersects (vertices self) (vertices other).

(** The mover of a cell applied to the objects [self] and [other]. *)
Definition apply_cell (c : mover) (self other : ref) (direction : Direction)
  : M unit :=
  (s <- get self ;;
   o <- get other ;;
   p <- lift (c s o direction) ;;
   assign_position self p)%st.

Definition handle_collision (self other : ref) (direction : Direction) : M unit :=
  (s <- get self ;;
   o <- get other ;;
   match _shape s, _shape o with
   | circle, circle => apply_cell _handle_circle_circle self other direction
   | circle, square => apply_cell (_handle_circle_square cells) self other direction
   | circle, triangle => apply_cell (_handle_circle_triangle cells) self other direction
   | square, circle => apply_cell (_handle_square_circle cells) self other direction
   | square, square => apply_cell _handle_square_square self other direction
   | square, triangle => apply_cell _handle_square_triangle self other direction
   | triangle, circle => apply_cell (_handle_triangle_circle cells) self other direction
   | triangle, square => apply_cell (_handle_triangle_square cells) self other direction
   | triangle, triangle => apply_cell (_handle_triangle_triangle cells) self other direction
   end)%st.

Definition resolve_overlapping (self other : ref) (direction : Direction) : M unit :=
  (s <- get self ;;
   o <- get other ;;
   match _shape s, _shape o with
   | circle, circle => apply_cell (_circle_circle_overlap cells) self other direction
   | circle, square => apply_cell (_circle_square_overlap cells) self other direction
   | circle, triangle => apply_cell (_circle_triangle_overlap cells) self other direction
   | square, circle => apply_cell (_square_circle_overlap cells) self other direction
   | square, square => apply_cell _square_square_overlap self other direction
   | square, triangle => apply_cell _square_triangle_overlap self other direction
   | triangle, circle => apply_cell (_triangle_circle_overlap cells) self other direction
   | triangle, square => apply_cell (_triangle_square_overlap cells) self other direction
   | triangle, triangle => apply_cell (_triangle_triangle_overlap cells) self other direction
   end)%st.

Definition _get_distance (s1 s2 : Sprite) (direction : Direction) : res Q :=
  match _shape s1, _shape s2 with
  | circle, circle => circle_circle_distance s1 s2 direction
  | circle, square => circle_square_distance cells s1 s2 direction
  | circle, triangle => circle_triangle_distance cells s1 s2 direction
  | square, circle => square_circle_distance cells s1 s2 direction
  | square, square => square_square_distance s1 s2 direction
  | square, triangle => square_triangle_distance s1 s2 direction
  | triangle, circle => triangle_circle_distance cells s1 s2 direction
  | triangle, square => triangle_square_distance cells s1 s2 direction
  | triangle, triangle => triangle_triangle_distance cells s1 s2 direction
  end.

(** The overlap test of [avoid_overlapping] for the ordered pair of shapes. *)
Definition overlapping (self other : Sprite) : res bool :=
  match _shape self, _shape other with
  | circle, circle =>
      circle_circle (_position self) (_position other) (prop self) (prop other)
  | circle, square =>
      square_circle (_position self) (_position other) (prop self) (prop other)
  | circle, triangle =>
      triangle_circle (tri_of (vertices other)) (_position self) (prop self)
  | square, circle =>
      square_circle (_position other) (_position self) (prop other) (prop self)
  | square, square => Ok (check_collision self other)
  | square, triangle => Ok (triangle_square (tri_of (vertices other)) (bounds self))
  | triangle, circle =>
      triangle_circle (tri_of (vertices self)) (_position other) (prop other)
  | triangle, square => Ok (triangle_square (tri_of (vertices self)) (bounds other))
  | triangle, triangle =>
      TriTri2D (tri_of (vertices self)) (tri_of (vertices other)) true
  end.

(** Returns [Some overlapping] when [resolve] is false and [None] otherwise. *)
Definition avoid_overlapping (self other : ref) (direction : Direction)
    (resolve : bool) : M (option bool) :=
  (s <- get self ;;
   o <- get other ;;
   ov <- lift (overlapping s o) ;;
   (if ov && resolve then resolve_overlapping self other direction else ret tt) ;;
   if negb resolve then ret (Some ov) else ret None)%st.

(** The second test of the triangle-triangle case: whether a base corner of
    [other] lies between the heights of [self]'s base before ([p1], [p2]) and
    after ([p3], [p4]) the motion. *)
Definition condition2 (s o : Sprite) (p1 p2 p3 p4 : Q) (direction : Direction)
  : bool :=
  let c := false in
  match direction with
  | down =>
      let c :=
        if (fst (vert s 2) <? fst (vert o 0)) && (fst (vert s 2) >=? fst (vert o 1))
        then (snd (vert o 1) <=? p1) && (snd (vert o 1) >=? p3) else c in
      if (fst (vert s 1) >? fst (vert o 0)) && (fst (vert s 1) <=? fst (vert o 2))
      then (snd (vert o 2) <=? p2) && (snd (vert o 2) >=? p4) else c
  | up =>
      let c :=
        if (fst (vert s 2) <? fst (vert o 0)) && (fst (vert s 2) >=? fst (vert o 1))
        then (snd (vert o 1) <=? p3) && (snd (vert o 1) >=? p1) else c in
      if (fst (vert s 1) >? fst (vert o 0)) && (fst (vert s 1) <=? fst (vert o 2))
      then (snd (vert o 2) <=? p4) && (snd (vert o 2) >=? p2) else c
  | _ => c
  end.

Definition detect_collision (self other : ref) (motion : point)
    (direction : Direction) : M bool :=
  (s <- get self ;;
   o <- get other ;;
   match _shape s with
   | circle =>
       match _shape o with
       | circle =>
           lift (circle_circle (padd (_position s) motion) (_position o)
                   (prop s) (prop o))
       | square =>
           lift (square_circle (padd (_position s) motion) (_position o)
                   (prop s) (prop o))
       | triangle =>
           lift (triangle_circle (tri_of (vertices o))
                   (padd (_position s) motion) (prop s))
       end
   | square =>
       match _shape o with
       | circle =>
           lift (square_circle (_position o) (padd (_position s) motion)
                   (prop o) (prop s))
       | square =>
           iadd_position self motion ;;
           s' <- get self ;;
           o' <- get other ;;
           let collision := check_collision s' o' in
           isub_position self motion ;;
           ret collision
       | triangle =>
           iadd_position self motion ;;
           s' <- get self ;;
           o' <- get other ;;
           let collision := triangle_square (tri_of (vertices o')) (bounds s') in
           isub_position self motion ;;
           ret collision
       end
   | triangle =>
       let p1 := snd (vert s 1) in
       let p2 := snd (vert s 2) in
       iadd_position self motion ;;
       s' <- get self ;;
       o' <- get other ;;
       collision <-
         match _shape o with
         | circle =>
             lift (triangle_circle (tri_of (vertices s')) (_position o') (prop o'))
         | square =>
             ret (triangle_square (tri_of (vertices s')) (bounds o'))
         | triangle =>
             let p3 := snd (vert s' 1) in
             let p4 := snd (vert s' 2) in
             collision <- lift (TriTri2D (tri_of (vertices s'))
                                  (tri_of (vertices o')) true) ;;
             ret (collision || condition2 s' o' p1 p2 p3 p4 direction)
         end ;;
       isub_position self motion ;;
       ret collision
   end)%st.

Fixpoint get_carried_sprite (self : ref) (sprites : list ref) (motion : point)
    (direction : Direction) : M (list ref) :=
  match sprites with
  | [] => ret []
  | s :: rest =>
      (c <- detect_collision self s motion direction ;;
       r <- get_carried_sprite self rest motion direction ;;
       ret (if c then s :: r else r))%st
  end.

(** [np.argmin]: the first index of a least element. *)
Fixpoint argmin_from (best : Q) (besti i : nat) (l : list Q) : nat :=
  match l with
  | [] => besti
  | d :: t =>
      if d <? best then argmin_from d i (S i) t
      else argmin_from best besti (S i) t
  end.

Definition argmin (l : list Q) : nat :=
  match l with
  | [] => 0%nat
  | d :: t => argmin_from d 0 1 t
  end.

Fixpoint pop {A : Type} (i : nat) (l : list A) : list A :=
  match l, i with
  | [], _ => []
  | _ :: t, O => t
  | a :: t, S j => a :: pop j t
  end.

Fixpoint distances (s : Sprite) (st : Store) (carried : list ref)
    (direction : Direction) : res (list Q) :=
  match carried with
  | [] => Ok []
  | c :: t =>
      (d <- _get_distance s (st c) direction ;;
       ds <- distances s st t direction ;;
       Ok (d :: ds))%res
  end.

Definition get_closest (s : ref) (carried : list ref) (direction : Direction)
  : M (ref * list ref) :=
  fun st =>
    match distances (st s) st carried direction with
    | Ok ds =>
        let i := argmin ds in
        (Ok (nth i carried 0%nat, pop i carried), st)
    | Raise e => (Raise e, st)
    end.

(** [offsets]: distances from the position to the low and high corners of
    the bounds. *)
Definition offsets (s : Sprite) : point * point :=
  let b := bounds s in
  (pabs (psub (bnd b 0, bnd b 1) (_position s)),
   pabs (psub (bnd b 2, bnd b 3) (_position s))).

(** [np.clip(v, lo, hi)] on one coordinate. *)
Definition clip (v lo hi : Q) : Q := Qmin (Qmax v lo) hi.

(** The frame clamp of [move]. *)
Definition keep_in_frame_position (s : Sprite) : point :=
  let '(bottom_left, top_right) := offsets s in
  (clip (x s) (0.0 + fst bottom_left) (1.0 - fst top_right),
   clip (y s) (0.0 + snd bottom_left) (1.0 - snd top_right)).

Definition except_ (others : list ref) (cs : ref) : list ref :=
  filter (fun sprite => negb (Nat.eqb sprite cs)) others.

Section Move.

(** [move] on the sprites reached through recursive calls. *)
Variable rec : ref -> point -> bool -> option (list ref) -> M unit.

(** The loop over the carried sprites that are left once the closest one is
    taken out. *)
Fixpoint carry_rest (self : ref) (motion : point) (keep_in_frame : bool)
    (others carried_sprites : list ref) (direction : Direction) : M unit :=
  match carried_sprites with
  | [] => ret tt
  | carried_sprite :: rest =>
      (ov <- avoid_overlapping self carried_sprite direction false ;;
       (if match ov with Some true => true | _ => false end then
          rec carried_sprite motion keep_in_frame
            (Some (except_ others carried_sprite)) ;;
          avoid_overlapping self carried_sprite direction true ;;
          ret tt
        else ret tt) ;;
       carry_rest self motion keep_in_frame others rest direction)%st
  end.

Definition move_body (self : ref) (motion : point) (keep_in_frame : bool)
    (others : option (list ref)) : M unit :=
  (match others with
   | Some others =>
       direction <- lift (get_motion_direction motion) ;;
       carried_sprites <- get_carried_sprite self others motion direction ;;
       match carried_sprites with
       | _ :: _ =>
           closest <- get_closest self carried_sprites direction ;;
           let cs := fst closest in
           let carried_sprites := snd closest in
           handle_collision self cs direction ;;
           s <- get self ;;
           c <- get cs ;;
           positions <- lift (get_relative_positions s c) ;;
           (if existsb (Direction_eqb direction) (map opposite positions) then
              iadd_position self motion ;;
              rec cs motion keep_in_frame (Some (except_ others cs)) ;;
              avoid_overlapping self cs direction true ;;
              ret tt
            else iadd_position self motion) ;;
           carry_rest self motion keep_in_frame others carried_sprites direction
       | [] => iadd_position self motion
       end
   | None => iadd_position self motion
   end ;;
   if keep_in_frame then
     s <- get self ;;
     assign_position self (keep_in_frame_position s)
   else ret tt)%st.

End Move.

(** A recursive call of [move] hands on a list that has lost at least the
    sprite it is called on, so the depth of the recursion is bounded by the
    length of [others]; [n] counts the calls that may still nest. *)
Fixpoint move_depth (n : nat) : ref -> point -> bool -> option (list ref) -> M unit :=
  match n with
  | O => move_body (fun _ _ _ _ => lift (Raise RecursionError))
  | S n' => move_body (move_depth n')
  end.

Definition depth_of (others : option (list ref)) : nat :=
  match others with
  | Some l => length l
  | None => 0
  end.

Definition move (self : ref) (motion : point) (keep_in_frame : bool)
    (others : option (list ref)) : M unit :=
  move_depth (depth_of others) self motion keep_in_frame others.

End Sprite.

(** ** Notions used to state the properties of the engine *)

(** [s] with its position moved by [m]. *)
Definition translated (s : Sprite) (m : point) : Sprite :=
  set_position s (padd (_position s) m).

(** The same sprite up to the value of the position's fractions. *)
Definition same_body (a b : Sprite) : Prop :=
  peq (_position a) (_position b) /\ _shape a = _shape b /\
  prop a = prop b /\ _centered_path a = _centered_path b.

(** The bounds of the centred path. *)
Definition cbounds (s : Sprite) : Bounds := bounds_of (_centered_path s).

(** The gap between the edges of the two bounding boxes that face each other
    along a direction ([square_square_distance] as a number). *)
Definition facing_gap (d : Direction) (self other : Bounds) : Q :=
  match d with
  | down => miny self - maxy other
  | up => miny other - maxy self
  | right_ => minx other - maxx self
  | left_ => minx self - maxx other
  end.

(** The coordinate of a point across a direction. *)
Definition orthogonal (d : Direction) (p : point) : Q :=
  match d with
  | up | down => fst p
  | left_ | right_ => snd p
  end.


Definition in_frame (b : Bounds) : Prop :=
  0 <= minx b /\ 0 <= miny b /\ maxx b <= 1 /\ maxy b <= 1.

(** The position lies within the body's own bounds. *)
Definition centred (s : Sprite) : Prop :=
  minx (bounds s) <= x s /\ x s <= maxx (bounds s) /\
  miny (bounds s) <= y s /\ y s <= maxy (bounds s).

(** The body is no wider and no higher than the frame. *)
Definition fits (s : Sprite) : Prop :=
  maxx (bounds s) - minx (bounds s) <= 1 /\ maxy (bounds s) - miny (bounds s) <= 1.

(** The geometry is a Point, at [p]. *)
Definition meets_at (g : Geom) (p : point) : Prop :=
  exists q, g = GPoint q /\ peq q p.

Definition wf_bounds (b : Bounds) : Prop := minx b <= maxx b /\ miny b <= maxy b.

(** The region flags of a coordinate, as booleans. *)
Definition fL (x : Q) (b : Bounds) : bool := x <? minx b.
Definition fR (x : Q) (b : Bounds) : bool := negb (x <? minx b) && (maxx b <? x).
Definition fB (y : Q) (b : Bounds) : bool := y <? miny b.
Definition fT (y : Q) (b : Bounds) : bool := negb (y <? miny b) && (maxy b <? y).

Definition b2n (c : bool) : nat := if c then 1%nat else 0%nat.

(** How many of the four region flags are set on some endpoint. *)
Definition flagged (x1 y1 x2 y2 : Q) (b : Bounds) : nat :=
  (b2n (fL x1 b || fL x2 b) + b2n (fR x1 b || fR x2 b)
   + b2n (fB y1 b || fB y2 b) + b2n (fT y1 b || fT y2 b))%nat.

(** Two stand-ins for the recursive call of [move] agree on every list
    shorter than [k]. *)
Definition agree (k : nat)
    (rec1 rec2 : ref -> point -> bool -> option (list ref) -> M unit) : Prop :=
  forall c m kf l st,
    (length l < k)%nat -> rec1 c m kf (Some l) st = rec2 c m kf (Some l) st.

(** ** Sprites and scenes *)

(** Modelled from the spec: [constants.SHAPES] is not part of the sources.
    The spec's squares of scale [s] have side [s], so the canonical square
    is the unit square; its vertices are numbered as the cells index them:
    0 top right, 1 top left, 2 bottom left, 3 bottom right. *)
Definition SHAPES_square : list point :=
  [(0.5, 0.5); (-0.5, 0.5); (-0.5, -0.5); (0.5, -0.5)].

(** [Sprite(x, y, 'square', 0, scale)]: the path is the canonical one scaled,
    and [prop], the square root of the area, is the side. *)
Definition square_sprite (x y scale : Q) : Sprite :=
  mkSprite (x, y) square (Some scale) (map (pscale scale) SHAPES_square).

(** Modelled from the spec: [constants.SHAPES] is not part of the sources.
    A triangle outline with its apex up and a horizontal base, numbered as
    the cells index it: 0 apex, 1 bottom left, 2 bottom right.  The engine
    reads a triangle through its three vertices only. *)
Definition triangle_path : list point :=
  [(0, 0.0877); (-0.076, -0.0439); (0.076, -0.0439)].

Definition triangle_sprite (x y : Q) : Sprite :=
  mkSprite (x, y) triangle None triangle_path.

(** Modelled from the spec: a circle outline, here twelve points of the
    unit circle with rational coordinates, anticlockwise.  [prop] of a
    circle, which the program computes as [sqrt (area / pi)] of the outline,
    is taken to be the radius, as the spec has it. *)
Definition unit_circle : list point :=
  [(1, 0); (0.8, 0.6); (0.6, 0.8); (0, 1); (-0.6, 0.8); (-0.8, 0.6);
   (-1, 0); (-0.8, -0.6); (-0.6, -0.8); (0, -1); (0.6, -0.8); (0.8, -0.6)].

Definition circle_sprite (x y r : Q) : Sprite :=
  mkSprite (x, y) circle (Some r) (map (pscale r) unit_circle).

(** A store with [a] at reference 0 and [b] everywhere else. *)
Definition pair_store (a b : Sprite) : Store :=
  fun i => match i with
           | O => a
           | S _ => b
           end.

(** Scenario A of the spec: two squares of side 0.1 that overlap by 0.05. *)
Definition scenario_A : Store :=
  pair_store (square_sprite 0.50 0.50 0.1) (square_sprite 0.55 0.50 0.1).

(** Scenario B of the spec: two coincident circles of radius 0.05. *)
Definition scenario_B : Store :=
  pair_store (circle_sprite 0.3 0.3 0.05) (circle_sprite 0.3 0.3 0.05).

(** A circle under another, their outlines 0.1 apart. *)
Definition below_store : Store :=
  pair_store (circle_sprite 0.3 0.1 0.05) (circle_sprite 0.3 0.3 0.05).



(** A square whose top is level with the base of a triangle, to the left of
    it: moving right, it slides under the triangle. *)
Definition slide_store : Store :=
  pair_store (square_sprite 0.36 0.4061 0.1) (triangle_sprite 0.5 0.5).

(** A square that overlaps the right flank of a triangle, its centre to the
    right of the triangle's and its bottom above the triangle's base. *)
Definition flank_store : Store :=
  pair_store (square_sprite 0.56 0.52 0.1) (triangle_sprite 0.5 0.5).

(** A triangle above and to the left of another: moving down by 0.05, its
    base passes the level of the other's base without the two meeting. *)
Definition sweep_store : Store :=
  pair_store (triangle_sprite 0.36 0.52) (triangle_sprite 0.5 0.5).

(** A triangle next to a sprite that was built as a triangle and then made
    a circle through the [shape] setter: its [prop] is still [None]. *)
Definition reshaped_store : Store :=
  pair_store (triangle_sprite 0.3 0.3)
             (mkSprite (0.5, 0.5) circle None (map (pscale 0.05) unit_circle)).

(** A triangle wider than the frame. *)
Definition oversized : Sprite :=
  mkSprite (0.5, 0.5) triangle None
    [(0, 0.7019); (-0.6079, -0.351); (0.6079, -0.351)].


(** ** [abstractsprite.py]: the cells of a triangle against a square or a
    triangle

    These cells only use bounds and intersections of segments, like the
    cells of a square above.  They are embedded under their own names in
    [Triangle]; the dispatch tables keep reaching them through [Cells]. *)

Module Triangle.

Definition _triangle_square_overlap : mover := fun self other direction =>
  let p := _position self in
  let self_vert := vert self in
  let other_vert := vert other in
  match direction with
  | down => Ok (add_y p (bnd (bounds other) 3 - bnd (bounds self) 1 + 0.00001))
  | up =>
      if fst (other_vert 3%nat) <? fst (self_vert 0%nat) then
        let point := LineString2 (self_vert 0%nat) (self_vert 1%nat)
                       (other_vert 3%nat) (fst (other_vert 3%nat), 1) in
        attempt p (py <- geom_y point ;;
                   Ok (sub_y p (py - snd (other_vert 3%nat) + 0.00001)))%res
      else if fst (other_vert 2%nat) >? fst (self_vert 0%nat) then
        let point := LineString2 (self_vert 0%nat) (self_vert 2%nat)
                       (other_vert 2%nat) (fst (other_vert 2%nat), 1) in
        attempt p (py <- geom_y point ;;
                   Ok (sub_y p (py - snd (other_vert 2%nat) + 0.00001)))%res
      else Ok (sub_y p (bnd (bounds self) 3 - bnd (bounds other) 1 + 0.00001))
  | right_ =>
      if bnd (bounds self) 1 >=? bnd (bounds other) 1 then
        Ok (sub_x p (bnd (bounds self) 2 - bnd (bounds other) 0 + 0.00001))
      else
        let point := LineString2 (self_vert 0%nat) (self_vert 2%nat)
                       (other_vert 2%nat) (1, snd (other_vert 2%nat)) in
        attempt p (px <- geom_x point ;;
                   Ok (sub_x p (px - fst (other_vert 2%nat) + 0.00001)))%res
  | left_ =>
      if bnd (bounds self) 1 >=? bnd (bounds other) 1 then
        Ok (add_x p (bnd (bounds other) 2 - bnd (bounds self) 0 + 0.00001))
      else
        let point := LineString2 (self_vert 0%nat) (self_vert 1%nat)
                       (0, snd (other_vert 3%nat)) (other_vert 3%nat) in
        attempt p (px <- geom_x point ;;
                   Ok (add_x p (fst (other_vert 3%nat) - px + 0.00001)))%res
  end.

Definition _triangle_triangle_overlap : mover := fun self other direction =>
  let p := _position self in
  let self_vert := vert self in
  let other_vert := vert other in
  match direction with
  | down =>
      if fst (self_vert 2%nat) <? fst (other_vert 0%nat) then
        let point := LineString2 (self_vert 2%nat) (fst (self_vert 2%nat), 1)
                       (other_vert 0%nat) (other_vert 1%nat) in
        attempt p (py <- geom_y point ;;
                   Ok (add_y p (py - snd (self_vert 2%nat))))%res
      else if fst (self_vert 1%nat) >? fst (other_vert 0%nat) then
        let point := LineString2 (self_vert 1%nat) (fst (self_vert 1%nat), 1)
                       (other_vert 0%nat) (other_vert 2%nat) in
        attempt p (py <- geom_y point ;;
                   Ok (add_y p (py - snd (self_vert 1%nat))))%res
      else if bnd (bounds self) 1 <? bnd (bounds other) 3
      then Ok (add_y p (bnd (bounds other) 3 - bnd (bounds self) 1))
      else Ok p
  | up =>
      if fst (other_vert 2%nat) <? fst (self_vert 0%nat) then
        let point := LineString2 (other_vert 2%nat) (fst (other_vert 2%nat), 1)
                       (self_vert 0%nat) (self_vert 1%nat) in
        attempt p (py <- geom_y point ;;
                   Ok (sub_y p (py - snd (other_vert 2%nat))))%res
      else if fst (other_vert 1%nat) >? fst (self_vert 0%nat) then
        let point := LineString2 (other_vert 1%nat) (fst (other_vert 1%nat), 1)
                       (self_vert 0%nat) (self_vert 2%nat) in
        attempt p (py <- geom_y point ;;
                   Ok (sub_y p (py - snd (other_vert 1%nat))))%res
      else if bnd (bounds other) 1 <? bnd (bounds self) 3
      then Ok (sub_y p (bnd (bounds self) 3 - bnd (bounds other) 1))
      else Ok p
  | right_ =>
      if bnd (bounds self) 1 >? bnd (bounds other) 1 then
        let point := LineString2 (0, snd (self_vert 2%nat)) (self_vert 2%nat)
                       (other_vert 0%nat) (other_vert 1%nat) in
        attempt p (px <- geom_x point ;;
                   Ok (sub_x p (fst (self_vert 2%nat) - px)))%res
      else if bnd (bounds self) 1 <? bnd (bounds other) 1 then
        let point := LineString2 (other_vert 1%nat) (1, snd (other_vert 1%nat))
                       (self_vert 0%nat) (self_vert 2%nat) in
        attempt p (px <- geom_x point ;;
                   Ok (sub_x p (px - fst (other_vert 1%nat))))%res
      else if bnd (bounds other) 0 <? bnd (bounds self) 2
      then Ok (sub_x p (bnd (bounds self) 2 - bnd (bounds other) 0))
      else Ok p
  | left_ =>
      if bnd (bounds self) 1 >? bnd (bounds other) 1 then
        let point := LineString2 (self_vert 1%nat) (1, snd (self_vert 1%nat))
                       (other_vert 0%nat) (other_vert 2%nat) in
        attempt p (px <- geom_x point ;;
                   Ok (add_x p (px - fst (self_vert 1%nat))))%res
      else if bnd (bounds self) 1 <? bnd (bounds other) 1 then
        let point := LineString2 (0, snd (other_vert 2%nat)) (other_vert 2%nat)
                       (self_vert 0%nat) (self_vert 1%nat) in
        attempt p (px <- geom_x point ;;
                   Ok (add_x p (fst (other_vert 2%nat) - px)))%res
      else if bnd (bounds other) 2 >? bnd (bounds self) 0
      then Ok (add_x p (bnd (bounds other) 2 - bnd (bounds self) 0))
      else Ok p
  end.

Definition _handle_triangle_square : mover := fun self other direction =>
  let p := _position self in
  let self_vert := vert self in
  let other_vert := vert other in
  match direction with
  | down => Ok (sub_y p (bnd (bounds self) 1 - bnd (bounds other) 3))
  | up =>
      if fst (other_vert 3%nat) <? fst (self_vert 0%nat) then
        let point := LineString2 (self_vert 0%nat) (self_vert 1%nat)
                       (fst (other_vert 3%nat), 0) (other_vert 3%nat) in
        attempt p (py <- geom_y point ;;
                   Ok (add_y p (snd (other_vert 3%nat) - py)))%res
      else if fst (other_vert 2%nat) >? fst (self_vert 0%nat) then
        let point := LineString2 (self_vert 0%nat) (self_vert 2%nat)
                       (fst (other_vert 2%nat), 0) (other_vert 2%nat) in
        attempt p (py <- geom_y point ;;
                   Ok (add_y p (snd (other_vert 2%nat) - py)))%res
      else Ok (add_y p (bnd (bounds other) 1 - bnd (bounds self) 3))
  | right_ =>
      if bnd (bounds self) 1 >=? bnd (bounds other) 1 then
        Ok (add_x p (bnd (bounds other) 0 - bnd (bounds self) 2))
      else
        let point := LineString2 (self_vert 0%nat) (self_vert 2%nat)
                       (0, snd (other_vert 2%nat)) (other_vert 2%nat) in
        attempt p (px <- geom_x point ;;
                   Ok (add_x p (fst (other_vert 2%nat) - px)))%res
  | left_ =>
      if bnd (bounds self) 1 >=? bnd (bounds other) 1 then
        Ok (sub_x p (bnd (bounds self) 0 - bnd (bounds other) 2))
      else
        let point := LineString2 (self_vert 0%nat) (self_vert 1%nat)
                       (other_vert 3%nat) (1, snd (other_vert 3%nat)) in
        attempt p (px <- geom_x point ;;
                   Ok (sub_x p (px - fst (other_vert 3%nat))))%res
  end.

Definition _handle_triangle_triangle : mover := fun self other direction =>
  let p := _position self in
  let self_vert := vert self in
  let other_vert := vert other in
  match direction with
  | down =>
      if fst (self_vert 2%nat) <? fst (other_vert 0%nat) then
        let point := LineString2 (fst (self_vert 2%nat), 0) (self_vert 2%nat)
                       (other_vert 0%nat) (other_vert 1%nat) in
        attempt p (py <- geom_y point ;;
                   Ok (sub_y p (snd (self_vert 2%nat) - py)))%res
      else if fst (self_vert 1%nat) >? fst (other_vert 0%nat) then
        let point := LineString2 (fst (self_vert 1%nat), 0) (self_vert 1%nat)
                       (other_vert 0%nat) (other_vert 2%nat) in
        attempt p (py <- geom_y point ;;
                   Ok (sub_y p (snd (self_vert 1%nat) - py)))%res
      else Ok (sub_y p (bnd (bounds self) 1 - bnd (bounds other) 3))
  | up =>
      if fst (other_vert 2%nat) <? fst (self_vert 0%nat) then
        let point := LineString2 (fst (other_vert 2%nat), 0) (other_vert 2%nat)
                       (self_vert 0%nat) (self_vert 1%nat) in
        attempt p (py <- geom_y point ;;
                   Ok (add_y p (snd (other_vert 2%nat) - py)))%res
      else if fst (other_vert 1%nat) >? fst (self_vert 0%nat) then
        let point := LineString2 (fst (other_vert 1%nat), 0) (other_vert 1%nat)
                       (self_vert 0%nat) (self_vert 2%nat) in
        attempt p (py <- geom_y point ;;
                   Ok (add_y p (snd (other_vert 1%nat) - py)))%res
      else Ok (add_y p (bnd (bounds other) 1 - bnd (bounds self) 3))
  | right_ =>
      if bnd (bounds self) 1 >? bnd (bounds other) 1 then
        let point := LineString2 (self_vert 2%nat) (1, snd (self_vert 2%nat))
                       (other_vert 0%nat) (other_vert 1%nat) in
        attempt p (px <- geom_x point ;;
                   Ok (add_x p (px - fst (self_vert 2%nat))))%res
      else if bnd (bounds self) 1 <? bnd (bounds other) 1 then
        let point := LineString2 (0, snd (other_vert 1%nat)) (other_vert 1%nat)
                       (self_vert 0%nat) (self_vert 2%nat) in
        attempt p (px <- geom_x point ;;
                   Ok (add_x p (fst (other_vert 1%nat) - px)))%res
      else Ok (add_x p (bnd (bounds other) 0 - bnd (bounds self) 2))
  | left_ =>
      if bnd (bounds self) 1 >? bnd (bounds other) 1 then
        let point := LineString2 (0, snd (self_vert 1%nat)) (self_vert 1%nat)
                       (other_vert 0%nat) (other_vert 2%nat) in
        attempt p (px <- geom_x point ;;
                   Ok (sub_x p (fst (self_vert 1%nat) - px)))%res
      else if bnd (bounds self) 1 <? bnd (bounds other) 1 then
        let point := LineString2 (other_vert 2%nat) (1, snd (other_vert 2%nat))
                       (self_vert 0%nat) (self_vert 1%nat) in
        attempt p (px <- geom_x point ;;
                   Ok (sub_x p (px - fst (other_vert 2%nat))))%res
      else Ok (sub_x p (bnd (bounds other) 2 - bnd (bounds self) 0))
  end.

Definition triangle_square_distance : gauge := fun self other direction =>
  let self_vert := vert self in
  let other_vert := vert other in
  match direction with
  | down => Ok (bnd (bounds self) 1 - bnd (bounds other) 3)
  | up =>
      if fst (other_vert 3%nat) <? fst (self_vert 0%nat) then
        let point := LineString2 (self_vert 0%nat) (self_vert 1%nat)
                       (fst (other_vert 3%nat), 0) (other_vert 3%nat) in
        or_one (py <- geom_y point ;; Ok (snd (other_vert 3%nat) - py))%res
      else if fst (other_vert 2%nat) >? fst (self_vert 0%nat) then
        let point := LineString2 (self_vert 0%nat) (self_vert 2%nat)
                       (fst (other_vert 2%nat), 0) (other_vert 2%nat) in
        or_one (py <- geom_y point ;; Ok (snd (other_vert 2%nat) - py))%res
      else Ok (bnd (bounds other) 1 - bnd (bounds self) 3)
  | right_ =>
      if bnd (bounds self) 1 >=? bnd (bounds other) 1 then
        Ok (bnd (bounds other) 0 - bnd (bounds self) 2)
      else
        let point := LineString2 (self_vert 0%nat) (self_vert 2%nat)
                       (0, snd (other_vert 2%nat)) (other_vert 2%nat) in
        or_one (px <- geom_x point ;; Ok (fst (other_vert 2%nat) - px))%res
  | left_ =>
      if bnd (bounds self) 1 >=? bnd (bounds other) 1 then
        Ok (bnd (bounds self) 0 - bnd (bounds other) 2)
      else
        let point := LineString2 (self_vert 0%nat) (self_vert 1%nat)
                       (other_vert 3%nat) (1, snd (other_vert 3%nat)) in
        or_one (px <- geom_x point ;; Ok (px - fst (other_vert 3%nat)))%res
  end.

Definition triangle_triangle_distance : gauge := fun self other direction =>
  let self_vert := vert self in
  let other_vert := vert other in
  match direction with
  | down =>
      if fst (self_vert 2%nat) <? fst (other_vert 0%nat) then
        let point := LineString2 (fst (self_vert 2%nat), 0) (self_vert 2%nat)
                       (other_vert 0%nat) (other_vert 1%nat) in
        or_one (py <- geom_y point ;; Ok (snd (self_vert 2%nat) - py))%res
      else if fst (self_vert 1%nat) >? fst (other_vert 0%nat) then
        let point := LineString2 (fst (self_vert 1%nat), 0) (self_vert 1%nat)
                       (other_vert 0%nat) (other_vert 2%nat) in
        or_one (py <- geom_y point ;; Ok (snd (self_vert 1%nat) - py))%res
      else Ok (bnd (bounds self) 1 - bnd (bounds other) 3)
  | up =>
      if fst (other_vert 2%nat) <? fst (self_vert 0%nat) then
        let point := LineString2 (fst (other_vert 2%nat), 0) (other_vert 2%nat)
                       (self_vert 0%nat) (self_vert 1%nat) in
        or_one (py <- geom_y point ;; Ok (snd (other_vert 2%nat) - py))%res
      else if fst (other_vert 1%nat) >? fst (self_vert 0%nat) then
        let point := LineString2 (fst (other_vert 1%nat), 0) (other_vert 1%nat)
                       (self_vert 0%nat) (self_vert 2%nat) in
        or_one (py <- geom_y point ;; Ok (snd (other_vert 1%nat) - py))%res
      else Ok (bnd (bounds other) 1 - bnd (bounds self) 3)
  | right_ =>
      if bnd (bounds self) 1 >? bnd (bounds other) 1 then
        let point := LineString2 (self_vert 2%nat) (1, snd (self_vert 2%nat))
                       (other_vert 0%nat) (other_vert 1%nat) in
        or_one (px <- geom_x point ;; Ok (px - fst (self_vert 2%nat)))%res
      else if bnd (bounds self) 1 <? bnd (bounds other) 1 then
        let point := LineString2 (0, snd (other_vert 1%nat)) (other_vert 1%nat)
                       (self_vert 0%nat) (self_vert 2%nat) in
        or_one (px <- geom_x point ;; Ok (fst (other_vert 1%nat) - px))%res
      else Ok (bnd (bounds other) 0 - bnd (bounds self) 2)
  | left_ =>
      if bnd (bounds self) 1 >? bnd (bounds other) 1 then
        let point := LineString2 (0, snd (self_vert 1%nat)) (self_vert 1%nat)
                       (other_vert 0%nat) (other_vert 2%nat) in
        or_one (px <- geom_x point ;; Ok (fst (self_vert 1%nat) - px))%res
      else if bnd (bounds self) 1 <? bnd (bounds other) 1 then
        let point := LineString2 (other_vert 2%nat) (1, snd (other_vert 2%nat))
                       (self_vert 0%nat) (self_vert 1%nat) in
        or_one (px <- geom_x point ;; Ok (px - fst (other_vert 2%nat)))%res
      else Ok (bnd (bounds other) 2 - bnd (bounds self) 0)
  end.

End Triangle.

(** [out_of_frame]: the position, not the outline, is outside the unit
    square. *)
Definition out_of_frame (s : Sprite) : bool :=
  negb ((0 <=? x s) && (0 <=? y s) && (x s <=? 1) && (y s <=? 1)).

(** [move] with [n] nested calls unfolded and [bottom] standing for the
    calls below them. *)
Fixpoint move_from (cells : Cells)
    (bottom : ref -> point -> bool -> option (list ref) -> M unit) (n : nat)
  : ref -> point -> bool -> option (list ref) -> M unit :=
  match n with
  | O => move_body cells bottom
  | S n' => move_body cells (move_from cells bottom n')
  end.

(** ** Further notions used to state properties *)

(** Every sprite of [st'] has the shape, the [prop] and the outline it has
    in [st]: the two stores differ in positions only. *)
Definition same_outlines (st st' : Store) : Prop :=
  forall i, _shape (st' i) = _shape (st i) /\ prop (st' i) = prop (st i) /\
            _centered_path (st' i) = _centered_path (st i).

(** [p] lies in the closed box [b]. *)
Definition inside (p : point) (b : Bounds) : Prop :=
  minx b <= fst p /\ fst p <= maxx b /\ miny b <= snd p /\ snd p <= maxy b.

(** The point of the segment [a1 a2] at parameter [t]. *)
Definition along (a1 a2 : point) (t : Q) : point := padd a1 (pscale t (psub a2 a1)).

(** The closed segment [a1 a2] has a point in the closed box [b]. *)
Definition meets_box (a1 a2 : point) (b : Bounds) : Prop :=
  exists t, 0 <= t /\ t <= 1 /\ inside (along a1 a2 t) b.




(** The corners of a box. *)
Definition corners (b : Bounds) : list point :=
  [(minx b, miny b); (maxx b, miny b); (maxx b, maxy b); (minx b, maxy b)].

(** The box lies strictly inside the anticlockwise triangle [t]: each of its
    corners is strictly on the inner side of each edge. *)
Definition box_within (b : Bounds) (t : tri) : Prop :=
  let '(v0, v1, v2) := t in
  forall p, In p (corners b) ->
    0 < cross v0 v1 p /\ 0 < cross v1 v2 p /\ 0 < cross v2 v0 p.

(** A computation changes positions only. *)
Definition keeps_outlines {A : Type} (m : M A) : Prop :=
  forall st, same_outlines st (snd (m st)).

(** The sprites a call of [move] may reach: [self] and the [others]. *)
Definition scope (self : ref) (others : option (list ref)) : list ref :=
  self :: match others with
          | Some l => l
          | None => []
          end.

(** Run from [st], the computation leaves every sprite outside [S] as it
    is. *)
Definition unmoved (S : list ref) {A : Type} (m : M A) (st : Store) : Prop :=
  forall i, ~ In i S -> snd (m st) i = st i.

End Engine.

(** * The pose of a sprite and its setters ([abstractsprite.py])

    The cached path, the three setters and the derived attributes, over the
    reals. *)

Module Geometry.

Open Scope R_scope.

Definition point : Type := R * R.

(** [matplotlib.transforms.Affine2D]: the three maps the sprite uses. *)
Definition scale (s : R) (p : point) : point := (s * fst p, s * snd p).

Definition rotate_deg (a : R) (p : point) : point :=
  let t := a * PI / 180 in
  (cos t * fst p - sin t * snd p, sin t * fst p + cos t * snd p).

Definition translate (d p : point) : point := (fst p + fst d, snd p + snd d).

Definition transform_path (f : point -> point) (path : list point) : list point :=
  map f path.

Record Sprite : Type := mkSprite {
  _position : point;
  _shape : Shape;
  _angle : R;
  _scale : R;
  prop : option R;
  _centered_path : list point
}.

Section Shapes.

(** [constants.SHAPES]: the canonical vertices of each shape.  The table is
    not part of the sources; it is a parameter. *)
Variable SHAPES : Shape -> list point.

(** [_reset_centered_path]: scale, then rotate, the canonical path. *)
Definition _reset_centered_path (s : Sprite) : Sprite :=
  mkSprite (_position s) (_shape s) (_angle s) (_scale s) (prop s)
    (transform_path (fun v => rotate_deg (_angle s) (scale (_scale s) v))
       (SHAPES (_shape s))).

(** [AbstractSprite.__init__]. *)
Definition AbstractSprite_init (x y : R) (shape : Shape) (angle scale : R) : Sprite :=
  _reset_centered_path (mkSprite (x, y) shape angle scale None []).

Definition vertices (s : Sprite) : list point :=
  transform_path (translate (_position s)) (_centered_path s).

(** [Polygon(vs).area]: the shoelace sum, unsigned. *)
Fixpoint shoelace (first : point) (l : list point) : R :=
  match l with
  | [] => 0
  | a :: t =>
      match t with
      | [] => fst a * snd first - fst first * snd a
      | b :: _ => fst a * snd b - fst b * snd a + shoelace first t
      end
  end.

Definition area (vs : list point) : R :=
  match vs with
  | [] => 0
  | v :: _ => Rabs (shoelace v vs) / 2
  end.

(** [Sprite._geometrical_properties]. *)
Definition _geometrical_properties (s : Sprite) : Sprite :=
  let a := area (vertices s) in
  match _shape s with
  | circle =>
      mkSprite (_position s) (_shape s) (_angle s) (_scale s)
        (Some (sqrt (a / PI))) (_centered_path s)
  | square =>
      mkSprite (_position s) (_shape s) (_angle s) (_scale s)
        (Some (sqrt a)) (_centered_path s)
  | triangle => s
  end.

(** [Sprite.__init__]. *)
Definition Sprite_init (x y : R) (shape : Shape) (angle scale : R) : Sprite :=
  _geometrical_properties (AbstractSprite_init x y shape angle scale).

(** The [shape], [angle] and [scale] setters. *)
Definition set_shape (s : Sprite) (sh : Shape) : Sprite :=
  _reset_centered_path
    (mkSprite (_position s) sh (_angle s) (_scale s) (prop s) (_centered_path s)).

Definition set_angle (s : Sprite) (a : R) : Sprite :=
  mkSprite (_position s) (_shape s) a (_scale s) (prop s)
    (transform_path (rotate_deg (a - _angle s)) (_centered_path s)).

Definition set_scale (s : Sprite) (k : R) : Sprite :=
  mkSprite (_position s) (_shape s) (_angle s) k (prop s)
    (transform_path (scale (k - _scale s)) (_centered_path s)).

(** The vertices that the stored pose describes: the canonical path scaled
    by [_scale], rotated by [_angle] and translated to [_position]. *)
Definition posed (s : Sprite) : list point :=
  map (fun v => translate (_position s) (rotate_deg (_angle s) (scale (_scale s) v)))
      (SHAPES (_shape s)).

Definition consistent (s : Sprite) : Prop := vertices s = posed s.

(** [prop] agrees with the area of the current polygon. *)
Definition prop_consistent (s : Sprite) : Prop :=
  match _shape s with
  | circle => prop s = Some (sqrt (area (vertices s) / PI))
  | square => prop s = Some (sqrt (area (vertices s)))
  | triangle => True
  end.

Inductive Setter : Type :=
| SetShape (sh : Shape)
| SetAngle (a : R)
| SetScale (k : R).

Definition apply_setter (s : Sprite) (c : Setter) : Sprite :=
  match c with
  | SetShape sh => set_shape s sh
  | SetAngle a => set_angle s a
  | SetScale k => set_scale s k
  end.

End Shapes.

End Geometry.
(** * Properties of the collision engine *)

Import Engine.
Open Scope Q_scope.

(** ** Comparisons *)

Lemma Qltb_lt a b : (a <? b) = true <-> a < b.
Proof.
  unfold Qltb. rewrite negb_true_iff. split; intro H.
  - apply Qnot_le_lt. intro H1. apply Qle_bool_iff in H1. congruence.
  - destruct (Qle_bool b a) eqn:E; auto. apply Qle_bool_iff in E. lra.
Qed.

Lemma Qltb_ge a b : (a <? b) = false <-> b <= a.
Proof. unfold Qltb. rewrite negb_false_iff. apply Qle_bool_iff. Qed.

Lemma Qleb_gt a b : (a <=? b) = false <-> b < a.
Proof.
  split; intro H.
  - apply Qnot_le_lt. intro H1. apply Qle_bool_iff in H1. congruence.
  - destruct (Qle_bool a b) eqn:E; auto. apply Qle_bool_iff in E. lra.
Qed.

(** Splits the goal on the order of the arguments of every [Qmin] and
    [Qmax], innermost first. *)
Ltac minmax_cases :=
  repeat match goal with
  | |- context [Qmin ?a ?b] =>
      lazymatch a with
      | context [Qmin _ _] => fail
      | context [Qmax _ _] => fail
      | _ => idtac
      end;
      lazymatch b with
      | context [Qmin _ _] => fail
      | context [Qmax _ _] => fail
      | _ => idtac
      end;
      let H := fresh "Hm" in
      pose proof (Q.min_spec a b) as H;
      let m := fresh "m" in
      set (m := Qmin a b) in *; clearbody m;
      destruct H as [[? ?]|[? ?]]
  | |- context [Qmax ?a ?b] =>
      lazymatch a with
      | context [Qmin _ _] => fail
      | context [Qmax _ _] => fail
      | _ => idtac
      end;
      lazymatch b with
      | context [Qmin _ _] => fail
      | context [Qmax _ _] => fail
      | _ => idtac
      end;
      let H := fresh "Hm" in
      pose proof (Q.max_spec a b) as H;
      let m := fresh "m" in
      set (m := Qmax a b) in *; clearbody m;
      destruct H as [[? ?]|[? ?]]
  end.

(** Decides a closed comparison of rationals by evaluation. *)
Ltac qcompute := vm_compute; first [reflexivity | discriminate].

(** ** Bounds *)

Lemma minimum_shift d l : forall a,
  minimum (a + d) (map (fun v => v + d) l) == minimum a l + d.
Proof.
  induction l as [|b t IH]; intro a; simpl.
  - reflexivity.
  - rewrite IH. apply Q.plus_min_distr_r.
Qed.

Lemma maximum_shift d l : forall a,
  maximum (a + d) (map (fun v => v + d) l) == maximum a l + d.
Proof.
  induction l as [|b t IH]; intro a; simpl.
  - reflexivity.
  - rewrite IH. apply Q.plus_max_distr_r.
Qed.

Lemma minimum_le_maximum l : forall a, minimum a l <= maximum a l.
Proof.
  induction l as [|b t IH]; intro a; simpl.
  - lra.
  - specialize (IH b).
    pose proof (Q.le_min_l a (minimum b t)).
    pose proof (Q.le_max_l a (maximum b t)). lra.
Qed.

Lemma bounds_of_wf vs : wf_bounds (bounds_of vs).
Proof.
  unfold wf_bounds. destruct vs as [|v t]; cbn [bounds_of minx miny maxx maxy].
  - lra.
  - split; apply minimum_le_maximum.
Qed.

Lemma map_fst_padd p l :
  map fst (map (fun v => padd v p) l) = map (fun a => a + fst p) (map fst l).
Proof. rewrite !map_map. reflexivity. Qed.

Lemma map_snd_padd p l :
  map snd (map (fun v => padd v p) l) = map (fun a => a + snd p) (map snd l).
Proof. rewrite !map_map. reflexivity. Qed.

(** The bounds of a sprite are those of its centred path, moved to its
    position. *)
Lemma bounds_centered s :
  _centered_path s <> [] ->
  minx (bounds s) == minx (cbounds s) + x s /\
  miny (bounds s) == miny (cbounds s) + y s /\
  maxx (bounds s) == maxx (cbounds s) + x s /\
  maxy (bounds s) == maxy (cbounds s) + y s.
Proof.
  unfold bounds, cbounds, vertices, x, y.
  destruct (_centered_path s) as [|v t]; [congruence|intros _].
  cbn [map bounds_of minx miny maxx maxy].
  rewrite map_fst_padd, map_snd_padd. cbn [padd fst snd].
  repeat split; first [apply minimum_shift | apply maximum_shift].
Qed.

Lemma bounds_set_position s p :
  _centered_path s <> [] ->
  minx (bounds (set_position s p)) == minx (bounds s) + (fst p - x s) /\
  miny (bounds (set_position s p)) == miny (bounds s) + (snd p - y s) /\
  maxx (bounds (set_position s p)) == maxx (bounds s) + (fst p - x s) /\
  maxy (bounds (set_position s p)) == maxy (bounds s) + (snd p - y s).
Proof.
  intro H.
  destruct (bounds_centered s H) as (A1 & A2 & A3 & A4).
  destruct (bounds_centered (set_position s p) H) as (B1 & B2 & B3 & B4).
  unfold cbounds in *. cbn [_centered_path set_position] in *.
  unfold x, y in *. cbn [_position set_position] in *.
  repeat split; lra.
Qed.


Lemma set_position_same s : set_position s (_position s) = s.
Proof. destruct s; reflexivity. Qed.

(** ** Polygon intersection and envelopes *)








(** ** The store and its monad *)

Lemma upd_same st i s : upd st i s i = s.
Proof. unfold upd. rewrite Nat.eqb_refl. reflexivity. Qed.

Lemma upd_other st i s j : j <> i -> upd st i s j = st j.
Proof. unfold upd. intro H. apply Nat.eqb_neq in H. rewrite H. reflexivity. Qed.

Lemma bind_ok {A B : Type} (m : M A) (k : A -> M B) st a st' :
  m st = (Ok a, st') -> bind m k st = k a st'.
Proof. unfold bind. intros ->. reflexivity. Qed.

Lemma bind_ext {A B : Type} (m : M A) (k1 k2 : A -> M B) st :
  (forall a st', m st = (Ok a, st') -> k1 a st' = k2 a st') ->
  bind m k1 st = bind m k2 st.
Proof.
  intro H. unfold bind. destruct (m st) as [[a|e] st'] eqn:E; auto.
Qed.

Lemma bind_cong {A B : Type} (m1 m2 : M A) (k1 k2 : A -> M B) st :
  m1 st = m2 st ->
  (forall a st', m2 st = (Ok a, st') -> k1 a st' = k2 a st') ->
  bind m1 k1 st = bind m2 k2 st.
Proof.
  intros Hm H. unfold bind. rewrite Hm.
  destruct (m2 st) as [[a|e] st'] eqn:E; auto.
Qed.
(** ** The clipping loop exits *)

Lemma has_LEFT x y b : has (computeCode x y b) LEFT = (x <? minx b).
Proof.
  unfold computeCode, has.
  destruct (x <? minx b), (maxx b <? x), (y <? miny b), (maxy b <? y); reflexivity.
Qed.

Lemma has_RIGHT x y b : has (computeCode x y b) RIGHT = negb (x <? minx b) && (maxx b <? x).
Proof.
  unfold computeCode, has.
  destruct (x <? minx b), (maxx b <? x), (y <? miny b), (maxy b <? y); reflexivity.
Qed.

Lemma has_BOTTOM x y b : has (computeCode x y b) BOTTOM = (y <? miny b).
Proof.
  unfold computeCode, has.
  destruct (x <? minx b), (maxx b <? x), (y <? miny b), (maxy b <? y); reflexivity.
Qed.

Lemma has_TOP x y b : has (computeCode x y b) TOP = negb (y <? miny b) && (maxy b <? y).
Proof.
  unfold computeCode, has.
  destruct (x <? minx b), (maxx b <? x), (y <? miny b), (maxy b <? y); reflexivity.
Qed.

(** Interpolation along a segment at a level between its end levels stays
    between its ends. *)
Lemma interpolate_between u1 v1 u2 v2 c :
  ~ v1 == v2 ->
  (v2 <= c /\ c <= v1) \/ (v1 <= c /\ c <= v2) ->
  let u := u1 + (u2 - u1) * (c - v1) / (v2 - v1) in
  (u1 <= u /\ u <= u2) \/ (u2 <= u /\ u <= u1).
Proof.
  intros Hne H u.
  assert (Hd : ~ v2 - v1 == 0) by (intro; apply Hne; lra).
  set (t := (c - v1) / (v2 - v1)).
  assert (Et : t * (v2 - v1) == c - v1) by (unfold t; field; exact Hd).
  assert (Eu : u == u1 + (u2 - u1) * t) by (unfold u, t; field; exact Hd).
  assert (Ht : 0 <= t /\ t <= 1).
  { destruct (Qlt_le_dec v1 v2) as [G|G].
    - assert (v1 <= c /\ c <= v2) as [A B] by (destruct H; lra). split; nra.
    - assert (G' : v2 < v1).
      { destruct (Qlt_le_dec v2 v1); auto. exfalso. apply Hne. lra. }
      assert (v2 <= c /\ c <= v1) as [A B] by (destruct H; lra). split; nra. }
  destruct (Qlt_le_dec u1 u2); [left|right]; nra.
Qed.



Lemma code_zero x y b :
  (computeCode x y b =? 0)%Z = negb (fL x b) && negb (fR x b) && negb (fB y b) && negb (fT y b).
Proof.
  unfold computeCode, fL, fR, fB, fT.
  destruct (x <? minx b), (maxx b <? x), (y <? miny b), (maxy b <? y); reflexivity.
Qed.

Lemma codes_share x1 y1 x2 y2 b :
  negb (Z.land (computeCode x1 y1 b) (computeCode x2 y2 b) =? 0)%Z
  = (fL x1 b && fL x2 b) || (fR x1 b && fR x2 b)
    || (fB y1 b && fB y2 b) || (fT y1 b && fT y2 b).
Proof.
  unfold computeCode, fL, fR, fB, fT.
  destruct (x1 <? minx b), (maxx b <? x1), (y1 <? miny b), (maxy b <? y1),
           (x2 <? minx b), (maxx b <? x2), (y2 <? miny b), (maxy b <? y2); reflexivity.
Qed.

Lemma fL_between x x1 x2 b :
  (x1 <= x /\ x <= x2) \/ (x2 <= x /\ x <= x1) ->
  fL x b = true -> fL x1 b || fL x2 b = true.
Proof.
  unfold fL. intros H Hx. apply Qltb_lt in Hx. apply orb_true_iff.
  destruct H as [[A B]|[A B]]; [left|right]; apply Qltb_lt; lra.
Qed.

Lemma fR_between x x1 x2 b :
  (x1 <= x /\ x <= x2) \/ (x2 <= x /\ x <= x1) ->
  fR x b = true -> fR x1 b || fR x2 b = true.
Proof.
  unfold fR. intros H Hx. apply andb_true_iff in Hx. destruct Hx as [Hl Hr].
  apply negb_true_iff, Qltb_ge in Hl. apply Qltb_lt in Hr. apply orb_true_iff.
  destruct H as [[A B]|[A B]]; [right|left]; apply andb_true_iff; split;
    try (apply negb_true_iff, Qltb_ge; lra); apply Qltb_lt; lra.
Qed.

Lemma fB_between y y1 y2 b :
  (y1 <= y /\ y <= y2) \/ (y2 <= y /\ y <= y1) ->
  fB y b = true -> fB y1 b || fB y2 b = true.
Proof. apply (fL_between y y1 y2 (mkBounds (miny b) 0 (maxy b) 0)). Qed.

Lemma fT_between y y1 y2 b :
  (y1 <= y /\ y <= y2) \/ (y2 <= y /\ y <= y1) ->
  fT y b = true -> fT y1 b || fT y2 b = true.
Proof. apply (fR_between y y1 y2 (mkBounds (miny b) 0 (maxy b) 0)). Qed.

(** Replacing an endpoint: the processed flag [k] was set on it and is set
    on neither endpoint afterwards; no other flag appears. *)
Lemma flags_drop (k k' ko a a' ao b_ b' bo c c' co : bool) :
  k = true -> k' = false -> ko = false ->
  (a' = true -> a || ao = true) ->
  (b' = true -> b_ || bo = true) ->
  (c' = true -> c || co = true) ->
  (b2n (k' || ko) + b2n (a' || ao) + b2n (b' || bo) + b2n (c' || co)
   < b2n (k || ko) + b2n (a || ao) + b2n (b_ || bo) + b2n (c || co))%nat.
Proof.
  intros -> -> -> Ha Hb Hc.
  destruct a, a', ao, b_, b', bo, c, c', co; cbn in *;
    try lia; try (specialize (Ha eq_refl); discriminate);
    try (specialize (Hb eq_refl); discriminate);
    try (specialize (Hc eq_refl); discriminate).
Qed.

Lemma has_flags x y b :
  has (computeCode x y b) TOP = fT y b /\ has (computeCode x y b) BOTTOM = fB y b /\
  has (computeCode x y b) RIGHT = fR x b /\ has (computeCode x y b) LEFT = fL x b.
Proof.
  repeat split; [apply has_TOP | apply has_BOTTOM | apply has_RIGHT | apply has_LEFT].
Qed.

Lemma fT_elim y b : fT y b = true -> maxy b < y.
Proof. unfold fT. intro H. apply andb_true_iff in H. apply Qltb_lt. tauto. Qed.

Lemma fT_false y b : wf_bounds b -> fT y b = false -> y <= maxy b.
Proof.
  unfold fT, wf_bounds. intros [_ W] H. apply andb_false_iff in H. destruct H as [H|H].
  - apply negb_false_iff, Qltb_lt in H. lra.
  - apply Qltb_ge in H. exact H.
Qed.

Lemma fR_elim x b : fR x b = true -> maxx b < x.
Proof. unfold fR. intro H. apply andb_true_iff in H. apply Qltb_lt. tauto. Qed.

Lemma fR_false x b : wf_bounds b -> fR x b = false -> x <= maxx b.
Proof.
  unfold fR, wf_bounds. intros [W _] H. apply andb_false_iff in H. destruct H as [H|H].
  - apply negb_false_iff, Qltb_lt in H. lra.
  - apply Qltb_ge in H. exact H.
Qed.

Lemma on_top b : wf_bounds b -> fT (maxy b) b = false /\ fB (maxy b) b = false.
Proof.
  unfold fT, fB, wf_bounds. intros [_ W]. split.
  - apply andb_false_iff. right. apply Qltb_ge. lra.
  - apply Qltb_ge. exact W.
Qed.

Lemma on_bottom b : wf_bounds b -> fT (miny b) b = false /\ fB (miny b) b = false.
Proof.
  unfold fT, fB, wf_bounds. intros [_ W]. split.
  - apply andb_false_iff. right. apply Qltb_ge. exact W.
  - apply Qltb_ge. lra.
Qed.

Lemma on_right b : wf_bounds b -> fR (maxx b) b = false /\ fL (maxx b) b = false.
Proof.
  unfold fR, fL, wf_bounds. intros [W _]. split.
  - apply andb_false_iff. right. apply Qltb_ge. lra.
  - apply Qltb_ge. exact W.
Qed.

Lemma on_left b : wf_bounds b -> fR (minx b) b = false /\ fL (minx b) b = false.
Proof.
  unfold fR, fL, wf_bounds. intros [W _]. split.
  - apply andb_false_iff. right. apply Qltb_ge. exact W.
  - apply Qltb_ge. lra.
Qed.

Lemma fB_elim y b : fB y b = true -> y < miny b.
Proof. unfold fB. apply Qltb_lt. Qed.

Lemma fB_false y b : fB y b = false -> miny b <= y.
Proof. unfold fB. apply Qltb_ge. Qed.

Lemma fL_elim x b : fL x b = true -> x < minx b.
Proof. unfold fL. apply Qltb_lt. Qed.

Lemma fL_false x b : fL x b = false -> minx b <= x.
Proof. unfold fL. apply Qltb_ge. Qed.

(** The four clippings.  [(xo, yo)] is the endpoint that is replaced and
    [(xi, yi)] the one that is kept; the new coordinate is interpolated from
    [(x1, y1)] towards [(x2, y2)], the two endpoints in either order. *)
Section Clippings.
Variables (b : Bounds) (xo yo xi yi x1 y1 x2 y2 : Q).
Hypothesis W : wf_bounds b.
Hypothesis ends :
  (x1 = xo /\ y1 = yo /\ x2 = xi /\ y2 = yi) \/ (x1 = xi /\ y1 = yi /\ x2 = xo /\ y2 = yo).

Local Abbreviation lerp u1 v1 u2 v2 c := (u1 + (u2 - u1) * (c - v1) / (v2 - v1)).

Lemma between_x (c : Q) :
  ~ yo == yi -> (yi <= c /\ c <= yo) \/ (yo <= c /\ c <= yi) ->
  (xo <= lerp x1 y1 x2 y2 c /\ lerp x1 y1 x2 y2 c <= xi)
  \/ (xi <= lerp x1 y1 x2 y2 c /\ lerp x1 y1 x2 y2 c <= xo).
Proof.
  intros Hne Hc.
  assert (H : (x1 <= lerp x1 y1 x2 y2 c /\ lerp x1 y1 x2 y2 c <= x2)
              \/ (x2 <= lerp x1 y1 x2 y2 c /\ lerp x1 y1 x2 y2 c <= x1)).
  { apply interpolate_between.
    - destruct ends as [(_ & -> & _ & ->)|(_ & -> & _ & ->)]; intro; apply Hne; lra.
    - destruct ends as [(_ & -> & _ & ->)|(_ & -> & _ & ->)]; tauto. }
  destruct ends as [(-> & _ & -> & _)|(-> & _ & -> & _)]; tauto.
Qed.

Lemma between_y (c : Q) :
  ~ xo == xi -> (xi <= c /\ c <= xo) \/ (xo <= c /\ c <= xi) ->
  (yo <= lerp y1 x1 y2 x2 c /\ lerp y1 x1 y2 x2 c <= yi)
  \/ (yi <= lerp y1 x1 y2 x2 c /\ lerp y1 x1 y2 x2 c <= yo).
Proof.
  intros Hne Hc.
  assert (H : (y1 <= lerp y1 x1 y2 x2 c /\ lerp y1 x1 y2 x2 c <= y2)
              \/ (y2 <= lerp y1 x1 y2 x2 c /\ lerp y1 x1 y2 x2 c <= y1)).
  { apply interpolate_between.
    - destruct ends as [(-> & _ & -> & _)|(-> & _ & -> & _)]; intro; apply Hne; lra.
    - destruct ends as [(-> & _ & -> & _)|(-> & _ & -> & _)]; tauto. }
  destruct ends as [(_ & -> & _ & ->)|(_ & -> & _ & ->)]; tauto.
Qed.

Lemma clip_top :
  fT yo b = true -> fT yi b = false ->
  (flagged (lerp x1 y1 x2 y2 (maxy b)) (maxy b) xi yi b < flagged xo yo xi yi b)%nat.
Proof.
  intros Ho Hi. pose proof (fT_elim _ _ Ho) as A. pose proof (fT_false _ _ W Hi) as B.
  destruct (on_top b W) as [N1 N2].
  assert (Hb := between_x (maxy b) ltac:(intro; lra) ltac:(lra)).
  unfold flagged.
  pose proof (flags_drop (fT yo b) (fT (maxy b) b) (fT yi b)
                (fL xo b) (fL (lerp x1 y1 x2 y2 (maxy b)) b) (fL xi b)
                (fR xo b) (fR (lerp x1 y1 x2 y2 (maxy b)) b) (fR xi b)
                (fB yo b) (fB (maxy b) b) (fB yi b)
                Ho N1 Hi (fL_between _ _ _ _ Hb) (fR_between _ _ _ _ Hb)
                ltac:(rewrite N2; discriminate)).
  lia.
Qed.

Lemma clip_bottom :
  fB yo b = true -> fB yi b = false ->
  (flagged (lerp x1 y1 x2 y2 (miny b)) (miny b) xi yi b < flagged xo yo xi yi b)%nat.
Proof.
  intros Ho Hi. pose proof (fB_elim _ _ Ho) as A. pose proof (fB_false _ _ Hi) as B.
  destruct (on_bottom b W) as [N1 N2].
  assert (Hb := between_x (miny b) ltac:(intro; lra) ltac:(lra)).
  unfold flagged.
  pose proof (flags_drop (fB yo b) (fB (miny b) b) (fB yi b)
                (fL xo b) (fL (lerp x1 y1 x2 y2 (miny b)) b) (fL xi b)
                (fR xo b) (fR (lerp x1 y1 x2 y2 (miny b)) b) (fR xi b)
                (fT yo b) (fT (miny b) b) (fT yi b)
                Ho N2 Hi (fL_between _ _ _ _ Hb) (fR_between _ _ _ _ Hb)
                ltac:(rewrite N1; discriminate)).
  lia.
Qed.

Lemma clip_right :
  fR xo b = true -> fR xi b = false ->
  (flagged (maxx b) (lerp y1 x1 y2 x2 (maxx b)) xi yi b < flagged xo yo xi yi b)%nat.
Proof.
  intros Ho Hi. pose proof (fR_elim _ _ Ho) as A. pose proof (fR_false _ _ W Hi) as B.
  destruct (on_right b W) as [N1 N2].
  assert (Hb := between_y (maxx b) ltac:(intro; lra) ltac:(lra)).
  unfold flagged.
  pose proof (flags_drop (fR xo b) (fR (maxx b) b) (fR xi b)
                (fL xo b) (fL (maxx b) b) (fL xi b)
                (fB yo b) (fB (lerp y1 x1 y2 x2 (maxx b)) b) (fB yi b)
                (fT yo b) (fT (lerp y1 x1 y2 x2 (maxx b)) b) (fT yi b)
                Ho N1 Hi ltac:(rewrite N2; discriminate)
                (fB_between _ _ _ _ Hb) (fT_between _ _ _ _ Hb)).
  lia.
Qed.

Lemma clip_left :
  fL xo b = true -> fL xi b = false ->
  (flagged (minx b) (lerp y1 x1 y2 x2 (minx b)) xi yi b < flagged xo yo xi yi b)%nat.
Proof.
  intros Ho Hi. pose proof (fL_elim _ _ Ho) as A. pose proof (fL_false _ _ Hi) as B.
  destruct (on_left b W) as [N1 N2].
  assert (Hb := between_y (minx b) ltac:(intro; lra) ltac:(lra)).
  unfold flagged.
  pose proof (flags_drop (fL xo b) (fL (minx b) b) (fL xi b)
                (fR xo b) (fR (minx b) b) (fR xi b)
                (fB yo b) (fB (lerp y1 x1 y2 x2 (minx b)) b) (fB yi b)
                (fT yo b) (fT (lerp y1 x1 y2 x2 (minx b)) b) (fT yi b)
                Ho N2 Hi ltac:(rewrite N1; discriminate)
                (fB_between _ _ _ _ Hb) (fT_between _ _ _ _ Hb)).
  lia.
Qed.
End Clippings.

Lemma flagged_sym x1 y1 x2 y2 b : flagged x1 y1 x2 y2 b = flagged x2 y2 x1 y1 b.
Proof. unfold flagged. rewrite !(orb_comm (_ x1 b)), !(orb_comm (_ y1 b)). reflexivity. Qed.

(** A pass that continues keeps the codes in step with the endpoints and
    lowers the number of flagged regions. *)
Lemma clipStep_progress x1 y1 x2 y2 b x1' y1' x2' y2' c1' c2' :
  wf_bounds b ->
  clipStep x1 y1 x2 y2 (computeCode x1 y1 b) (computeCode x2 y2 b) b
    = inr (x1', y1', x2', y2', c1', c2') ->
  c1' = computeCode x1' y1' b /\ c2' = computeCode x2' y2' b /\
  (flagged x1' y1' x2' y2' b < flagged x1 y1 x2 y2 b)%nat.
Proof.
  intros W. unfold clipStep.
  destruct (has_flags x1 y1 b) as (T1 & B1 & R1 & L1).
  destruct (has_flags x2 y2 b) as (T2 & B2 & R2 & L2).
  pose proof (codes_share x1 y1 x2 y2 b) as Sh.
  pose proof (code_zero x1 y1 b) as Z1. pose proof (code_zero x2 y2 b) as Z2.
  destruct (computeCode x1 y1 b =? 0)%Z eqn:E1.
  - (* the first endpoint is inside: the second is clipped *)
    destruct (computeCode x2 y2 b =? 0)%Z eqn:E2; [discriminate|]. cbn [andb negb].
    destruct (negb (Z.land (computeCode x1 y1 b) (computeCode x2 y2 b) =? 0)%Z);
      [discriminate|].
    apply Z.eqb_eq in E1. rewrite E1 at 1. rewrite E1 in *. rewrite E2.
    symmetry in Z1. repeat rewrite andb_true_iff in Z1. rewrite !negb_true_iff in Z1.
    destruct Z1 as [[[F1 F2] F3] F4].
    rewrite T2, B2, R2, L2.
    destruct (fT y2 b) eqn:G1; [|destruct (fB y2 b) eqn:G2;
      [|destruct (fR x2 b) eqn:G3; [|destruct (fL x2 b) eqn:G4]]];
      try (cbn in Z2; discriminate);
      cbn [fst snd]; intro H; inversion H; subst; clear H;
      (split; [symmetry; exact E1|]); (split; [reflexivity|]);
      rewrite (flagged_sym x1' y1'), (flagged_sym x1' y1' x2 y2).
    + apply clip_top; auto.
    + apply clip_bottom; auto.
    + apply clip_right; auto.
    + apply clip_left; auto.
  - (* the first endpoint is outside: it is clipped *)
    cbn [andb negb]. rewrite Z.eqb_refl.
    destruct (negb (Z.land (computeCode x1 y1 b) (computeCode x2 y2 b) =? 0)%Z);
      [discriminate|].
    symmetry in Sh. repeat rewrite orb_false_iff in Sh.
    destruct Sh as [[[S1 S2] S3] S4].
    rewrite T1, B1, R1, L1.
    destruct (fT y1 b) eqn:G1; [|destruct (fB y1 b) eqn:G2;
      [|destruct (fR x1 b) eqn:G3; [|destruct (fL x1 b) eqn:G4]]];
      try (cbn in Z1; discriminate);
      cbn [fst snd]; intro H; inversion H; subst; clear H;
      (split; [reflexivity|]); (split; [reflexivity|]).
    + apply clip_top; auto.
    + apply clip_bottom; auto.
    + apply clip_right; auto.
    + apply clip_left; auto.
Qed.

Lemma clipLoop_flagged b : wf_bounds b ->
  forall n x1 y1 x2 y2,
    (flagged x1 y1 x2 y2 b < n)%nat ->
    exists accept,
      clipLoop n x1 y1 x2 y2 (computeCode x1 y1 b) (computeCode x2 y2 b) b = Some accept.
Proof.
  intros W. induction n as [|n IH]; intros x1 y1 x2 y2 H; [lia|].
  cbn [clipLoop].
  destruct (clipStep x1 y1 x2 y2 (computeCode x1 y1 b) (computeCode x2 y2 b) b)
    as [accept|[[[[[x1' y1'] x2'] y2'] c1'] c2']] eqn:E.
  - eauto.
  - destruct (clipStep_progress _ _ _ _ _ _ _ _ _ _ _ W E) as (-> & -> & D).
    apply IH. lia.
Qed.

Lemma flagged_le_4 x1 y1 x2 y2 b : (flagged x1 y1 x2 y2 b <= 4)%nat.
Proof.
  unfold flagged, b2n.
  destruct (fL x1 b || fL x2 b), (fR x1 b || fR x2 b), (fB y1 b || fB y2 b),
    (fT y1 b || fT y2 b); lia.
Qed.

(** The loop of [cohenSutherlandClip] exits within five passes. *)
Lemma clipLoop_exits x1 y1 x2 y2 b :
  wf_bounds b ->
  exists accept,
    clipLoop 5 x1 y1 x2 y2 (computeCode x1 y1 b) (computeCode x2 y2 b) b = Some accept.
Proof.
  intro W. apply clipLoop_flagged; auto. pose proof (flagged_le_4 x1 y1 x2 y2 b). lia.
Qed.

(** ** Axis-aligned squares *)







(** ** The cells behind the dispatchers *)

Section Dispatch.

Variable cells : Cells.


Lemma handle_collision_circle_circle st self other d :
  _shape (st self) = circle -> _shape (st other) = circle ->
  handle_collision cells self other d st =
  apply_cell _handle_circle_circle self other d st.
Proof.
  intros Hs Ho. unfold handle_collision, bind, get. rewrite Hs, Ho. reflexivity.
Qed.

Lemma resolve_overlapping_square_square st self other d :
  _shape (st self) = square -> _shape (st other) = square ->
  resolve_overlapping cells self other d st =
  apply_cell _square_square_overlap self other d st.
Proof.
  intros Hs Ho. unfold resolve_overlapping, bind, get. rewrite Hs, Ho.
  reflexivity.
Qed.


End Dispatch.

(** ** The square resolver *)




(** ** The recursion of [move] *)

Section Depth.

Variable cells : Cells.

Lemma get_carried_sprite_incl self motion d sprites :
  forall st carried st',
    get_carried_sprite self sprites motion d st = (Ok carried, st') ->
    incl carried sprites.
Proof.
  induction sprites as [|s rest IH]; intros st carried st' H;
    cbn [get_carried_sprite] in H.
  - inversion H. apply incl_nil_l.
  - unfold bind in H.
    destruct (detect_collision self s motion d st) as [[c|e] st1];
      [|discriminate].
    destruct (get_carried_sprite self rest motion d st1) as [[r|e] st2] eqn:E;
      [|discriminate].
    unfold ret in H. inversion H; subst. specialize (IH _ _ _ E).
    destruct c.
    + apply incl_cons; [left; reflexivity | apply incl_tl; exact IH].
    + apply incl_tl; exact IH.
Qed.

Lemma argmin_from_lt l : forall best besti i,
  (besti < i)%nat -> (argmin_from best besti i l < i + length l)%nat.
Proof.
  induction l as [|d t IH]; intros best besti i H; cbn [argmin_from length].
  - lia.
  - destruct (d <? best).
    + specialize (IH d i (S i)). lia.
    + specialize (IH best besti (S i)). lia.
Qed.

Lemma argmin_lt l : l <> [] -> (argmin l < length l)%nat.
Proof.
  destruct l as [|d t]; [congruence|intros _]. cbn [argmin length].
  pose proof (argmin_from_lt t d 0%nat 1%nat). lia.
Qed.

Lemma distances_length s st d carried : forall ds,
  distances cells s st carried d = Ok ds -> length ds = length carried.
Proof.
  induction carried as [|c t IH]; intros ds H; cbn [distances] in H.
  - inversion H. reflexivity.
  - unfold rbind in H. destruct (_get_distance cells s (st c) d); [|discriminate].
    destruct (distances cells s st t d) eqn:E; [|discriminate].
    inversion H. cbn [length]. rewrite (IH _ eq_refl). reflexivity.
Qed.

Lemma pop_incl {A : Type} (l : list A) : forall i, incl (pop i l) l.
Proof.
  induction l as [|a t IH]; intro i; destruct i; cbn [pop].
  - apply incl_refl.
  - apply incl_refl.
  - apply incl_tl, incl_refl.
  - apply incl_cons; [left; reflexivity | apply incl_tl, IH].
Qed.

(** The closest sprite is one of the carried ones, and so are the rest. *)
Lemma get_closest_in self carried d st cs rest st' :
  carried <> [] ->
  get_closest cells self carried d st = (Ok (cs, rest), st') ->
  In cs carried /\ incl rest carried.
Proof.
  intros Hne H. unfold get_closest in H.
  destruct (distances cells (st self) st carried d) as [ds|e] eqn:E;
    [|discriminate].
  inversion H; subst. split.
  - apply nth_In. rewrite <- (distances_length _ _ _ _ _ E). apply argmin_lt.
    intro Hds. apply distances_length in E. rewrite Hds in E.
    destruct carried; [congruence|discriminate].
  - apply pop_incl.
Qed.

Lemma except_shorter others cs :
  In cs others -> (length (except_ others cs) < length others)%nat.
Proof.
  unfold except_. induction others as [|a t IH]; intro H; [contradiction|].
  simpl. destruct (Nat.eqb a cs) eqn:E; simpl.
  - pose proof (filter_length_le (fun sprite => negb (Nat.eqb sprite cs)) t). lia.
  - destruct H as [H|H].
    + subst. rewrite Nat.eqb_refl in E. discriminate.
    + specialize (IH H). lia.
Qed.

Lemma carry_rest_ext rec1 rec2 self motion kif others d :
  agree (length others) rec1 rec2 ->
  forall rest st, incl rest others ->
    carry_rest cells rec1 self motion kif others rest d st
    = carry_rest cells rec2 self motion kif others rest d st.
Proof.
  intros Hag. induction rest as [|c t IH]; intros st Hin; cbn [carry_rest].
  - reflexivity.
  - assert (Hc : In c others) by (apply Hin; left; reflexivity).
    assert (Ht : incl t others) by (intros z Hz; apply Hin; right; exact Hz).
    apply bind_ext. intros ov st1 _.
    apply bind_cong; [|intros; apply IH; exact Ht].
    destruct ov as [[|]|]; try reflexivity.
    apply bind_cong; [|reflexivity].
    apply Hag, except_shorter, Hc.
Qed.

(** The body of [move] only calls itself on lists shorter than [others]. *)
Lemma move_body_ext rec1 rec2 self motion kif others st :
  agree (depth_of others) rec1 rec2 ->
  move_body cells rec1 self motion kif others st
  = move_body cells rec2 self motion kif others st.
Proof.
  intro Hag. unfold move_body.
  destruct others as [others|]; [|reflexivity]. cbn [depth_of] in Hag.
  apply bind_cong; [|reflexivity].
  apply bind_ext. intros d st1 _.
  apply bind_ext. intros carried st2 Hcar.
  destruct carried as [|c0 rest]; [reflexivity|].
  apply bind_ext. intros [cs rest'] st3 Hclo. cbn [fst snd].
  destruct (get_closest_in self (c0 :: rest) d st2 cs rest' st3
              ltac:(discriminate) Hclo) as [Hin Hrest].
  pose proof (get_carried_sprite_incl _ _ _ _ _ _ _ Hcar) as Hincl.
  apply bind_ext. intros _ st4 _.
  apply bind_ext. intros s st5 _.
  apply bind_ext. intros c st6 _.
  apply bind_ext. intros positions st7 _.
  apply bind_cong.
  - destruct (existsb _ _); [|reflexivity].
    apply bind_ext. intros _ st8 _.
    apply bind_cong; [|reflexivity].
    apply Hag, except_shorter, Hincl, Hin.
  - intros _ st8 _. apply carry_rest_ext; auto.
    intros z Hz. apply Hincl, Hrest, Hz.
Qed.

(** Any allowance of at least the length of [others] gives the same
    outcome: the default of [move_depth 0] never decides a run. *)
Lemma move_depth_enough : forall n m self motion kif others st,
  (depth_of others <= n)%nat -> (depth_of others <= m)%nat ->
  move_depth cells n self motion kif others st
  = move_depth cells m self motion kif others st.
Proof.
  induction n as [|n IH]; intros m self motion kif others st Hn Hm.
  - destruct m as [|m]; [reflexivity|]. cbn [move_depth].
    apply move_body_ext. intros c mo kf l st0 Hl. lia.
  - destruct m as [|m]; cbn [move_depth]; apply move_body_ext;
      intros c mo kf l st0 Hl.
    + lia.
    + apply IH; cbn [depth_of]; lia.
Qed.

(** [move] satisfies the recursive equation of the source. *)
Lemma move_unfold_body self motion kif others st :
  move cells self motion kif others st
  = move_body cells (move cells) self motion kif others st.
Proof.
  unfold move at 1.
  destruct (depth_of others) as [|n] eqn:E; cbn [move_depth];
    apply move_body_ext; intros c mo kf l st0 Hl.
  - lia.
  - unfold move. apply move_depth_enough; cbn [depth_of]; lia.
Qed.

(** Without [others], [move] adds the motion and then clamps if asked to. *)
Lemma move_alone self motion st :
  move cells self motion true None st =
  (Ok tt,
   upd (upd st self (translated (st self) motion)) self
       (set_position (translated (st self) motion)
          (keep_in_frame_position (translated (st self) motion)))).
Proof.
  unfold move, move_depth, depth_of, move_body, bind, iadd_position,
    assign_position, get, translated.
  rewrite upd_same. reflexivity.
Qed.

End Depth.

Lemma get_motion_direction_nonzero motion d :
  get_motion_direction motion = Ok d -> ~ peq (padd (0, 0) motion) (0, 0).
Proof.
  unfold get_motion_direction, peq, padd. cbn [fst snd].
  intros H [H1 H2].
  assert (L1 : (0 <? snd motion) = false) by (apply Qltb_ge; lra).
  assert (L2 : (0 <? fst motion) = false) by (apply Qltb_ge; lra).
  assert (L3 : (snd motion <? 0) = false) by (apply Qltb_ge; lra).
  assert (L4 : (fst motion <? 0) = false) by (apply Qltb_ge; lra).
  rewrite L1, L2, L3, L4, !andb_false_r in H. discriminate.
Qed.

(** ** Intersections with a vertical segment *)

Lemma is_zero_iff v : is_zero v = true <-> fst v == 0 /\ snd v == 0.
Proof. unfold is_zero. rewrite andb_true_iff, !Qeq_bool_iff. tauto. Qed.

Lemma is_zero_false v : is_zero v = false -> ~ (fst v == 0 /\ snd v == 0).
Proof. intros H H1. apply is_zero_iff in H1. congruence. Qed.

Lemma vertical_point a1 a2 t :
  fst a1 == fst a2 -> fst (padd a1 (pscale t (psub a2 a1))) == fst a1.
Proof.
  intro H. unfold padd, pscale, psub. cbn [fst snd].
  assert (E : fst a2 - fst a1 == 0) by lra. rewrite E. lra.
Qed.

(** A point of the intersection of a vertical segment with another segment
    has the abscissa of the vertical one. *)
Lemma segment_intersection_vertical a1 a2 b1 b2 p :
  fst a1 == fst a2 ->
  segment_intersection a1 a2 b1 b2 = GPoint p -> fst p == fst a1.
Proof.
  intros Hv. unfold segment_intersection.
  destruct (cross2 (psub a2 a1) (psub b2 b1) =? 0).
  - destruct (is_zero (psub a2 a1)) eqn:Z1.
    { destruct (on_segment a1 b1 b2); intro H; inversion H; subst.
      reflexivity. }
    destruct (is_zero (psub b2 b1)) eqn:Z2.
    { destruct (on_segment b1 a1 a2) eqn:On; intro H; inversion H; subst;
        clear H.
      unfold on_segment in On. repeat rewrite andb_true_iff in On.
      destruct On as [[Hc _] _].
      apply Qeq_bool_iff in Hc. unfold cross, cross2, psub in Hc.
      cbn [fst snd] in Hc.
      apply is_zero_false in Z1. unfold psub in Z1. cbn [fst snd] in Z1.
      assert (Hy : ~ snd a2 - snd a1 == 0) by (intro; apply Z1; split; lra).
      assert (E : fst a2 - fst a1 == 0) by lra. rewrite E in Hc.
      assert (Hm : (snd a2 - snd a1) * (fst p - fst a1) == 0) by lra.
      apply Qmult_integral in Hm. destruct Hm; [contradiction|lra]. }
    destruct (cross2 (psub a2 a1) (psub b1 a1) =? 0); [|discriminate].
    match goal with
    | |- context [if ?c then _ else _] => destruct c
    end; [discriminate|].
    match goal with
    | |- context [if ?c then _ else _] => destruct c
    end; [|discriminate].
    intro H; inversion H; subst. apply vertical_point, Hv.
  - match goal with
    | |- context [if ?c then _ else _] => destruct c
    end; [|discriminate].
    intro H; inversion H; subst. apply vertical_point, Hv.
Qed.

Lemma geom_union_point g h p :
  geom_union g h = GPoint p -> g = GPoint p \/ (g = GEmpty /\ h = GPoint p).
Proof.
  destruct g as [|q|], h as [|q'|]; cbn [geom_union]; intro H;
    try discriminate; auto.
  destruct (peqb q q'); [auto|discriminate].
Qed.

Lemma line_intersection_vertical a1 a2 line p :
  fst a1 == fst a2 ->
  line_intersection a1 a2 line = GPoint p -> fst p == fst a1.
Proof.
  intro Hv. unfold line_intersection.
  induction (pieces line) as [|e t IH]; cbn [fold_right]; [discriminate|].
  intro H. apply geom_union_point in H. destruct H as [H|[_ H]].
  - eapply segment_intersection_vertical; eauto.
  - apply IH, H.
Qed.

(** ** The frame clamp *)

Lemma offsets_centred s :
  centred s ->
  fst (fst (offsets s)) == x s - minx (bounds s) /\
  snd (fst (offsets s)) == y s - miny (bounds s) /\
  fst (snd (offsets s)) == maxx (bounds s) - x s /\
  snd (snd (offsets s)) == maxy (bounds s) - y s.
Proof.
  intros (H1 & H2 & H3 & H4). unfold offsets, pabs, psub, x, y in *.
  cbn [fst snd bnd].
  repeat split.
  - rewrite Qabs_neg; lra.
  - rewrite Qabs_neg; lra.
  - rewrite Qabs_pos; lra.
  - rewrite Qabs_pos; lra.
Qed.

(** ** [detect_collision] *)

Lemma same_body_refl s : same_body s s.
Proof. unfold same_body, peq. repeat split; lra. Qed.

Lemma same_body_restored s m :
  same_body (set_position (translated s m) (psub (_position (translated s m)) m)) s.
Proof.
  unfold same_body, translated, peq.
  cbn [_position set_position _shape prop _centered_path psub padd fst snd].
  repeat split; lra.
Qed.

Ltac run_detect :=
  unfold detect_collision, bind, get, lift, ret, iadd_position, isub_position,
    assign_position.

(** * The claims about the engine *)

Section Claims.

Variable cells : Cells.

(** C1, amended.  When the closest carried sprite [cs] is the only
    candidate and the direction of the motion is not the opposite of any of
    the relative positions computed after the snap, [move] without
    [keep_in_frame] ends with [self] at the snapped position translated by
    [motion], every other sprite being as the snap left it; that position is
    not the snapped one. *)
Theorem C1_toward_branch_adds_motion
    st self motion others d carried cs st1 st2 positions :
  get_motion_direction motion = Ok d ->
  get_carried_sprite self others motion d st = (Ok carried, st1) ->
  carried <> [] ->
  get_closest cells self carried d st1 = (Ok (cs, []), st1) ->
  handle_collision cells self cs d st1 = (Ok tt, st2) ->
  get_relative_positions (st2 self) (st2 cs) = Ok positions ->
  existsb (Direction_eqb d) (map opposite positions) = false ->
  move cells self motion false (Some others) st
    = (Ok tt, upd st2 self (translated (st2 self) motion)) /\
  ~ peq (_position (translated (st2 self) motion)) (_position (st2 self)).
Proof.
  intros Hd Hcar Hne Hclo Hsnap Hpos Hnot. split.
  - rewrite move_unfold_body. unfold move_body.
    rewrite (bind_ok _ _ _ tt (upd st2 self (translated (st2 self) motion)));
      [reflexivity|].
    rewrite (bind_ok _ _ _ d st) by (unfold lift; rewrite Hd; reflexivity).
    rewrite (bind_ok _ _ _ _ _ Hcar).
    destruct carried as [|c0 rest]; [congruence|].
    rewrite (bind_ok _ _ _ _ _ Hclo). cbn [fst snd].
    rewrite (bind_ok _ _ _ _ _ Hsnap).
    rewrite (bind_ok _ _ _ (st2 self) st2) by reflexivity.
    rewrite (bind_ok _ _ _ (st2 cs) st2) by reflexivity.
    rewrite (bind_ok _ _ _ positions st2)
      by (unfold lift; rewrite Hpos; reflexivity).
    rewrite Hnot.
    rewrite (bind_ok _ _ _ tt (upd st2 self (translated (st2 self) motion)))
      by reflexivity.
    reflexivity.
  - unfold translated, peq. cbn [_position set_position padd fst snd].
    intros [H1 H2]. apply (get_motion_direction_nonzero motion d Hd).
    unfold peq, padd. cbn [fst snd]. split; lra.
Qed.

(** C3, amended.  For two distinct sprites, [detect_collision] returns
    the value of the overlap test of the ordered pair of shapes at the
    position of [self] translated by [motion], except for two triangles,
    where it returns that value or [condition2], the test of the heights
    swept by the base of [self]. *)
Theorem C3_detect_collision_predicate st self other motion d :
  self <> other ->
  fst (detect_collision self other motion d st) =
  match _shape (st self), _shape (st other) with
  | triangle, triangle =>
      rbind (overlapping (translated (st self) motion) (st other))
        (fun c =>
           Ok (c || condition2 (translated (st self) motion) (st other)
                      (snd (vert (st self) 1)) (snd (vert (st self) 2))
                      (snd (vert (translated (st self) motion) 1))
                      (snd (vert (translated (st self) motion) 2)) d))
  | _, _ => overlapping (translated (st self) motion) (st other)
  end.
Proof.
  intro Hne. assert (Hne' : other <> self) by auto.
  run_detect. unfold overlapping, translated.
  destruct (_shape (st self)) eqn:Hs, (_shape (st other)) eqn:Ho;
    cbn [_shape set_position _position prop];
    rewrite ?upd_same, ?(upd_other _ _ _ _ Hne');
    cbn [_shape set_position _position prop fst snd];
    rewrite ?Hs, ?Ho; try reflexivity.
  - destruct (triangle_circle _ _ _); reflexivity.
  - destruct (TriTri2D _ _ _); reflexivity.
Qed.

(** C4, amended.  [detect_collision] changes no sprite but [self].  When
    it returns, [self] is the same body as before: its position is
    [p + motion - motion].  When it raises, [self] is untouched if it is a
    circle or a square, and is left translated by [motion] if it is a
    triangle. *)
Theorem C4_detect_collision_exits st self other motion d :
  (forall i, i <> self -> snd (detect_collision self other motion d st) i = st i) /\
  match fst (detect_collision self other motion d st) with
  | Ok _ => same_body (snd (detect_collision self other motion d st) self) (st self)
  | Raise _ =>
      snd (detect_collision self other motion d st) self =
      match _shape (st self) with
      | triangle => translated (st self) motion
      | _ => st self
      end
  end.
Proof.
  run_detect.
  destruct (_shape (st self)) eqn:Hs, (_shape (st other)) eqn:Ho;
    cbn [fst snd]; rewrite ?upd_same;
    repeat match goal with
    | |- context [match ?c with Ok _ => _ | Raise _ => _ end] =>
        match c with
        | circle_circle _ _ _ _ => destruct c
        | square_circle _ _ _ _ => destruct c
        | triangle_circle _ _ _ => destruct c
        | TriTri2D _ _ _ => destruct c
        end
    end; cbn [fst snd]; rewrite ?upd_same;
    (split; [intros i Hi; rewrite ?upd_other by exact Hi; reflexivity|]);
    try apply same_body_refl; try reflexivity; try apply same_body_restored.
Qed.


(** C7.  Scenario A: resolving the first square of side 0.1 at
    (0.50, 0.50) against the second at (0.55, 0.50) in direction "right"
    leaves the second where it is, puts the right edge of the first at the
    left edge of the second minus 1e-5, so that the facing edges are exactly
    1e-5 apart, and keeps its y-coordinate. *)
Theorem C7_scenario_A_right :
  fst (resolve_overlapping cells 0%nat 1%nat right_ scenario_A) = Ok tt /\
  snd (resolve_overlapping cells 0%nat 1%nat right_ scenario_A) 1%nat
    = scenario_A 1%nat /\
  maxx (bounds (snd (resolve_overlapping cells 0%nat 1%nat right_ scenario_A) 0%nat))
    == minx (bounds (scenario_A 1%nat)) - 0.00001 /\
  facing_gap right_
    (bounds (snd (resolve_overlapping cells 0%nat 1%nat right_ scenario_A) 0%nat))
    (bounds (snd (resolve_overlapping cells 0%nat 1%nat right_ scenario_A) 1%nat))
    == 0.00001 /\
  y (snd (resolve_overlapping cells 0%nat 1%nat right_ scenario_A) 0%nat)
    = y (scenario_A 0%nat).
Proof.
  rewrite resolve_overlapping_square_square by reflexivity.
  repeat split; vm_compute; reflexivity.
Qed.

(** C8, amended.  For two distinct circle sprites with the same abscissa
    whose centre-to-centre segment meets the contour of [self] in the single
    point [p1] and the contour of [other] in the single point [p2],
    [handle_collision] with direction "up" leaves [other] and the abscissa
    of [self] as they are and moves [self] vertically by [p2.y - p1.y]: the
    contact point [p1], carried along, lands exactly on [p2], with no gap. *)
Theorem C8_circle_snap_up st self other p1 p2 :
  self <> other ->
  _shape (st self) = circle -> _shape (st other) = circle ->
  x (st self) == x (st other) ->
  meets_at (line_intersection (_position (st self)) (_position (st other))
              (contours (st self))) p1 ->
  meets_at (line_intersection (_position (st self)) (_position (st other))
              (contours (st other))) p2 ->
  exists st',
    handle_collision cells self other up st = (Ok tt, st') /\
    st' other = st other /\
    x (st' self) = x (st self) /\
    y (st' self) == y (st self) + (snd p2 - snd p1) /\
    peq (padd p1 (psub (_position (st' self)) (_position (st self)))) p2.
Proof.
  intros Hne Hs Ho Hx (q1 & H1 & E1) (q2 & H2 & E2).
  rewrite handle_collision_circle_circle by assumption.
  unfold apply_cell, bind, get, lift, assign_position, _handle_circle_circle.
  rewrite H1, H2. cbn [geom_y geom_x rbind].
  eexists. split; [reflexivity|].
  rewrite upd_same, (upd_other _ _ _ _ (not_eq_sym Hne)).
  split; [reflexivity|]. split; [reflexivity|].
  pose proof (line_intersection_vertical _ _ _ _ Hx H1) as V1.
  pose proof (line_intersection_vertical _ _ _ _ Hx H2) as V2.
  unfold peq, padd, psub, add_y, x, y in *.
  cbn [fst snd _position set_position].
  repeat split; lra.
Qed.


End Claims.

(** C9, amended.  For a sprite whose position lies within its own
    bounds: if its bounds lie within the unit square, the frame clamp of
    [move] returns its position; and if it is no wider and no higher than
    the frame, the clamp returns a position between the bottom-left offset
    and one minus the top-right offset, at which its bounds lie within the
    unit square. *)
Theorem C9_frame_clamp s :
  _centered_path s <> [] -> centred s ->
  (in_frame (bounds s) -> peq (keep_in_frame_position s) (_position s)) /\
  (fits s ->
   fst (fst (offsets s)) <= fst (keep_in_frame_position s) /\
   fst (keep_in_frame_position s) <= 1 - fst (snd (offsets s)) /\
   snd (fst (offsets s)) <= snd (keep_in_frame_position s) /\
   snd (keep_in_frame_position s) <= 1 - snd (snd (offsets s)) /\
   in_frame (bounds (set_position s (keep_in_frame_position s)))).
Proof.
  intros Hne Hc.
  destruct (offsets_centred s Hc) as (O1 & O2 & O3 & O4).
  destruct (bounds_set_position s (keep_in_frame_position s) Hne)
    as (B1 & B2 & B3 & B4).
  revert B1 B2 B3 B4.
  unfold keep_in_frame_position, clip, in_frame, fits, peq, centred in *.
  destruct (offsets s) as [[blx bly] [trx try_]]. cbn [fst snd] in *.
  unfold x, y in *.
  intros B1 B2 B3 B4.
  split.
  - intros (F1 & F2 & F3 & F4). split; minmax_cases; lra.
  - intros (W1 & W2).
    repeat split; revert B1 B2 B3 B4; minmax_cases; intros; lra.
Qed.

(** ** Counterexamples to the claims as they are stated *)

(** C1 as stated fails on [slide_store]: the square is snapped to
    (0.374, 0.4061), it is then below the triangle only, so the direction
    "right" is the opposite of none of its relative positions, and [move]
    ends with the square at (0.424, 0.4061), the snapped position plus the
    motion.  It fails on [flank_store] too: the ray of the snapper misses
    the left edge of the triangle, the snap leaves the square at
    (0.56, 0.52), to the right of and above the triangle, and [move] ends
    with the square at (0.61, 0.52). *)
Lemma C1_counterexample :
  get_motion_direction (0.05, 0) = Ok right_ /\
  (forall cells,
    let st1 := snd (get_carried_sprite 0%nat [1%nat] (0.05, 0) right_ slide_store) in
    let st2 := snd (handle_collision cells 0%nat 1%nat right_ st1) in
    let r := move cells 0%nat (0.05, 0) false (Some [1%nat]) slide_store in
    fst (get_carried_sprite 0%nat [1%nat] (0.05, 0) right_ slide_store)
      = Ok [1%nat] /\
    fst (get_closest cells 0%nat [1%nat] right_ st1) = Ok (1%nat, []) /\
    fst (handle_collision cells 0%nat 1%nat right_ st1) = Ok tt /\
    get_relative_positions (st2 0%nat) (st2 1%nat) = Ok [down] /\
    peq (_position (st2 0%nat)) (0.374, 0.4061) /\
    fst r = Ok tt /\
    peq (_position (snd r 0%nat)) (0.424, 0.4061)) /\
  (forall cells,
    let st1 := snd (get_carried_sprite 0%nat [1%nat] (0.05, 0) right_ flank_store) in
    let st2 := snd (handle_collision cells 0%nat 1%nat right_ st1) in
    let r := move cells 0%nat (0.05, 0) false (Some [1%nat]) flank_store in
    fst (get_carried_sprite 0%nat [1%nat] (0.05, 0) right_ flank_store)
      = Ok [1%nat] /\
    fst (get_closest cells 0%nat [1%nat] right_ st1) = Ok (1%nat, []) /\
    fst (handle_collision cells 0%nat 1%nat right_ st1) = Ok tt /\
    get_relative_positions (st2 0%nat) (st2 1%nat) = Ok [right_; up] /\
    peq (_position (st2 0%nat)) (0.56, 0.52) /\
    fst r = Ok tt /\
    peq (_position (snd r 0%nat)) (0.61, 0.52)).
Proof.
  split; [reflexivity|].
  split; intro cells; cbv zeta; repeat split; vm_compute; reflexivity.
Qed.

(** C3 as stated fails on [sweep_store]: moved down by 0.05 the first
    triangle does not overlap the second, and [detect_collision] returns
    true. *)
Lemma C3_counterexample :
  _shape (sweep_store 0%nat) = triangle /\
  _shape (sweep_store 1%nat) = triangle /\
  overlapping (translated (sweep_store 0%nat) (0, -0.05)) (sweep_store 1%nat)
    = Ok false /\
  fst (detect_collision 0%nat 1%nat (0, -0.05) down sweep_store) = Ok true.
Proof. repeat split; vm_compute; reflexivity. Qed.

(** C4 as stated fails on [reshaped_store]: the overlap test of the
    triangle against the circle whose [prop] is [None] raises, and the
    triangle is left at (0.35, 0.3), not at (0.3, 0.3). *)
Lemma C4_counterexample :
  fst (detect_collision 0%nat 1%nat (0.05, 0) right_ reshaped_store)
    = Raise TypeError /\
  peq (_position (snd (detect_collision 0%nat 1%nat (0.05, 0) right_
                         reshaped_store) 0%nat)) (0.35, 0.3) /\
  ~ peq (_position (snd (detect_collision 0%nat 1%nat (0.05, 0) right_
                           reshaped_store) 0%nat))
        (_position (reshaped_store 0%nat)).
Proof.
  split; [vm_compute; reflexivity|]. split; [split; vm_compute; reflexivity|].
  intros [H _]. vm_compute in H. discriminate H.
Qed.


(** C8 as stated fails on [scenario_B]: the segment between the coincident
    centres is a single point, which is on neither contour, so the
    intersection is empty, [handle_collision] raises and the mover stays
    where it is. *)
Lemma C8_counterexample :
  scenario_B 0%nat = circle_sprite 0.3 0.3 0.05 /\
  scenario_B 1%nat = circle_sprite 0.3 0.3 0.05 /\
  line_intersection (0.3, 0.3) (0.3, 0.3) (contours (scenario_B 0%nat)) = GEmpty /\
  forall cells,
    fst (handle_collision cells 0%nat 1%nat up scenario_B) = Raise AttributeError /\
    snd (handle_collision cells 0%nat 1%nat up scenario_B) 0%nat
      = scenario_B 0%nat.
Proof.
  split; [reflexivity|]. split; [reflexivity|].
  split; [vm_compute; reflexivity|].
  intro cells. rewrite handle_collision_circle_circle by reflexivity.
  split; vm_compute; reflexivity.
Qed.

(** C9 as stated fails on [oversized]: the triangle is wider than the
    frame, the clamp puts it at x = 0.3921, below the bottom-left offset
    0.6079, and its bounds reach outside the frame. *)
Lemma C9_counterexample :
  centred oversized /\
  fst (keep_in_frame_position oversized) < fst (fst (offsets oversized)) /\
  minx (bounds (set_position oversized (keep_in_frame_position oversized))) < 0.
Proof. unfold centred. repeat split; qcompute. Qed.


(** ** The theorems at concrete inputs *)

Lemma C1_witness :
  get_motion_direction (0.05, 0) = Ok right_ /\
  forall cells,
    let st1 := snd (get_carried_sprite 0%nat [1%nat] (0.05, 0) right_ slide_store) in
    let st2 := snd (handle_collision cells 0%nat 1%nat right_ st1) in
    move cells 0%nat (0.05, 0) false (Some [1%nat]) slide_store
      = (Ok tt, upd st2 0%nat (translated (st2 0%nat) (0.05, 0))) /\
    ~ peq (_position (translated (st2 0%nat) (0.05, 0))) (_position (st2 0%nat)).
Proof.
  split; [reflexivity|]. intro cells. cbv zeta.
  apply (C1_toward_branch_adds_motion cells slide_store 0%nat (0.05, 0)
           [1%nat] right_ [1%nat] 1%nat
           (snd (get_carried_sprite 0%nat [1%nat] (0.05, 0) right_ slide_store))
           (snd (handle_collision cells 0%nat 1%nat right_
                   (snd (get_carried_sprite 0%nat [1%nat] (0.05, 0) right_
                           slide_store))))
           [down]).
  - reflexivity.
  - vm_compute. reflexivity.
  - discriminate.
  - vm_compute. reflexivity.
  - vm_compute. reflexivity.
  - vm_compute. reflexivity.
  - reflexivity.
Defined.

Lemma C3_witness :
  (0 <> 1)%nat /\
  fst (detect_collision 0%nat 1%nat (0.01, 0) right_ scenario_A)
    = overlapping (translated (scenario_A 0%nat) (0.01, 0)) (scenario_A 1%nat).
Proof.
  split; [lia|].
  apply (C3_detect_collision_predicate scenario_A 0%nat 1%nat (0.01, 0) right_).
  lia.
Defined.


Lemma C8_witness :
  (0 <> 1)%nat /\
  forall cells,
  exists st',
    handle_collision cells 0%nat 1%nat up below_store = (Ok tt, st') /\
    st' 1%nat = below_store 1%nat /\
    x (st' 0%nat) = x (below_store 0%nat) /\
    y (st' 0%nat) == y (below_store 0%nat) + (snd (0.3, 0.25) - snd (0.3, 0.15)) /\
    peq (padd (0.3, 0.15)
           (psub (_position (st' 0%nat)) (_position (below_store 0%nat))))
        (0.3, 0.25).
Proof.
  split; [lia|]. intro cells.
  apply (C8_circle_snap_up cells below_store 0%nat 1%nat (0.3, 0.15) (0.3, 0.25)).
  - lia.
  - reflexivity.
  - reflexivity.
  - reflexivity.
  - eexists. split; [vm_compute; reflexivity|]. split; vm_compute; reflexivity.
  - eexists. split; [vm_compute; reflexivity|]. split; vm_compute; reflexivity.
Defined.

Lemma C9_witness :
  _centered_path (square_sprite 0.95 0.5 0.2) <> [] /\
  centred (square_sprite 0.95 0.5 0.2) /\
  centred (square_sprite 0.5 0.5 0.1) /\
  in_frame (bounds (square_sprite 0.5 0.5 0.1)) /\
  fits (square_sprite 0.95 0.5 0.2) /\
  peq (keep_in_frame_position (square_sprite 0.5 0.5 0.1)) (0.5, 0.5) /\
  in_frame (bounds (set_position (square_sprite 0.95 0.5 0.2)
                      (keep_in_frame_position (square_sprite 0.95 0.5 0.2)))).
Proof.
  assert (N1 : _centered_path (square_sprite 0.95 0.5 0.2) <> []) by discriminate.
  assert (N2 : _centered_path (square_sprite 0.5 0.5 0.1) <> []) by discriminate.
  assert (C1 : centred (square_sprite 0.95 0.5 0.2))
    by (unfold centred; repeat split; qcompute).
  assert (C2 : centred (square_sprite 0.5 0.5 0.1))
    by (unfold centred; repeat split; qcompute).
  assert (F1 : in_frame (bounds (square_sprite 0.5 0.5 0.1)))
    by (unfold in_frame; repeat split; qcompute).
  assert (F2 : fits (square_sprite 0.95 0.5 0.2))
    by (unfold fits; repeat split; qcompute).
  repeat (split; [assumption|]). split.
  - apply (C9_frame_clamp (square_sprite 0.5 0.5 0.1) N2 C2). exact F1.
  - apply (C9_frame_clamp (square_sprite 0.95 0.5 0.2) N1 C1). exact F2.
Defined.


(** * Properties of the pose setters *)

Section GeometryFacts.

Import Geometry.
Local Open Scope R_scope.

Variable SHAPES : Shape -> list Geometry.point.

Lemma rotate_deg_add a b p : rotate_deg a (rotate_deg b p) = rotate_deg (a + b) p.
Proof.
  unfold rotate_deg. cbn [fst snd].
  replace ((a + b) * PI / 180) with (a * PI / 180 + b * PI / 180) by lra.
  rewrite cos_plus, sin_plus. f_equal; ring.
Qed.

Lemma rotate_deg_0 p : rotate_deg 0 p = p.
Proof.
  unfold rotate_deg. replace (0 * PI / 180) with 0 by lra.
  rewrite cos_0, sin_0. destruct p. cbn [fst snd]. f_equal; ring.
Qed.

Lemma rotate_deg_scale a k p : rotate_deg a (scale k p) = scale k (rotate_deg a p).
Proof. unfold rotate_deg, scale. cbn [fst snd]. f_equal; ring. Qed.

Lemma rotate_deg_inj a p q : rotate_deg a p = rotate_deg a q -> p = q.
Proof.
  intro H.
  assert (E : rotate_deg (- a) (rotate_deg a p) = rotate_deg (- a) (rotate_deg a q))
    by (rewrite H; reflexivity).
  rewrite !rotate_deg_add in E. replace (- a + a) with 0 in E by lra.
  rewrite !rotate_deg_0 in E. exact E.
Qed.

Lemma map_translate_inj d l1 l2 :
  map (translate d) l1 = map (translate d) l2 -> l1 = l2.
Proof.
  revert l2. induction l1 as [|a t IH]; intros [|b u] H; try discriminate; auto.
  cbn [map] in H.
  pose proof (f_equal (hd a) H) as Ha. pose proof (f_equal (@tl _) H) as Ht.
  cbn [hd tl] in Ha, Ht. f_equal; auto.
  destruct a, b. unfold translate in Ha. cbn [fst snd] in Ha.
  inversion Ha. f_equal; lra.
Qed.

(** Consistency, read on the cached path. *)
Lemma consistent_path s :
  consistent SHAPES s <->
  _centered_path s =
  map (fun v => rotate_deg (_angle s) (scale (_scale s) v)) (SHAPES (_shape s)).
Proof.
  unfold consistent, vertices, posed, transform_path. split; intro H.
  - apply (map_translate_inj (_position s)). rewrite H, map_map. reflexivity.
  - rewrite H, map_map. reflexivity.
Qed.

Lemma init_consistent x y sh a k :
  consistent SHAPES (Sprite_init SHAPES x y sh a k).
Proof.
  apply consistent_path.
  unfold Sprite_init, _geometrical_properties, AbstractSprite_init,
    _reset_centered_path, transform_path.
  cbn [_shape]. destruct sh; reflexivity.
Qed.

(** The [shape] setter rebuilds the path from the stored scale and angle. *)
Lemma set_shape_consistent s sh : consistent SHAPES (set_shape SHAPES s sh).
Proof. apply consistent_path. reflexivity. Qed.

(** The [angle] setter composes rotations, which add up. *)
Lemma set_angle_consistent s a :
  consistent SHAPES s -> consistent SHAPES (set_angle s a).
Proof.
  rewrite !consistent_path. intro H. unfold set_angle, transform_path.
  cbn [_position _centered_path _shape _angle _scale]. rewrite H, map_map.
  apply map_ext. intro v. rewrite rotate_deg_add. f_equal. lra.
Qed.

(** What the [scale] setter leaves in the cache: the canonical path scaled
    by [(k - _scale s) * _scale s], not by [k]. *)
Lemma set_scale_path s k :
  consistent SHAPES s ->
  _centered_path (set_scale s k) =
  map (fun v => rotate_deg (_angle s) (scale ((k - _scale s) * _scale s) v))
      (SHAPES (_shape s)).
Proof.
  rewrite consistent_path. intro H. unfold set_scale, transform_path.
  cbn [_centered_path]. rewrite H, map_map. apply map_ext. intro v.
  rewrite <- rotate_deg_scale. f_equal. unfold scale. cbn [fst snd].
  f_equal; ring.
Qed.

(** The [scale] setter breaks consistency whenever the product of the
    difference and the old scale is not the new scale. *)
Lemma set_scale_stale s k v :
  consistent SHAPES s ->
  In v (SHAPES (_shape s)) -> v <> (0, 0) ->
  (k - _scale s) * _scale s <> k ->
  ~ consistent SHAPES (set_scale s k).
Proof.
  intros Hc Hin Hv Hk Hbad.
  apply consistent_path in Hbad. rewrite (set_scale_path s k Hc) in Hbad.
  cbn [_angle _scale _shape set_scale] in Hbad.
  assert (E : forall l, In v l ->
            map (fun v => rotate_deg (_angle s)
                            (scale ((k - _scale s) * _scale s) v)) l
            = map (fun v => rotate_deg (_angle s) (scale k v)) l ->
            scale ((k - _scale s) * _scale s) v = scale k v).
  { induction l as [|a t IH]; intros Hi Hm; [contradiction|].
    cbn [map] in Hm.
    pose proof (f_equal (hd v) Hm) as Ha. pose proof (f_equal (@tl _) Hm) as Ht.
    cbn [hd tl] in Ha, Ht. destruct Hi as [->|Hi].
    - apply (rotate_deg_inj (_angle s)). exact Ha.
    - apply IH; assumption. }
  specialize (E _ Hin Hbad). apply Hv. destruct v as [vx vy].
  unfold scale in E. cbn [fst snd] in E. inversion E.
  assert (F1 : ((k - _scale s) * _scale s - k) * vx = 0) by lra.
  assert (F2 : ((k - _scale s) * _scale s - k) * vy = 0) by lra.
  apply Rmult_integral in F1. apply Rmult_integral in F2.
  destruct F1 as [F1|F1]; [exfalso; apply Hk; lra|].
  destruct F2 as [F2|F2]; [exfalso; apply Hk; lra|].
  subst. reflexivity.
Qed.

(** C2, the code at the failing input.  A square built with scale
    0.1 is consistent; after [scale = 0.2] the stored scale is 0.2, the
    vertices are the canonical ones scaled by 0.01 about (0.5, 0.5), and the
    stored pose describes them scaled by 0.2: the two differ as soon as the
    canonical square has a vertex other than the origin. *)
Theorem C2_scale_setter_failing_input :
  consistent SHAPES (Sprite_init SHAPES 0.5 0.5 square 0 0.1) /\
  _scale (set_scale (Sprite_init SHAPES 0.5 0.5 square 0 0.1) 0.2) = 0.2 /\
  vertices (set_scale (Sprite_init SHAPES 0.5 0.5 square 0 0.1) 0.2)
    = map (fun v => (0.01 * fst v + 0.5, 0.01 * snd v + 0.5)) (SHAPES square) /\
  posed SHAPES (set_scale (Sprite_init SHAPES 0.5 0.5 square 0 0.1) 0.2)
    = map (fun v => (0.2 * fst v + 0.5, 0.2 * snd v + 0.5)) (SHAPES square) /\
  (forall v, In v (SHAPES square) -> v <> (0, 0) ->
     ~ consistent SHAPES (set_scale (Sprite_init SHAPES 0.5 0.5 square 0 0.1) 0.2)).
Proof.
  split; [apply init_consistent|]. split; [reflexivity|].
  split; [|split].
  - unfold vertices, transform_path.
    rewrite (set_scale_path _ _ (init_consistent 0.5 0.5 square 0 0.1)).
    rewrite map_map. apply map_ext. intros [vx vy].
    cbn [_angle _scale _position Sprite_init _geometrical_properties
         AbstractSprite_init _reset_centered_path _shape set_scale].
    rewrite rotate_deg_0. unfold translate, scale. cbn [fst snd].
    f_equal; lra.
  - unfold posed.
    cbn [_angle _scale _position Sprite_init _geometrical_properties
         AbstractSprite_init _reset_centered_path _shape set_scale].
    apply map_ext. intros [vx vy]. rewrite rotate_deg_0.
    unfold translate, scale. cbn [fst snd]. reflexivity.
  - intros v Hin Hv.
    apply (set_scale_stale _ _ v (init_consistent 0.5 0.5 square 0 0.1)).
    + exact Hin.
    + exact Hv.
    + cbn [_scale Sprite_init _geometrical_properties AbstractSprite_init
           _reset_centered_path _shape]. lra.
Qed.

(** C5, amended.  [prop] is computed at construction from the area of the
    polygon, and no setter assigns it: after the [shape], [scale] or [angle]
    setter it is what it was before. *)
Theorem C5_prop_set_at_construction x y sh a k :
  prop_consistent (Sprite_init SHAPES x y sh a k) /\
  (forall s sh', prop (set_shape SHAPES s sh') = prop s) /\
  (forall s k', prop (set_scale s k') = prop s) /\
  (forall s a', prop (set_angle s a') = prop s).
Proof.
  split; [|repeat split].
  unfold prop_consistent, Sprite_init, _geometrical_properties.
  destruct sh; cbn [_shape AbstractSprite_init _reset_centered_path prop];
    try reflexivity; exact I.
Qed.

End GeometryFacts.

(** C5 as stated fails for a sprite built as a triangle and made a circle
    through the [shape] setter: [prop] is still [None], which is not the
    radius of the current polygon. *)
Lemma C5_counterexample :
  (forall SHAPES,
     Geometry.prop
       (Geometry.set_shape SHAPES
          (Geometry.Sprite_init SHAPES 0.5 0.5 triangle 0 0.1) circle) = None) /\
  (forall SHAPES,
     ~ Geometry.prop_consistent
         (Geometry.set_shape SHAPES
            (Geometry.Sprite_init SHAPES 0.5 0.5 triangle 0 0.1) circle)).
Proof.
  split; intro SHAPES; [reflexivity|].
  unfold Geometry.prop_consistent. cbn. discriminate.
Qed.

(** * Further properties of the engine *)

Lemma Qle_bool_compat a a' b b' : a == a' -> b == b' -> Qle_bool a b = Qle_bool a' b'.
Proof.
  intros Ea Eb. destruct (Qle_bool a b) eqn:E1, (Qle_bool a' b') eqn:E2; auto.
  - apply Qle_bool_iff in E1. apply Qleb_gt in E2. lra.
  - apply Qle_bool_iff in E2. apply Qleb_gt in E1. lra.
Qed.


Lemma Qltb_irrefl_eq a b : a == b -> (a <? b) = false /\ (b <? a) = false.
Proof. intro H. split; apply Qltb_ge; lra. Qed.

Lemma Qeq_bool_false a b : (a =? b) = false <-> ~ a == b.
Proof.
  split.
  - intros H E. apply Qeq_bool_iff in E. congruence.
  - intro H. destruct (a =? b) eqn:E; auto. apply Qeq_bool_iff in E. contradiction.
Qed.

(** Turns a decided comparison into the order it decides. *)
Ltac order H :=
  first [apply Qltb_lt in H | apply Qltb_ge in H
        | apply Qle_bool_iff in H | apply Qleb_gt in H].

(** ** What the clipping loop decides *)

Lemma inside_peq p q b : peq p q -> inside p b -> inside q b.
Proof. unfold peq, inside. intros [E1 E2] H. rewrite <- E1, <- E2. exact H. Qed.

Lemma along_fst a1 a2 t : fst (along a1 a2 t) == fst a1 + t * (fst a2 - fst a1).
Proof. unfold along, padd, pscale, psub. cbn [fst snd]. reflexivity. Qed.

Lemma along_snd a1 a2 t : snd (along a1 a2 t) == snd a1 + t * (snd a2 - snd a1).
Proof. unfold along, padd, pscale, psub. cbn [fst snd]. reflexivity. Qed.

Lemma meets_box_sym a1 a2 b : meets_box a1 a2 b -> meets_box a2 a1 b.
Proof.
  intros (t & T0 & T1 & H). exists (1 - t). split; [lra|]. split; [lra|].
  apply (inside_peq (along a1 a2 t)); [|exact H].
  split; rewrite ?along_fst, ?along_snd; ring.
Qed.

(** Cutting a segment at the parameter [s] keeps its meeting with the box
    when no point before [s] is in the box. *)
Lemma cut_first a1 a2 n b s :
  0 <= s -> s <= 1 -> peq n (along a1 a2 s) ->
  (forall t, 0 <= t -> t < s -> ~ inside (along a1 a2 t) b) ->
  (meets_box n a2 b <-> meets_box a1 a2 b).
Proof.
  intros S0 S1 [Nx Ny] Hout. rewrite along_fst in Nx. rewrite along_snd in Ny.
  split.
  - intros (t & T0 & T1 & H). exists (s + t * (1 - s)).
    split; [nra|]. split; [nra|].
    apply (inside_peq (along n a2 t)); [|exact H].
    split; rewrite ?along_fst, ?along_snd; [rewrite Nx|rewrite Ny]; ring.
  - intros (t & T0 & T1 & H).
    destruct (Qlt_le_dec t s) as [L|L]; [exfalso; exact (Hout t T0 L H)|].
    destruct (Qeq_dec s 1) as [E|E].
    + exists 1. split; [lra|]. split; [lra|].
      apply (inside_peq (along a1 a2 t)); [|exact H].
      assert (Et : t == 1) by lra.
      split; rewrite ?along_fst, ?along_snd, Et; ring.
    + assert (D : ~ 1 - s == 0) by (intro; apply E; lra).
      set (u := (t - s) / (1 - s)).
      assert (Eu : u * (1 - s) == t - s) by (unfold u; field; exact D).
      exists u. split; [nra|]. split; [nra|].
      apply (inside_peq (along a1 a2 t)); [|exact H].
      split; rewrite ?along_fst, ?along_snd; [rewrite Nx|rewrite Ny].
      * transitivity (fst a1 + s * (fst a2 - fst a1)
                      + u * (1 - s) * (fst a2 - fst a1)); [rewrite Eu|]; ring.
      * transitivity (snd a1 + s * (snd a2 - snd a1)
                      + u * (1 - s) * (snd a2 - snd a1)); [rewrite Eu|]; ring.
Qed.

Lemma cut_second a1 a2 n b s :
  0 <= s -> s <= 1 -> peq n (along a1 a2 s) ->
  (forall t, t <= 1 -> s < t -> ~ inside (along a1 a2 t) b) ->
  (meets_box a1 n b <-> meets_box a1 a2 b).
Proof.
  intros S0 S1 [Nx Ny] Hout. rewrite along_fst in Nx. rewrite along_snd in Ny.
  assert (C : meets_box n a1 b <-> meets_box a2 a1 b).
  { apply (cut_first a2 a1 n b (1 - s)); [lra|lra| |].
    - split; rewrite ?along_fst, ?along_snd; [rewrite Nx|rewrite Ny]; ring.
    - intros t T0 T1 H. apply (Hout (1 - t)); [lra|lra|].
      apply (inside_peq (along a2 a1 t)); [|exact H].
      split; rewrite ?along_fst, ?along_snd; ring. }
  split; intro H; apply meets_box_sym; apply C; apply meets_box_sym; exact H.
Qed.

(** The clipped point on a horizontal or vertical line of the box, as the
    program computes it, is the point of the segment at a parameter [s]. *)
Lemma level_y x1 y1 x2 y2 c :
  ~ y1 == y2 ->
  exists s, s * (y2 - y1) == c - y1 /\
    peq (x1 + (x2 - x1) * (c - y1) / (y2 - y1), c) (along (x1, y1) (x2, y2) s).
Proof.
  intro Hne. assert (D : ~ y2 - y1 == 0) by (intro; apply Hne; lra).
  exists ((c - y1) / (y2 - y1)). split; [field; exact D|].
  split; rewrite ?along_fst, ?along_snd; cbn [fst snd]; field; exact D.
Qed.

Lemma level_x x1 y1 x2 y2 c :
  ~ x1 == x2 ->
  exists s, s * (x2 - x1) == c - x1 /\
    peq (c, y1 + (y2 - y1) * (c - x1) / (x2 - x1)) (along (x1, y1) (x2, y2) s).
Proof.
  intro Hne. assert (D : ~ x2 - x1 == 0) by (intro; apply Hne; lra).
  exists ((c - x1) / (x2 - x1)). split; [field; exact D|].
  split; rewrite ?along_fst, ?along_snd; cbn [fst snd]; field; exact D.
Qed.

(** Closes the side conditions of a cut: the parameter is in [0, 1] and the
    points beyond it are on the outer side of the line. *)
Ltac beyond :=
  match goal with
  | |- _ <= _ => nra
  | |- forall t, _ =>
      let t := fresh "t" in
      let H := fresh "H" in
      intros t ? ? H; unfold inside in H;
      rewrite ?along_fst, ?along_snd in H; cbn [fst snd] in H; nra
  end.

Section Cuts.

Variables (b : Bounds) (x1 y1 x2 y2 : Q).
Hypothesis W : wf_bounds b.

Lemma cut_top_first :
  fT y1 b = true -> fT y2 b = false ->
  (meets_box (x1 + (x2 - x1) * (maxy b - y1) / (y2 - y1), maxy b) (x2, y2) b
   <-> meets_box (x1, y1) (x2, y2) b).
Proof.
  intros A B. apply fT_elim in A. apply (fT_false _ _ W) in B.
  destruct (level_y x1 y1 x2 y2 (maxy b)) as (s & Es & En); [lra|].
  apply (cut_first _ _ _ _ s); [beyond|beyond|exact En|beyond].
Qed.

Lemma cut_top_second :
  fT y2 b = true -> fT y1 b = false ->
  (meets_box (x1, y1) (x1 + (x2 - x1) * (maxy b - y1) / (y2 - y1), maxy b) b
   <-> meets_box (x1, y1) (x2, y2) b).
Proof.
  intros A B. apply fT_elim in A. apply (fT_false _ _ W) in B.
  destruct (level_y x1 y1 x2 y2 (maxy b)) as (s & Es & En); [lra|].
  apply (cut_second _ _ _ _ s); [beyond|beyond|exact En|beyond].
Qed.

Lemma cut_bottom_first :
  fB y1 b = true -> fB y2 b = false ->
  (meets_box (x1 + (x2 - x1) * (miny b - y1) / (y2 - y1), miny b) (x2, y2) b
   <-> meets_box (x1, y1) (x2, y2) b).
Proof.
  intros A B. apply fB_elim in A. apply fB_false in B.
  destruct (level_y x1 y1 x2 y2 (miny b)) as (s & Es & En); [lra|].
  apply (cut_first _ _ _ _ s); [beyond|beyond|exact En|beyond].
Qed.

Lemma cut_bottom_second :
  fB y2 b = true -> fB y1 b = false ->
  (meets_box (x1, y1) (x1 + (x2 - x1) * (miny b - y1) / (y2 - y1), miny b) b
   <-> meets_box (x1, y1) (x2, y2) b).
Proof.
  intros A B. apply fB_elim in A. apply fB_false in B.
  destruct (level_y x1 y1 x2 y2 (miny b)) as (s & Es & En); [lra|].
  apply (cut_second _ _ _ _ s); [beyond|beyond|exact En|beyond].
Qed.

Lemma cut_right_first :
  fR x1 b = true -> fR x2 b = false ->
  (meets_box (maxx b, y1 + (y2 - y1) * (maxx b - x1) / (x2 - x1)) (x2, y2) b
   <-> meets_box (x1, y1) (x2, y2) b).
Proof.
  intros A B. apply fR_elim in A. apply (fR_false _ _ W) in B.
  destruct (level_x x1 y1 x2 y2 (maxx b)) as (s & Es & En); [lra|].
  apply (cut_first _ _ _ _ s); [beyond|beyond|exact En|beyond].
Qed.

Lemma cut_right_second :
  fR x2 b = true -> fR x1 b = false ->
  (meets_box (x1, y1) (maxx b, y1 + (y2 - y1) * (maxx b - x1) / (x2 - x1)) b
   <-> meets_box (x1, y1) (x2, y2) b).
Proof.
  intros A B. apply fR_elim in A. apply (fR_false _ _ W) in B.
  destruct (level_x x1 y1 x2 y2 (maxx b)) as (s & Es & En); [lra|].
  apply (cut_second _ _ _ _ s); [beyond|beyond|exact En|beyond].
Qed.

Lemma cut_left_first :
  fL x1 b = true -> fL x2 b = false ->
  (meets_box (minx b, y1 + (y2 - y1) * (minx b - x1) / (x2 - x1)) (x2, y2) b
   <-> meets_box (x1, y1) (x2, y2) b).
Proof.
  intros A B. apply fL_elim in A. apply fL_false in B.
  destruct (level_x x1 y1 x2 y2 (minx b)) as (s & Es & En); [lra|].
  apply (cut_first _ _ _ _ s); [beyond|beyond|exact En|beyond].
Qed.

Lemma cut_left_second :
  fL x2 b = true -> fL x1 b = false ->
  (meets_box (x1, y1) (minx b, y1 + (y2 - y1) * (minx b - x1) / (x2 - x1)) b
   <-> meets_box (x1, y1) (x2, y2) b).
Proof.
  intros A B. apply fL_elim in A. apply fL_false in B.
  destruct (level_x x1 y1 x2 y2 (minx b)) as (s & Es & En); [lra|].
  apply (cut_second _ _ _ _ s); [beyond|beyond|exact En|beyond].
Qed.

End Cuts.

Lemma convex_lt a b m t : a < m -> b < m -> 0 <= t -> t <= 1 -> a + t * (b - a) < m.
Proof. intros. destruct (Qlt_le_dec a b); nra. Qed.

Lemma convex_gt a b m t : m < a -> m < b -> 0 <= t -> t <= 1 -> m < a + t * (b - a).
Proof. intros. destruct (Qlt_le_dec a b); nra. Qed.

(** A pass that clips keeps the meeting of the segment with the box. *)
Lemma clipStep_meets x1 y1 x2 y2 b x1' y1' x2' y2' c1' c2' :
  wf_bounds b ->
  clipStep x1 y1 x2 y2 (computeCode x1 y1 b) (computeCode x2 y2 b) b
    = inr (x1', y1', x2', y2', c1', c2') ->
  (meets_box (x1', y1') (x2', y2') b <-> meets_box (x1, y1) (x2, y2) b).
Proof.
  intros W. unfold clipStep.
  destruct (has_flags x1 y1 b) as (T1 & B1 & R1 & L1).
  destruct (has_flags x2 y2 b) as (T2 & B2 & R2 & L2).
  pose proof (codes_share x1 y1 x2 y2 b) as Sh.
  pose proof (code_zero x1 y1 b) as Z1. pose proof (code_zero x2 y2 b) as Z2.
  destruct (computeCode x1 y1 b =? 0)%Z eqn:E1.
  - destruct (computeCode x2 y2 b =? 0)%Z eqn:E2; [discriminate|]. cbn [andb negb].
    destruct (negb (Z.land (computeCode x1 y1 b) (computeCode x2 y2 b) =? 0)%Z);
      [discriminate|].
    apply Z.eqb_eq in E1. rewrite E1 at 1. rewrite E1 in *. rewrite E2.
    symmetry in Z1. repeat rewrite andb_true_iff in Z1. rewrite !negb_true_iff in Z1.
    destruct Z1 as [[[F1 F2] F3] F4].
    rewrite T2, B2, R2, L2.
    destruct (fT y2 b) eqn:G1; [|destruct (fB y2 b) eqn:G2;
      [|destruct (fR x2 b) eqn:G3; [|destruct (fL x2 b) eqn:G4]]];
      try (cbn in Z2; discriminate);
      cbn [fst snd]; intro H; inversion H; subst; clear H.
    + apply cut_top_second; auto.
    + apply cut_bottom_second; auto.
    + apply cut_right_second; auto.
    + apply cut_left_second; auto.
  - cbn [andb negb]. rewrite Z.eqb_refl.
    destruct (negb (Z.land (computeCode x1 y1 b) (computeCode x2 y2 b) =? 0)%Z);
      [discriminate|].
    symmetry in Sh. repeat rewrite orb_false_iff in Sh.
    destruct Sh as [[[S1 S2] S3] S4].
    rewrite T1, B1, R1, L1.
    destruct (fT y1 b) eqn:G1; [|destruct (fB y1 b) eqn:G2;
      [|destruct (fR x1 b) eqn:G3; [|destruct (fL x1 b) eqn:G4]]];
      try (cbn in Z1; discriminate);
      cbn [fst snd]; intro H; inversion H; subst; clear H.
    + apply cut_top_first; auto.
    + apply cut_bottom_first; auto.
    + apply cut_right_first; auto.
    + apply cut_left_first; auto.
Qed.

(** When the loop exits at once: both ends in the box, or both ends on the
    outer side of one line of the box. *)
Lemma clipStep_exit x1 y1 x2 y2 b accept :
  wf_bounds b ->
  clipStep x1 y1 x2 y2 (computeCode x1 y1 b) (computeCode x2 y2 b) b = inl accept ->
  (accept = true <-> meets_box (x1, y1) (x2, y2) b).
Proof.
  intros W. unfold clipStep.
  pose proof (codes_share x1 y1 x2 y2 b) as Sh.
  pose proof (code_zero x1 y1 b) as Z1. pose proof (code_zero x2 y2 b) as Z2.
  destruct ((computeCode x1 y1 b =? 0)%Z && (computeCode x2 y2 b =? 0)%Z)%bool eqn:E.
  - intro H. inversion H; subst. split; [intros _|reflexivity].
    apply andb_true_iff in E. destruct E as [E1 _]. rewrite E1 in Z1.
    symmetry in Z1. repeat rewrite andb_true_iff in Z1. rewrite !negb_true_iff in Z1.
    destruct Z1 as [[[F1 F2] F3] F4].
    apply fL_false in F1. apply (fR_false _ _ W) in F2.
    apply fB_false in F3. apply (fT_false _ _ W) in F4.
    exists 0. split; [lra|]. split; [lra|].
    unfold inside. rewrite along_fst, along_snd. cbn [fst snd]. lra.
  - destruct (negb (Z.land (computeCode x1 y1 b) (computeCode x2 y2 b) =? 0)%Z) eqn:E';
      [|destruct (negb (computeCode x1 y1 b =? 0)%Z);
        destruct (_ =? computeCode x1 y1 b)%Z; discriminate].
    intro H. inversion H; subst. split; [discriminate|].
    intros (t & T0 & T1 & I). exfalso.
    unfold inside in I. rewrite along_fst, along_snd in I. cbn [fst snd] in I.
    symmetry in Sh. repeat rewrite orb_true_iff in Sh. rewrite !andb_true_iff in Sh.
    destruct Sh as [[[[A B]|[A B]]|[A B]]|[A B]].
    + apply fL_elim in A, B. pose proof (convex_lt _ _ _ t A B T0 T1). lra.
    + apply fR_elim in A, B. pose proof (convex_gt _ _ _ t A B T0 T1). lra.
    + apply fB_elim in A, B. pose proof (convex_lt _ _ _ t A B T0 T1). lra.
    + apply fT_elim in A, B. pose proof (convex_gt _ _ _ t A B T0 T1). lra.
Qed.

Lemma clipLoop_meets b : wf_bounds b ->
  forall n x1 y1 x2 y2 accept,
    clipLoop n x1 y1 x2 y2 (computeCode x1 y1 b) (computeCode x2 y2 b) b = Some accept ->
    (accept = true <-> meets_box (x1, y1) (x2, y2) b).
Proof.
  intros W. induction n as [|n IH]; intros x1 y1 x2 y2 accept H; [discriminate|].
  cbn [clipLoop] in H.
  destruct (clipStep x1 y1 x2 y2 (computeCode x1 y1 b) (computeCode x2 y2 b) b)
    as [a|[[[[[x1' y1'] x2'] y2'] c1'] c2']] eqn:E.
  - inversion H; subst. apply (clipStep_exit _ _ _ _ _ _ W E).
  - destruct (clipStep_progress _ _ _ _ _ _ _ _ _ _ _ W E) as (-> & -> & _).
    rewrite <- (clipStep_meets _ _ _ _ _ _ _ _ _ _ _ W E). apply (IH _ _ _ _ _ H).
Qed.

(** More passes than the loop needs change nothing. *)
Lemma clipLoop_more b n x1 y1 x2 y2 c1 c2 accept :
  clipLoop n x1 y1 x2 y2 c1 c2 b = Some accept ->
  forall m, (n <= m)%nat -> clipLoop m x1 y1 x2 y2 c1 c2 b = Some accept.
Proof.
  revert x1 y1 x2 y2 c1 c2. induction n as [|n IH]; intros x1 y1 x2 y2 c1 c2 H m L;
    [discriminate|].
  destruct m as [|m]; [lia|]. cbn [clipLoop] in *.
  destruct (clipStep x1 y1 x2 y2 c1 c2 b)
    as [a|[[[[[x1' y1'] x2'] y2'] c1'] c2']]; [exact H|].
  apply IH; [exact H|lia].
Qed.

Lemma pair_eta (p : point) : (fst p, snd p) = p.
Proof. destruct p; reflexivity. Qed.

Lemma clip_meets a1 a2 b :
  wf_bounds b ->
  (cohenSutherlandClip (fst a1) (snd a1) (fst a2) (snd a2) b = true
   <-> meets_box a1 a2 b).
Proof.
  intro W. destruct (clipLoop_exits (fst a1) (snd a1) (fst a2) (snd a2) b W) as [accept E].
  unfold cohenSutherlandClip. rewrite E.
  rewrite (clipLoop_meets b W _ _ _ _ _ _ E), !pair_eta. reflexivity.
Qed.

(** X1.  For bounds with [minx <= maxx] and [miny <= maxy], the [while True]
    loop of [cohenSutherlandClip] exits within five passes: any number of
    passes from five on gives the answer the function returns. *)
Theorem X1_clip_loop_exits x1 y1 x2 y2 b n :
  wf_bounds b -> (5 <= n)%nat ->
  clipLoop n x1 y1 x2 y2 (computeCode x1 y1 b) (computeCode x2 y2 b) b
  = Some (cohenSutherlandClip x1 y1 x2 y2 b).
Proof.
  intros W L. destruct (clipLoop_exits x1 y1 x2 y2 b W) as [accept E].
  unfold cohenSutherlandClip. rewrite E.
  apply (clipLoop_more _ _ _ _ _ _ _ _ _ E n L).
Qed.

Lemma X1_witness :
  wf_bounds (mkBounds 0 0 1 1) /\ (5 <= 9)%nat /\
  clipLoop 9 (-1) (-1) 2 3 (computeCode (-1) (-1) (mkBounds 0 0 1 1))
    (computeCode 2 3 (mkBounds 0 0 1 1)) (mkBounds 0 0 1 1)
  = Some (cohenSutherlandClip (-1) (-1) 2 3 (mkBounds 0 0 1 1)).
Proof.
  assert (W : wf_bounds (mkBounds 0 0 1 1)) by (unfold wf_bounds; cbn; lra).
  assert (L : (5 <= 9)%nat) by lia.
  split; [exact W|]. split; [exact L|].
  apply (X1_clip_loop_exits (-1) (-1) 2 3 (mkBounds 0 0 1 1) 9 W L).
Defined.

(** X2.  For such bounds, [cohenSutherlandClip] returns true exactly when
    the closed segment from [(x1, y1)] to [(x2, y2)] has a point in the
    closed box. *)
Theorem X2_clip_decides_meeting x1 y1 x2 y2 b :
  wf_bounds b ->
  (cohenSutherlandClip x1 y1 x2 y2 b = true <-> meets_box (x1, y1) (x2, y2) b).
Proof.
  intro W. destruct (clipLoop_exits x1 y1 x2 y2 b W) as [accept E].
  unfold cohenSutherlandClip. rewrite E.
  apply (clipLoop_meets b W _ _ _ _ _ _ E).
Qed.

Lemma X2_witness :
  wf_bounds (mkBounds 0 0 1 1) /\
  (cohenSutherlandClip (-1) 0.5 2 0.5 (mkBounds 0 0 1 1) = true <->
   meets_box (-1, 0.5) (2, 0.5) (mkBounds 0 0 1 1)).
Proof.
  assert (W : wf_bounds (mkBounds 0 0 1 1)) by (unfold wf_bounds; cbn; lra).
  split; [exact W|].
  apply (X2_clip_decides_meeting (-1) 0.5 2 0.5 (mkBounds 0 0 1 1) W).
Defined.

(** ** The triangle-square test *)



(** A function that is affine in the point and positive at the corners of a
    box is positive on the box. *)
Lemma cross_positive_on_box a c q b :
  wf_bounds b ->
  (forall p, In p (corners b) -> 0 < cross a c p) ->
  inside q b -> 0 < cross a c q.
Proof.
  intros [W1 W2] H (I1 & I2 & I3 & I4).
  pose proof (H (minx b, miny b)) as C1. pose proof (H (maxx b, miny b)) as C2.
  pose proof (H (maxx b, maxy b)) as C3. pose proof (H (minx b, maxy b)) as C4.
  unfold corners in *. cbn [In] in *.
  specialize (C1 ltac:(tauto)). specialize (C2 ltac:(tauto)).
  specialize (C3 ltac:(tauto)). specialize (C4 ltac:(tauto)).
  unfold cross, cross2, psub in *. cbn [fst snd] in *.
  destruct (Qlt_le_dec 0 (fst c - fst a)), (Qlt_le_dec 0 (snd c - snd a)); nra.
Qed.

Lemma cross_along a c t : cross a c (along a c t) == 0.
Proof.
  unfold cross, cross2, along, padd, pscale, psub. cbn [fst snd]. ring.
Qed.

Lemma cross_flip a c p : cross c a p == - cross a c p.
Proof. unfold cross, cross2, psub. cbn [fst snd]. ring. Qed.

(** An edge none of whose points can be in the box is not accepted. *)
Lemma edge_misses_box a c b :
  wf_bounds b ->
  (forall p, In p (corners b) -> 0 < cross a c p) ->
  cohenSutherlandClip (fst a) (snd a) (fst c) (snd c) b = false /\
  cohenSutherlandClip (fst c) (snd c) (fst a) (snd a) b = false.
Proof.
  intros W H. split.
  - destruct (cohenSutherlandClip _ _ _ _ b) eqn:E; [|reflexivity]. exfalso.
    apply (clip_meets a c b W) in E. destruct E as (t & _ & _ & I).
    pose proof (cross_positive_on_box a c _ b W H I) as P.
    rewrite cross_along in P. lra.
  - destruct (cohenSutherlandClip _ _ _ _ b) eqn:E; [|reflexivity]. exfalso.
    apply (clip_meets c a b W) in E. destruct E as (t & _ & _ & I).
    pose proof (cross_positive_on_box a c _ b W H I) as P.
    rewrite cross_flip, cross_along in P. lra.
Qed.

(** X4.  [triangle_square] tests the edges only: when the box lies strictly
    inside the triangle it returns false, although the two overlap. *)
Theorem X4_triangle_square_misses_contained v0 v1 v2 b :
  wf_bounds b -> box_within b (v0, v1, v2) ->
  triangle_square (v0, v1, v2) b = false.
Proof.
  intros W H. cbn [box_within] in H. unfold triangle_square.
  destruct (edge_misses_box v0 v1 b W (fun p Hp => proj1 (H p Hp))) as [-> _].
  destruct (edge_misses_box v2 v0 b W (fun p Hp => proj2 (proj2 (H p Hp))))
    as [_ ->].
  destruct (edge_misses_box v1 v2 b W (fun p Hp => proj1 (proj2 (H p Hp))))
    as [-> _].
  reflexivity.
Qed.

Lemma X4_witness :
  wf_bounds (bounds (square_sprite 0.5 0.5 0.02)) /\
  box_within (bounds (square_sprite 0.5 0.5 0.02))
    (0 + 0.5, 0.0877 + 0.5, (-0.076 + 0.5, -0.0439 + 0.5),
     (0.076 + 0.5, -0.0439 + 0.5)) /\
  overlapping (square_sprite 0.5 0.5 0.02) (triangle_sprite 0.5 0.5) = Ok false.
Proof.
  assert (W : wf_bounds (bounds (square_sprite 0.5 0.5 0.02))) by apply bounds_of_wf.
  assert (B : box_within (bounds (square_sprite 0.5 0.5 0.02))
                (0 + 0.5, 0.0877 + 0.5, (-0.076 + 0.5, -0.0439 + 0.5),
                 (0.076 + 0.5, -0.0439 + 0.5))).
  { intros p Hp. cbn [corners In] in Hp.
    destruct Hp as [<-|[<-|[<-|[<-|[]]]]]; repeat split; qcompute. }
  split; [exact W|]. split; [exact B|].
  unfold overlapping. cbn [_shape square_sprite triangle_sprite].
  apply (f_equal (@Ok bool)).
  apply (X4_triangle_square_misses_contained _ _ _ _ W B).
Defined.

(** ** The triangle-triangle test *)

Lemma det3_swap a b c : det3 a c b == - det3 a b c.
Proof. unfold det3. ring. Qed.



Lemma CheckTriWinding_raises t r e : CheckTriWinding t r = Raise e -> e = ValueError.
Proof.
  destruct t as [[a b] c]. unfold CheckTriWinding.
  destruct (det3 a b c <? 0), r; intro H; inversion H; reflexivity.
Qed.




Lemma TriTri2D_sym t1 t2 r : TriTri2D t1 t2 r = TriTri2D t2 t1 r.
Proof.
  unfold TriTri2D.
  destruct (CheckTriWinding t1 r) as [t1s|e1] eqn:E1,
           (CheckTriWinding t2 r) as [t2s|e2] eqn:E2; cbn [rbind]; try reflexivity.
  - destruct (existsb _ (rolled_edges t1s)), (existsb _ (rolled_edges t2s));
      reflexivity.
  - rewrite (CheckTriWinding_raises _ _ _ E1), (CheckTriWinding_raises _ _ _ E2).
    reflexivity.
Qed.










(** X7.  [CheckTriWinding] with [allowReversed] returns the triangle
    anticlockwise, swapping the last two corners of a clockwise one, and
    applied again it changes nothing; without [allowReversed] it raises
    [ValueError] exactly on a clockwise triangle and returns any other as it
    is. *)
Theorem X7_CheckTriWinding_orients a b c :
  (exists t, CheckTriWinding (a, b, c) true = Ok t /\
     (let '(a', b', c') := t in 0 <= det3 a' b' c') /\
     CheckTriWinding t true = Ok t /\
     (t = (a, b, c) \/ t = (a, c, b))) /\
  (CheckTriWinding (a, b, c) false = Raise ValueError <-> det3 a b c < 0) /\
  (CheckTriWinding (a, b, c) false = Ok (a, b, c) <-> 0 <= det3 a b c).
Proof.
  unfold CheckTriWinding. destruct (det3 a b c <? 0) eqn:E.
  - apply Qltb_lt in E. split; [|split].
    + exists (a, c, b). split; [reflexivity|]. split; [rewrite det3_swap; lra|].
      split; [|auto].
      assert (F : (det3 a c b <? 0) = false) by (apply Qltb_ge; rewrite det3_swap; lra).
      rewrite F. reflexivity.
    + tauto.
    + split; [discriminate|lra].
  - apply Qltb_ge in E. split; [|split].
    + exists (a, b, c). split; [reflexivity|]. split; [exact E|].
      assert (F : (det3 a b c <? 0) = false) by (apply Qltb_ge; exact E).
      rewrite F. auto.
    + split; [discriminate|lra].
    + tauto.
Qed.

(** ** The square-circle test *)



(** ** The overlap test is symmetric *)

Lemma circle_circle_sym p1 p2 r1 r2 :
  circle_circle p1 p2 r1 r2 = circle_circle p2 p1 r2 r1.
Proof.
  unfold circle_circle, need. destruct r1 as [r1|], r2 as [r2|]; cbn [rbind];
    try reflexivity.
  f_equal. unfold norm_le, dot, psub. cbn [fst snd]. f_equal.
  - apply Qle_bool_compat; [reflexivity|ring].
  - apply Qle_bool_compat; ring.
Qed.

Lemma envelope_intersects_sym a b : envelope_intersects a b = envelope_intersects b a.
Proof.
  unfold envelope_intersects.
  destruct (minx a <=? maxx b), (minx b <=? maxx a), (miny a <=? maxy b),
    (miny b <=? maxy a); reflexivity.
Qed.

Lemma intersects_sym P R : intersects P R = intersects R P.
Proof.
  unfold intersects. destruct P as [|p P'], R as [|r R']; try reflexivity.
  rewrite (envelope_intersects_sym (bounds_of (p :: P'))).
  destruct (envelope_intersects _ _), (existsb (separates (p :: P') (r :: R')) _),
    (existsb (separates (r :: R') (p :: P')) _); reflexivity.
Qed.

(** X9.  The overlap test that [avoid_overlapping] runs gives the same
    answer, or raises the same exception, whichever of the two sprites is
    [self], for every pair of shapes. *)
Theorem X9_overlapping_symmetric s o : overlapping s o = overlapping o s.
Proof.
  unfold overlapping, check_collision.
  destruct (_shape s), (_shape o); try reflexivity.
  - apply circle_circle_sym.
  - f_equal. apply intersects_sym.
  - apply TriTri2D_sym.
Qed.

(** ** Directions *)

Lemma get_motion_direction_exits motion :
  get_motion_direction motion = Raise SystemExit <->
  (fst motion == 0 /\ snd motion == 0) \/ (~ fst motion == 0 /\ ~ snd motion == 0).
Proof.
  unfold get_motion_direction.
  destruct (fst motion =? 0) eqn:Ex, (snd motion =? 0) eqn:Ey;
    first [apply Qeq_bool_iff in Ex | apply Qeq_bool_false in Ex];
    first [apply Qeq_bool_iff in Ey | apply Qeq_bool_false in Ey]; cbn [andb].
  - assert (A : (0 <? snd motion) = false) by (apply Qltb_ge; lra).
    assert (B : (0 <? fst motion) = false) by (apply Qltb_ge; lra).
    assert (C : (snd motion <? 0) = false) by (apply Qltb_ge; lra).
    assert (D : (fst motion <? 0) = false) by (apply Qltb_ge; lra).
    rewrite A, B, C, D. tauto.
  - destruct (0 <? snd motion) eqn:A; [split; [discriminate|tauto]|].
    destruct (snd motion <? 0) eqn:B; [split; [discriminate|tauto]|].
    apply Qltb_ge in A, B. exfalso. apply Ey. lra.
  - destruct (0 <? fst motion) eqn:A; [split; [discriminate|tauto]|].
    destruct (fst motion <? 0) eqn:B; [split; [discriminate|tauto]|].
    apply Qltb_ge in A, B. exfalso. apply Ex. lra.
  - tauto.
Qed.

(** X10.  With a list of [others], [move] on a motion that is zero or has
    both coordinates non-zero exits the program ([SystemExit] from
    [get_motion_direction]) before it touches any sprite. *)
Theorem X10_move_exits_on_bad_motion cells self motion keep_in_frame others st :
  (fst motion == 0 /\ snd motion == 0) \/ (~ fst motion == 0 /\ ~ snd motion == 0) ->
  move cells self motion keep_in_frame (Some others) st = (Raise SystemExit, st).
Proof.
  intro H. apply get_motion_direction_exits in H.
  rewrite move_unfold_body. unfold move_body, bind, lift. rewrite H. reflexivity.
Qed.

Lemma X10_witness :
  (~ 0.05 == 0 /\ ~ 0.05 == 0) /\
  (forall cells,
     move cells 0%nat (0.05, 0.05) true (Some [1%nat]) scenario_A
     = (Raise SystemExit, scenario_A)) /\
  (forall cells,
     move cells 0%nat (0, 0) false (Some []) scenario_A
     = (Raise SystemExit, scenario_A)).
Proof.
  assert (H : ~ 0.05 == 0 /\ ~ 0.05 == 0) by (split; discriminate).
  split; [exact H|]. split; intro cells.
  - apply (X10_move_exits_on_bad_motion cells 0%nat (0.05, 0.05)). right. exact H.
  - apply (X10_move_exits_on_bad_motion cells 0%nat (0, 0)). left.
    split; reflexivity.
Defined.

(** X11.  For two circles, the positions of the second relative to the
    first are the opposites of those of the first relative to the second;
    "left" excludes "right" and "down" excludes "up"; and the list is empty
    exactly when the two positions coincide. *)
Theorem X11_circle_positions_opposite s1 s2 :
  circle_circle_position s2 s1 = map opposite (circle_circle_position s1 s2) /\
  (In left_ (circle_circle_position s1 s2) ->
   ~ In right_ (circle_circle_position s1 s2)) /\
  (In down (circle_circle_position s1 s2) ->
   ~ In up (circle_circle_position s1 s2)) /\
  (circle_circle_position s1 s2 = [] <-> peq (_position s1) (_position s2)).
Proof.
  unfold circle_circle_position, when, peq, x, y.
  set (a := fst (_position s1)). set (b := fst (_position s2)).
  set (c := snd (_position s1)). set (d := snd (_position s2)).
  destruct (a <? b) eqn:E1, (b <? a) eqn:E2, (c <? d) eqn:E3, (d <? c) eqn:E4;
    order E1; order E2; order E3; order E4; try (exfalso; lra);
    cbn [app map opposite In];
    (split; [reflexivity|]);
    (split; [intros Hin Hin'; cbn [In] in Hin, Hin'; intuition discriminate|]);
    (split; [intros Hin Hin'; cbn [In] in Hin, Hin'; intuition discriminate|]);
    (split; [first [discriminate | intros _; lra] | first [reflexivity | intro; lra]]).
Qed.

(** ** The closest carried sprite *)

Lemma argmin_from_least l : forall pre best besti,
  (besti < length pre)%nat -> nth besti pre 0 = best ->
  (forall j, (j < length pre)%nat -> best <= nth j pre 0) ->
  (forall j, (j < besti)%nat -> best < nth j pre 0) ->
  let k := argmin_from best besti (length pre) l in
  (k < length (pre ++ l))%nat /\
  (forall j, (j < length (pre ++ l))%nat -> nth k (pre ++ l) 0 <= nth j (pre ++ l) 0) /\
  (forall j, (j < k)%nat -> nth k (pre ++ l) 0 < nth j (pre ++ l) 0).
Proof.
  induction l as [|d t IH]; intros pre best besti Hb Hn Hle Hlt; cbn [argmin_from].
  - rewrite app_nil_r. subst best. auto.
  - assert (Hlen : length (pre ++ [d]) = S (length pre))
      by (rewrite length_app; cbn; lia).
    assert (Happ : pre ++ d :: t = (pre ++ [d]) ++ t)
      by (rewrite <- app_assoc; reflexivity).
    assert (Hnth : forall j, (j < length pre)%nat -> nth j (pre ++ [d]) 0 = nth j pre 0)
      by (intros j Hj; apply app_nth1; exact Hj).
    assert (Hlast : nth (length pre) (pre ++ [d]) 0 = d)
      by (rewrite app_nth2, Nat.sub_diag by lia; reflexivity).
    rewrite Happ, <- Hlen.
    destruct (d <? best) eqn:E.
    + apply Qltb_lt in E. apply IH.
      * lia.
      * exact Hlast.
      * intros j Hj. try rewrite Hlen in Hj.
        destruct (Nat.eq_dec j (length pre)) as [->|Hne].
        -- rewrite Hlast. lra.
        -- rewrite Hnth by lia. specialize (Hle j ltac:(lia)). lra.
      * intros j Hj. try rewrite Hlen in Hj. rewrite Hnth by lia.
        specialize (Hle j ltac:(lia)). lra.
    + apply Qltb_ge in E. apply IH.
      * lia.
      * rewrite Hnth by lia. exact Hn.
      * intros j Hj. try rewrite Hlen in Hj.
        destruct (Nat.eq_dec j (length pre)) as [->|Hne].
        -- rewrite Hlast. exact E.
        -- rewrite Hnth by lia. apply Hle. lia.
      * intros j Hj. rewrite Hnth by lia. apply Hlt. exact Hj.
Qed.

Lemma argmin_least l :
  l <> [] ->
  (argmin l < length l)%nat /\
  (forall j, (j < length l)%nat -> nth (argmin l) l 0 <= nth j l 0) /\
  (forall j, (j < argmin l)%nat -> nth (argmin l) l 0 < nth j l 0).
Proof.
  destruct l as [|d t]; [congruence|intros _]. unfold argmin.
  apply (argmin_from_least t [d] d 0%nat).
  - cbn. lia.
  - reflexivity.
  - intros j Hj. cbn in Hj. assert (j = 0%nat) as -> by lia. cbn. lra.
  - intros j Hj. lia.
Qed.

Lemma pop_length {A : Type} (l : list A) : forall i,
  (i < length l)%nat -> length (pop i l) = (length l - 1)%nat.
Proof.
  induction l as [|a t IH]; intros i Hi; [cbn in Hi; lia|].
  destruct i as [|i]; cbn [pop length]; [lia|].
  cbn [length] in Hi. rewrite IH by lia. destruct t; cbn in *; lia.
Qed.

(** X12.  On a non-empty list whose distances [ds] are all computed,
    [get_closest] leaves the store alone and returns the sprite at the first
    index where the distance is least, with the list that has lost that one
    entry. *)
Theorem X12_get_closest_least cells self carried d st ds :
  carried <> [] ->
  distances cells (st self) st carried d = Ok ds ->
  exists i, (i < length carried)%nat /\
    get_closest cells self carried d st
      = (Ok (nth i carried 0%nat, pop i carried), st) /\
    (forall j, (j < length carried)%nat -> nth i ds 0 <= nth j ds 0) /\
    (forall j, (j < i)%nat -> nth i ds 0 < nth j ds 0) /\
    length (pop i carried) = (length carried - 1)%nat.
Proof.
  intros Hne Hd. pose proof (distances_length cells _ _ _ _ _ Hd) as Hl.
  assert (Hds : ds <> []) by (destruct ds, carried; cbn in Hl; congruence).
  destruct (argmin_least ds Hds) as (A & B & C).
  exists (argmin ds). rewrite <- Hl.
  split; [exact A|]. split; [unfold get_closest; rewrite Hd; reflexivity|].
  split; [exact B|]. split; [exact C|].
  rewrite Hl. apply pop_length. rewrite <- Hl. exact A.
Qed.

Lemma X12_witness :
  [1%nat; 1%nat] <> [] /\
  forall cells, exists i, (i < 2)%nat /\
    get_closest cells 0%nat [1%nat; 1%nat] right_ scenario_A
      = (Ok (nth i [1%nat; 1%nat] 0%nat, pop i [1%nat; 1%nat]), scenario_A) /\
    (forall j, (j < 2)%nat ->
       nth i [-0.05000000; -0.05000000] 0 <= nth j [-0.05000000; -0.05000000] 0) /\
    (forall j, (j < i)%nat ->
       nth i [-0.05000000; -0.05000000] 0 < nth j [-0.05000000; -0.05000000] 0) /\
    length (pop i [1%nat; 1%nat]) = 1%nat.
Proof.
  split; [discriminate|]. intro cells.
  apply (X12_get_closest_least cells 0%nat [1%nat; 1%nat] right_ scenario_A
           [-0.05000000; -0.05000000]).
  - discriminate.
  - vm_compute. reflexivity.
Defined.

(** ** Cells of squares and triangles *)

(** Splits a cell on its guards and runs its guarded assignment on each
    outcome of the intersection. *)
Ltac cell_cases :=
  repeat match goal with
  | |- context [if ?c then _ else _] => destruct c
  end;
  unfold attempt, or_one, LineString2;
  repeat match goal with
  | |- context [geom_x ?g] => destruct (geom_x g); cbn [rbind]
  | |- context [geom_y ?g] => destruct (geom_y g); cbn [rbind]
  end.

(** X13.  The snappers, resolvers and distances of a square or a triangle
    against a square or a triangle never raise: every intersection they read
    is guarded by [try].  A snapper or resolver moves [self] along the
    direction only: the coordinate across it is the one [self] had. *)
Theorem X13_polygon_cells_never_raise s o d :
  (forall c,
     In c [_handle_square_square; _square_square_overlap;
           _handle_square_triangle; _square_triangle_overlap;
           Triangle._handle_triangle_square; Triangle._triangle_square_overlap;
           Triangle._handle_triangle_triangle;
           Triangle._triangle_triangle_overlap] ->
     exists p, c s o d = Ok p /\ orthogonal d p = orthogonal d (_position s)) /\
  (forall g,
     In g [square_square_distance; square_triangle_distance;
           Triangle.triangle_square_distance;
           Triangle.triangle_triangle_distance] ->
     exists q, g s o d = Ok q).
Proof.
  split.
  - intros c Hin.
    repeat (destruct Hin as [<-|Hin]; [|]); try contradiction.
    all: destruct d; cbv beta delta [_handle_square_square _square_square_overlap
          _handle_square_triangle _square_triangle_overlap
          Triangle._handle_triangle_square Triangle._triangle_square_overlap
          Triangle._handle_triangle_triangle Triangle._triangle_triangle_overlap]
          iota zeta;
      cell_cases; eexists; (split; [reflexivity|]); reflexivity.
  - intros g Hin.
    repeat (destruct Hin as [<-|Hin]; [|]); try contradiction.
    all: destruct d; cbv beta delta [square_square_distance square_triangle_distance
          Triangle.triangle_square_distance Triangle.triangle_triangle_distance]
          iota zeta;
      cell_cases; eexists; reflexivity.
Qed.

(** X14.  [_square_square_overlap], on any two sprites: when the boxes meet
    or overlap along the direction, it moves [self] against the direction so
    that the facing edges are exactly 1e-5 apart, and across the direction
    not at all; when they are apart already it does nothing. *)
Theorem X14_square_overlap_gap s o d p :
  _centered_path s <> [] ->
  _square_square_overlap s o d = Ok p ->
  (facing_gap d (bounds s) (bounds o) <= 0 ->
   facing_gap d (bounds (set_position s p)) (bounds o) == 0.00001 /\
   orthogonal d p = orthogonal d (_position s)) /\
  (0 < facing_gap d (bounds s) (bounds o) -> p = _position s).
Proof.
  intros Hs Hp.
  destruct (bounds_set_position s p Hs) as (B1 & B2 & B3 & B4).
  unfold _square_square_overlap in Hp. cbn [bnd] in Hp.
  destruct d; cbn [facing_gap orthogonal];
    match type of Hp with
    | context [if ?c then _ else _] => destruct c eqn:G
    end;
    inversion Hp; subst p; clear Hp;
    unfold add_x, add_y, sub_x, sub_y, x, y in *; cbn [fst snd] in *;
    first [apply Qle_bool_iff in G | apply Qleb_gt in G];
    (split; intro L;
     first [exfalso; lra | reflexivity | split; [lra|reflexivity]]).
Qed.

Lemma X14_witness :
  _centered_path (scenario_A 0%nat) <> [] /\
  exists p,
    _square_square_overlap (scenario_A 0%nat) (scenario_A 1%nat) right_ = Ok p /\
    (facing_gap right_ (bounds (scenario_A 0%nat)) (bounds (scenario_A 1%nat)) <= 0 ->
     facing_gap right_ (bounds (set_position (scenario_A 0%nat) p))
       (bounds (scenario_A 1%nat)) == 0.00001 /\
     orthogonal right_ p = orthogonal right_ (_position (scenario_A 0%nat))) /\
    (0 < facing_gap right_ (bounds (scenario_A 0%nat)) (bounds (scenario_A 1%nat)) ->
     p = _position (scenario_A 0%nat)).
Proof.
  assert (N : _centered_path (scenario_A 0%nat) <> []) by discriminate.
  split; [exact N|]. eexists. split; [reflexivity|].
  apply (X14_square_overlap_gap (scenario_A 0%nat) (scenario_A 1%nat) right_ _ N).
  reflexivity.
Defined.

(** X15.  [_handle_triangle_triangle] sideways, for two bodies whose lowest
    points are level: to the right it brings the facing edges of the boxes
    together; to the left it subtracts [other.bounds[2] - self.bounds[0]],
    the gap with its sign reversed, and leaves [self] twice as far from
    [other] as it was. *)
Theorem X15_triangle_level_snap s o p d :
  _centered_path s <> [] ->
  miny (bounds s) == miny (bounds o) ->
  (d = left_ \/ d = right_) ->
  Triangle._handle_triangle_triangle s o d = Ok p ->
  snd p = snd (_position s) /\
  facing_gap d (bounds (set_position s p)) (bounds o) ==
  match d with
  | left_ => 2 * facing_gap left_ (bounds s) (bounds o)
  | _ => 0
  end.
Proof.
  intros Hs Hl Hd Hp.
  destruct (bounds_set_position s p Hs) as (B1 & B2 & B3 & B4).
  destruct (Qltb_irrefl_eq _ _ Hl) as [L1 L2].
  unfold Triangle._handle_triangle_triangle in Hp. cbn [bnd] in Hp.
  destruct Hd as [-> | ->]; rewrite L1, L2 in Hp;
    inversion Hp; subst p; clear Hp;
    unfold add_x, sub_x, x, y in *; cbn [fst snd facing_gap] in *;
    (split; [reflexivity|lra]).
Qed.

Lemma X15_witness :
  _centered_path (triangle_sprite 0.7 0.5) <> [] /\
  miny (bounds (triangle_sprite 0.7 0.5)) == miny (bounds (triangle_sprite 0.5 0.5)) /\
  facing_gap left_ (bounds (triangle_sprite 0.7 0.5)) (bounds (triangle_sprite 0.5 0.5))
    == 0.048 /\
  exists p,
    Triangle._handle_triangle_triangle (triangle_sprite 0.7 0.5)
      (triangle_sprite 0.5 0.5) left_ = Ok p /\
    snd p = snd (_position (triangle_sprite 0.7 0.5)) /\
    facing_gap left_ (bounds (set_position (triangle_sprite 0.7 0.5) p))
      (bounds (triangle_sprite 0.5 0.5))
    == 2 * facing_gap left_ (bounds (triangle_sprite 0.7 0.5))
             (bounds (triangle_sprite 0.5 0.5)).
Proof.
  assert (N : _centered_path (triangle_sprite 0.7 0.5) <> []) by discriminate.
  assert (L : miny (bounds (triangle_sprite 0.7 0.5))
              == miny (bounds (triangle_sprite 0.5 0.5))) by qcompute.
  split; [exact N|]. split; [exact L|]. split; [qcompute|].
  eexists. split; [reflexivity|].
  apply (X15_triangle_level_snap (triangle_sprite 0.7 0.5) (triangle_sprite 0.5 0.5)
           _ left_ N L (or_introl eq_refl)).
  reflexivity.
Defined.

(** ** [move]: termination, frame and clamp *)

Lemma same_outlines_refl st : same_outlines st st.
Proof. intro i. auto. Qed.

Lemma same_outlines_trans st1 st2 st3 :
  same_outlines st1 st2 -> same_outlines st2 st3 -> same_outlines st1 st3.
Proof.
  intros H1 H2 i. destruct (H1 i) as (A & B & C). destruct (H2 i) as (D & E & F).
  repeat split; congruence.
Qed.

Lemma keeps_ret {A : Type} (a : A) : keeps_outlines (ret a).
Proof. intro st. apply same_outlines_refl. Qed.

Lemma keeps_lift {A : Type} (r : res A) : keeps_outlines (lift r).
Proof. intro st. apply same_outlines_refl. Qed.

Lemma keeps_get i : keeps_outlines (get i).
Proof. intro st. apply same_outlines_refl. Qed.

Lemma keeps_assign i p : keeps_outlines (assign_position i p).
Proof.
  intros st j. unfold assign_position, upd. cbn [snd].
  destruct (Nat.eqb j i) eqn:E; [|auto].
  apply Nat.eqb_eq in E. subst j. auto.
Qed.

Lemma keeps_iadd i m : keeps_outlines (iadd_position i m).
Proof. intro st. unfold iadd_position. apply keeps_assign. Qed.

Lemma keeps_isub i m : keeps_outlines (isub_position i m).
Proof. intro st. unfold isub_position. apply keeps_assign. Qed.

Lemma keeps_bind {A B : Type} (m : M A) (k : A -> M B) :
  keeps_outlines m -> (forall a, keeps_outlines (k a)) -> keeps_outlines (bind m k).
Proof.
  intros Hm Hk st. unfold bind. specialize (Hm st).
  destruct (m st) as [[a|e] st1]; cbn [snd] in *; [|exact Hm].
  apply (same_outlines_trans _ st1); [exact Hm|apply Hk].
Qed.

(** Proves that a computation built from the operations of the store
    changes positions only. *)
Ltac keeps :=
  repeat first
    [ apply keeps_ret | apply keeps_lift | apply keeps_get | apply keeps_assign
    | apply keeps_iadd | apply keeps_isub
    | apply keeps_bind; [|intro]
    | match goal with
      | |- keeps_outlines (match ?c with _ => _ end) => destruct c
      | |- keeps_outlines (if ?c then _ else _) => destruct c
      end
    | assumption ].

Lemma bind_inv {A B : Type} (m : M A) (k : A -> M B) st b st' :
  bind m k st = (Ok b, st') ->
  exists a st1, m st = (Ok a, st1) /\ k a st1 = (Ok b, st').
Proof.
  unfold bind. destruct (m st) as [[a|e] st1]; [eauto|discriminate].
Qed.

Lemma clip_between v lo hi : lo <= hi -> lo <= clip v lo hi /\ clip v lo hi <= hi.
Proof. intro H. unfold clip. split; minmax_cases; lra. Qed.

Lemma clip_idempotent v lo hi : clip (clip v lo hi) lo hi == clip v lo hi.
Proof. unfold clip. minmax_cases; lra. Qed.

Lemma clip_compat v v' lo lo' hi hi' :
  v == v' -> lo == lo' -> hi == hi' -> clip v lo hi == clip v' lo' hi'.
Proof. intros E1 E2 E3. unfold clip. rewrite E1, E2, E3. reflexivity. Qed.

(** The offsets do not depend on the position. *)
Lemma offsets_set_position s p :
  _centered_path s <> [] ->
  peq (fst (offsets (set_position s p))) (fst (offsets s)) /\
  peq (snd (offsets (set_position s p))) (snd (offsets s)).
Proof.
  intro Hs. destruct (bounds_set_position s p Hs) as (B1 & B2 & B3 & B4).
  unfold offsets, pabs, psub, peq, x, y in *. cbn [fst snd bnd _position set_position] in *.
  repeat split; apply Qabs_wd; lra.
Qed.

Lemma centred_outline s s' :
  _centered_path s <> [] -> _centered_path s' = _centered_path s ->
  centred s -> centred s'.
Proof.
  intros Hs E. assert (Hs' : _centered_path s' <> []) by congruence.
  destruct (bounds_centered s Hs) as (A1 & A2 & A3 & A4).
  destruct (bounds_centered s' Hs') as (B1 & B2 & B3 & B4).
  unfold centred, cbounds in *. rewrite E in *. lra.
Qed.

Lemma fits_outline s s' :
  _centered_path s <> [] -> _centered_path s' = _centered_path s ->
  fits s -> fits s'.
Proof.
  intros Hs E. assert (Hs' : _centered_path s' <> []) by congruence.
  destruct (bounds_centered s Hs) as (A1 & A2 & A3 & A4).
  destruct (bounds_centered s' Hs') as (B1 & B2 & B3 & B4).
  unfold fits, cbounds in *. rewrite E in *. lra.
Qed.

(** A body that fits the frame is inside it once clamped, and so is its
    position. *)
Lemma clamp_in_frame s :
  _centered_path s <> [] -> centred s -> fits s ->
  in_frame (bounds (set_position s (keep_in_frame_position s))) /\
  out_of_frame (set_position s (keep_in_frame_position s)) = false.
Proof.
  intros Hne Hc (W1 & W2).
  destruct (offsets_centred s Hc) as (O1 & O2 & O3 & O4).
  destruct (bounds_set_position s (keep_in_frame_position s) Hne)
    as (B1 & B2 & B3 & B4).
  unfold out_of_frame, x, y. cbn [_position set_position].
  revert B1 B2 B3 B4.
  unfold keep_in_frame_position, in_frame, centred in *.
  destruct (offsets s) as [[blx bly] [trx try_]]. cbn [fst snd] in *.
  unfold x, y in *.
  destruct (clip_between (fst (_position s)) (0.0 + blx) (1.0 - trx)) as [X1 X2]; [lra|].
  destruct (clip_between (snd (_position s)) (0.0 + bly) (1.0 - try_)) as [Y1 Y2]; [lra|].
  intros B1 B2 B3 B4. split.
  - repeat split; lra.
  - apply negb_false_iff. rewrite !andb_true_iff, !Qle_bool_iff.
    repeat split; lra.
Qed.




Section MoveFacts.

Variable cells : Cells.

(** X16.  The recursion of [move] ends: a nested call is made on a list that
    has lost the sprite it is called on, so unfolding the body as many times
    as [others] is long gives [move], whatever stands for the calls below,
    and [move] is the function that satisfies the recursive equation of the
    source. *)
Theorem X16_move_terminates bottom n self motion keep_in_frame others st :
  (depth_of others <= n)%nat ->
  move_from cells bottom n self motion keep_in_frame others st
  = move cells self motion keep_in_frame others st /\
  move cells self motion keep_in_frame others st
  = move_body cells (move cells) self motion keep_in_frame others st.
Proof.
  intro Hn. split; [|apply move_unfold_body].
  revert self motion keep_in_frame others st Hn.
  induction n as [|n IH]; intros self motion kif others st Hn;
    rewrite move_unfold_body; cbn [move_from]; apply move_body_ext;
    intros c mo kf l st0 Hl.
  - lia.
  - apply IH. cbn [depth_of]. lia.
Qed.

Lemma keeps_apply_cell c self other d : keeps_outlines (apply_cell c self other d).
Proof. unfold apply_cell. keeps. Qed.

Lemma keeps_handle_collision self other d :
  keeps_outlines (handle_collision cells self other d).
Proof. unfold handle_collision. keeps; try apply keeps_apply_cell. Qed.

Lemma keeps_resolve_overlapping self other d :
  keeps_outlines (resolve_overlapping cells self other d).
Proof. unfold resolve_overlapping. keeps; try apply keeps_apply_cell. Qed.

Lemma keeps_avoid_overlapping self other d r :
  keeps_outlines (avoid_overlapping cells self other d r).
Proof. unfold avoid_overlapping. keeps; try apply keeps_resolve_overlapping. Qed.

Lemma keeps_detect_collision self other m d :
  keeps_outlines (detect_collision self other m d).
Proof. unfold detect_collision. keeps. Qed.

Lemma keeps_get_carried_sprite self sprites m d :
  keeps_outlines (get_carried_sprite self sprites m d).
Proof.
  induction sprites as [|s t IH]; cbn [get_carried_sprite]; keeps;
    try apply keeps_detect_collision.
Qed.

Lemma keeps_get_closest self carried d :
  keeps_outlines (get_closest cells self carried d).
Proof.
  intro st. unfold get_closest.
  destruct (distances cells (st self) st carried d); apply same_outlines_refl.
Qed.

Section Rec.

Variable rec : ref -> point -> bool -> option (list ref) -> M unit.
Hypothesis Hrec : forall c m k o, keeps_outlines (rec c m k o).

Lemma keeps_carry_rest self m kif others rest d :
  keeps_outlines (carry_rest cells rec self m kif others rest d).
Proof.
  induction rest as [|c t IH]; cbn [carry_rest]; keeps;
    try first [apply keeps_avoid_overlapping | apply Hrec].
Qed.

Lemma keeps_move_body self m kif others :
  keeps_outlines (move_body cells rec self m kif others).
Proof.
  unfold move_body. keeps;
    try first [ apply keeps_get_carried_sprite | apply keeps_get_closest
              | apply keeps_handle_collision | apply keeps_avoid_overlapping
              | apply keeps_carry_rest | apply Hrec ].
Qed.

End Rec.

Lemma keeps_move_depth n : forall self m kif others,
  keeps_outlines (move_depth cells n self m kif others).
Proof.
  induction n as [|n IH]; intros; cbn [move_depth]; apply keeps_move_body.
  - intros. apply keeps_lift.
  - exact IH.
Qed.

(** X17.  [move] assigns positions only: whether it returns or raises, and
    whatever the cells of the dispatch tables compute, every sprite keeps
    its shape, its [prop] and its cached outline. *)
Theorem X17_move_keeps_outlines self motion keep_in_frame others st :
  same_outlines st (snd (move cells self motion keep_in_frame others st)).
Proof.
  unfold move. intro i.
  destruct (keeps_move_depth (depth_of others) self motion keep_in_frame others st i)
    as (A & B & C).
  repeat split; assumption.
Qed.

(** X18.  With [keep_in_frame], whenever [move] returns, with or without
    [others], a [self] that fits the frame and whose position lies within
    its own bounds ends with its whole outline in the unit square, and
    [out_of_frame] is false. *)
Theorem X18_move_ends_in_frame self motion others st st' :
  _centered_path (st self) <> [] -> centred (st self) -> fits (st self) ->
  move cells self motion true others st = (Ok tt, st') ->
  in_frame (bounds (st' self)) /\ out_of_frame (st' self) = false.
Proof.
  intros Hne Hc Hf Hm.
  pose proof (keeps_move_depth (depth_of others) self motion true others st) as K.
  fold (move cells self motion true others st) in K. rewrite Hm in K. cbn [snd] in K.
  destruct (K self) as (_ & _ & Kp).
  rewrite move_unfold_body in Hm. unfold move_body in Hm.
  apply bind_inv in Hm. destruct Hm as (u & st1 & _ & Hm).
  unfold bind, get, assign_position in Hm. inversion Hm; subst st'. clear Hm.
  rewrite upd_same in *. cbn [_centered_path set_position] in Kp.
  apply clamp_in_frame.
  - congruence.
  - apply (centred_outline (st self)); assumption.
  - apply (fits_outline (st self)); assumption.
Qed.




End MoveFacts.

Lemma X16_witness :
  (depth_of (Some [1%nat]) <= 1)%nat /\
  forall cells,
    move_from cells (fun _ _ _ _ => lift (Raise RecursionError)) 1 0%nat (0.05, 0)
      false (Some [1%nat]) scenario_A
    = move cells 0%nat (0.05, 0) false (Some [1%nat]) scenario_A /\
    move cells 0%nat (0.05, 0) false (Some [1%nat]) scenario_A
    = move_body cells (move cells) 0%nat (0.05, 0) false (Some [1%nat]) scenario_A.
Proof.
  assert (L : (depth_of (Some [1%nat]) <= 1)%nat) by (cbn; lia).
  split; [exact L|]. intro cells.
  apply (X16_move_terminates cells _ 1 0%nat (0.05, 0) false (Some [1%nat])
           scenario_A L).
Defined.

Lemma X18_witness :
  _centered_path (scenario_A 0%nat) <> [] /\
  centred (scenario_A 0%nat) /\ fits (scenario_A 0%nat) /\
  forall cells,
    in_frame (bounds (snd (move cells 0%nat (0.05, 0) true (Some [1%nat])
                             scenario_A) 0%nat)) /\
    out_of_frame (snd (move cells 0%nat (0.05, 0) true (Some [1%nat])
                         scenario_A) 0%nat) = false.
Proof.
  assert (N : _centered_path (scenario_A 0%nat) <> []) by discriminate.
  assert (C : centred (scenario_A 0%nat)) by (unfold centred; repeat split; qcompute).
  assert (F : fits (scenario_A 0%nat)) by (unfold fits; split; qcompute).
  split; [exact N|]. split; [exact C|]. split; [exact F|]. intro cells.
  apply (X18_move_ends_in_frame cells 0%nat (0.05, 0) (Some [1%nat]) scenario_A
           _ N C F).
  vm_compute. reflexivity.
Defined.

(** X19.  The frame clamp applied to a clamped sprite returns the position
    it already has: the offsets do not depend on the position, and clipping
    twice is clipping once, even where the lower limit is above the upper
    one. *)
Theorem X19_clamp_idempotent s :
  _centered_path s <> [] ->
  peq (keep_in_frame_position (set_position s (keep_in_frame_position s)))
      (keep_in_frame_position s).
Proof.
  intro Hs.
  destruct (offsets_set_position s (keep_in_frame_position s) Hs) as [[A1 A2] [A3 A4]].
  unfold keep_in_frame_position at 1 3.
  destruct (offsets (set_position s (keep_in_frame_position s))) as [bl' tr'].
  unfold keep_in_frame_position in *.
  destruct (offsets s) as [bl tr]. cbn [fst snd] in *.
  unfold x, y. cbn [_position set_position fst snd].
  split; cbn [fst snd].
  - rewrite (clip_compat _ _ _ (0.0 + fst bl) _ (1.0 - fst tr) (Qeq_refl _));
      [apply clip_idempotent|lra|lra].
  - rewrite (clip_compat _ _ _ (0.0 + snd bl) _ (1.0 - snd tr) (Qeq_refl _));
      [apply clip_idempotent|lra|lra].
Qed.

Lemma X19_witness :
  _centered_path oversized <> [] /\
  peq (keep_in_frame_position
         (set_position oversized (keep_in_frame_position oversized)))
      (keep_in_frame_position oversized).
Proof.
  assert (N : _centered_path oversized <> []) by discriminate.
  split; [exact N|]. apply (X19_clamp_idempotent oversized N).
Defined.


(** *** Which sprites [move] reaches *)

Lemma unmoved_ret S {A : Type} (a : A) st : unmoved S (ret a) st.
Proof. intros i _. reflexivity. Qed.

Lemma unmoved_lift S {A : Type} (r : res A) st : unmoved S (lift r) st.
Proof. intros i _. reflexivity. Qed.

Lemma unmoved_get S j st : unmoved S (get j) st.
Proof. intros i _. reflexivity. Qed.

Lemma unmoved_assign S j p st : In j S -> unmoved S (assign_position j p) st.
Proof.
  intros Hj i Hi. unfold assign_position. cbn [snd]. apply upd_other.
  intro E. subst i. contradiction.
Qed.

Lemma unmoved_iadd S j m st : In j S -> unmoved S (iadd_position j m) st.
Proof. intro Hj. unfold iadd_position. apply unmoved_assign. exact Hj. Qed.

Lemma unmoved_isub S j m st : In j S -> unmoved S (isub_position j m) st.
Proof. intro Hj. unfold isub_position. apply unmoved_assign. exact Hj. Qed.

Lemma unmoved_bind S {A B : Type} (m : M A) (k : A -> M B) st :
  unmoved S m st ->
  (forall a st1, m st = (Ok a, st1) -> unmoved S (k a) st1) ->
  unmoved S (bind m k) st.
Proof.
  intros Hm Hk i Hi. unfold bind. specialize (Hm i Hi).
  destruct (m st) as [[a|e] st1] eqn:E; cbn [snd] in *; [|exact Hm].
  rewrite (Hk a st1 eq_refl i Hi). exact Hm.
Qed.

Lemma unmoved_incl S S' {A : Type} (m : M A) st :
  incl S S' -> unmoved S m st -> unmoved S' m st.
Proof. intros Hin H i Hi. apply H. intro Hs. apply Hi, Hin, Hs. Qed.

(** Proves that a computation built from the operations of the store only
    assigns to sprites of the given list. *)
Ltac unmoved :=
  repeat first
    [ apply unmoved_ret | apply unmoved_lift | apply unmoved_get
    | apply unmoved_assign; assumption
    | apply unmoved_iadd; assumption | apply unmoved_isub; assumption
    | apply unmoved_bind; [|intros ? ? _]
    | match goal with
      | |- unmoved _ (match ?c with _ => _ end) _ => destruct c
      | |- unmoved _ (if ?c then _ else _) _ => destruct c
      end ].

Lemma except_incl others cs : incl (except_ others cs) others.
Proof. intros z Hz. unfold except_ in Hz. apply filter_In in Hz. tauto. Qed.

Section Reach.

Variable cells : Cells.

Lemma unmoved_apply_cell S c self other d st :
  In self S -> unmoved S (apply_cell c self other d) st.
Proof. intro H. unfold apply_cell. unmoved. Qed.

Lemma unmoved_handle_collision S self other d st :
  In self S -> unmoved S (handle_collision cells self other d) st.
Proof.
  intro H. unfold handle_collision. unmoved; try (apply unmoved_apply_cell; exact H).
Qed.

Lemma unmoved_resolve_overlapping S self other d st :
  In self S -> unmoved S (resolve_overlapping cells self other d) st.
Proof.
  intro H. unfold resolve_overlapping. unmoved;
    try (apply unmoved_apply_cell; exact H).
Qed.

Lemma unmoved_avoid_overlapping S self other d r st :
  In self S -> unmoved S (avoid_overlapping cells self other d r) st.
Proof.
  intro H. unfold avoid_overlapping. unmoved;
    try (apply unmoved_resolve_overlapping; exact H).
Qed.

Lemma unmoved_detect_collision S self other m d st :
  In self S -> unmoved S (detect_collision self other m d) st.
Proof. intro H. unfold detect_collision. unmoved. Qed.

Lemma unmoved_get_carried_sprite S self sprites m d :
  In self S -> forall st, unmoved S (get_carried_sprite self sprites m d) st.
Proof.
  intro H. induction sprites as [|s t IH]; intro st; cbn [get_carried_sprite]; unmoved;
    try first [apply unmoved_detect_collision; exact H | apply IH].
Qed.

Lemma unmoved_get_closest S self carried d st :
  unmoved S (get_closest cells self carried d) st.
Proof.
  intros i _. unfold get_closest.
  destruct (distances cells (st self) st carried d); reflexivity.
Qed.

Section Rec.

Variable rec : ref -> point -> bool -> option (list ref) -> M unit.
Hypothesis Hrec : forall c m k o st, unmoved (scope c o) (rec c m k o) st.

Lemma unmoved_rec self others c m k st :
  In c others ->
  unmoved (scope self (Some others)) (rec c m k (Some (except_ others c))) st.
Proof.
  intro Hc. apply (unmoved_incl (scope c (Some (except_ others c)))); [|apply Hrec].
  intros z [<-|Hz]; cbn [scope]; [right; exact Hc|].
  right. apply (except_incl others c), Hz.
Qed.

Lemma unmoved_carry_rest self m kif others d rest :
  incl rest others ->
  forall st, unmoved (scope self (Some others))
               (carry_rest cells rec self m kif others rest d) st.
Proof.
  assert (Hs : In self (scope self (Some others))) by (left; reflexivity).
  induction rest as [|c t IH]; intros Hin st; cbn [carry_rest].
  - apply unmoved_ret.
  - assert (Hc : In c others) by (apply Hin; left; reflexivity).
    assert (Ht : incl t others) by (intros z Hz; apply Hin; right; exact Hz).
    apply unmoved_bind; [apply unmoved_avoid_overlapping; exact Hs|].
    intros ov st1 _. apply unmoved_bind; [|intros; apply IH; exact Ht].
    destruct ov as [[|]|]; try apply unmoved_ret.
    apply unmoved_bind; [apply unmoved_rec; exact Hc|]. intros _ st2 _.
    apply unmoved_bind; [apply unmoved_avoid_overlapping; exact Hs|].
    intros. apply unmoved_ret.
Qed.

Lemma unmoved_move_body self m kif others st :
  unmoved (scope self others) (move_body cells rec self m kif others) st.
Proof.
  assert (Hs : In self (scope self others)) by (left; reflexivity).
  unfold move_body. apply unmoved_bind.
  2:{ intros _ st1 _. destruct kif; [|apply unmoved_ret].
      apply unmoved_bind; [apply unmoved_get|]. intros s st2 _.
      apply unmoved_assign; exact Hs. }
  destruct others as [others|]; [|apply unmoved_iadd; exact Hs].
  apply unmoved_bind; [apply unmoved_lift|]. intros d st1 _.
  apply unmoved_bind; [apply unmoved_get_carried_sprite; exact Hs|].
  intros carried st2 Hcar.
  destruct carried as [|c0 rest]; [apply unmoved_iadd; exact Hs|].
  apply unmoved_bind; [apply unmoved_get_closest|].
  intros [cs rest'] st3 Hclo. cbn [fst snd].
  destruct (get_closest_in cells self (c0 :: rest) d st2 cs rest' st3
              ltac:(discriminate) Hclo) as [Hin Hrest].
  pose proof (get_carried_sprite_incl _ _ _ _ _ _ _ Hcar) as Hincl.
  apply unmoved_bind; [apply unmoved_handle_collision; exact Hs|]. intros _ st4 _.
  apply unmoved_bind; [apply unmoved_get|]. intros s st5 _.
  apply unmoved_bind; [apply unmoved_get|]. intros c st6 _.
  apply unmoved_bind; [apply unmoved_lift|]. intros positions st7 _.
  apply unmoved_bind.
  - destruct (existsb _ _); [|apply unmoved_iadd; exact Hs].
    apply unmoved_bind; [apply unmoved_iadd; exact Hs|]. intros _ st8 _.
    apply unmoved_bind; [apply unmoved_rec; apply Hincl, Hin|]. intros _ st9 _.
    apply unmoved_bind; [apply unmoved_avoid_overlapping; exact Hs|].
    intros. apply unmoved_ret.
  - intros _ st8 _. apply unmoved_carry_rest.
    intros z Hz. apply Hincl, Hrest, Hz.
Qed.

End Rec.

Lemma unmoved_move_depth n : forall self m kif others st,
  unmoved (scope self others) (move_depth cells n self m kif others) st.
Proof.
  induction n as [|n IH]; intros; cbn [move_depth]; apply unmoved_move_body.
  - intros. apply unmoved_lift.
  - exact IH.
Qed.

(** X25.  [move] reaches [self] and the sprites of [others] only: whether
    it returns or raises, every other sprite of the store is exactly as it
    was. *)
Theorem X25_move_reaches_self_and_others self motion keep_in_frame others st i :
  i <> self ->
  (forall l, others = Some l -> ~ In i l) ->
  snd (move cells self motion keep_in_frame others st) i = st i.
Proof.
  intros Hi Ho. unfold move. apply unmoved_move_depth.
  intros [E|E]; [apply Hi; symmetry; exact E|].
  destruct others as [l|]; [exact (Ho l eq_refl E)|contradiction].
Qed.

End Reach.

Lemma X25_witness :
  (2 <> 0)%nat /\ (forall l, Some [1%nat] = Some l -> ~ In 2%nat l) /\
  forall cells,
    snd (move cells 0%nat (0.05, 0) true (Some [1%nat]) scenario_A) 2%nat
    = scenario_A 2%nat.
Proof.
  assert (A : (2 <> 0)%nat) by lia.
  assert (B : forall l, Some [1%nat] = Some l -> ~ In 2%nat l).
  { intros l E. inversion E; subst. cbn [In]. intros [H|[]]. discriminate H. }
  split; [exact A|]. split; [exact B|]. intro cells.
  apply (X25_move_reaches_self_and_others cells 0%nat (0.05, 0) true (Some [1%nat])
           scenario_A 2%nat A B).
Defined.

(** * Further properties of the pose setters *)

Section SetterFacts.

Import Geometry.
Local Open Scope R_scope.

Variable SHAPES : Shape -> list Geometry.point.

(** X21.  Assignments to [angle] compose: after two of them the sprite is
    the one the second alone would give, assigning the current angle changes
    nothing, and assigning an angle and then the old one gives the sprite
    back. *)
Theorem X21_angle_setter_composes s a b :
  set_angle (set_angle s a) b = set_angle s b /\
  set_angle s (_angle s) = s /\
  set_angle (set_angle s a) (_angle s) = s.
Proof.
  assert (C : forall a b, set_angle (set_angle s a) b = set_angle s b).
  { intros a0 b0. unfold set_angle, transform_path.
    cbn [_position _shape _angle _scale prop _centered_path]. f_equal.
    rewrite map_map. apply map_ext. intro v. rewrite rotate_deg_add.
    f_equal. lra. }
  assert (I : set_angle s (_angle s) = s).
  { destruct s as [p sh an sc pr path]. unfold set_angle, transform_path.
    cbn [_position _shape _angle _scale prop _centered_path]. f_equal.
    rewrite <- (map_id path) at 2. apply map_ext. intro v.
    replace (an - an) with 0 by lra. apply rotate_deg_0. }
  split; [apply C|]. split; [exact I|]. rewrite C. exact I.
Qed.

(** X22.  After construction and any sequence of assignments to [angle] and
    [shape], without one to [scale], the vertices are the canonical vertices
    of the current shape scaled by the stored scale, rotated by the stored
    angle and translated to the position. *)
Theorem X22_angle_shape_setters_consistent x y sh a k cmds :
  (forall c, In c cmds -> match c with SetScale _ => False | _ => True end) ->
  consistent SHAPES (fold_left (apply_setter SHAPES) cmds (Sprite_init SHAPES x y sh a k)).
Proof.
  intro H.
  assert (G : forall s, consistent SHAPES s ->
                consistent SHAPES (fold_left (apply_setter SHAPES) cmds s)).
  { induction cmds as [|c t IH]; intros s Hs; cbn [fold_left]; [exact Hs|].
    apply IH.
    - intros c' Hc'. apply H. right. exact Hc'.
    - specialize (H c (or_introl eq_refl)).
      destruct c as [sh'|a'|k']; cbn [apply_setter].
      + apply set_shape_consistent.
      + apply set_angle_consistent. exact Hs.
      + contradiction. }
  apply G. apply init_consistent.
Qed.

Lemma scale_zero v : scale 0 v = (0, 0).
Proof. unfold scale. f_equal; ring. Qed.

Lemma scale_origin k : scale k (0, 0) = (0, 0).
Proof. unfold scale. cbn [fst snd]. f_equal; ring. Qed.

Lemma rotate_origin a : rotate_deg a (0, 0) = (0, 0).
Proof. unfold rotate_deg. cbn [fst snd]. f_equal; ring. Qed.

Lemma translate_origin p : translate p (0, 0) = p.
Proof. destruct p. unfold translate. cbn [fst snd]. f_equal; ring. Qed.

(** An outline collapsed onto the origin stays collapsed under the [angle]
    and [scale] setters. *)
Lemma collapsed_setter s c :
  (forall v, In v (_centered_path s) -> v = (0, 0)) ->
  match c with SetShape _ => False | _ => True end ->
  (forall v, In v (_centered_path (apply_setter SHAPES s c)) -> v = (0, 0)) /\
  length (_centered_path (apply_setter SHAPES s c)) = length (_centered_path s) /\
  _position (apply_setter SHAPES s c) = _position s.
Proof.
  intros H Hc. destruct c as [sh|a|k]; [contradiction| |];
    cbn [apply_setter set_angle set_scale _centered_path _position];
    unfold transform_path; (split; [|split; [apply length_map|reflexivity]]);
    intros v Hv; apply in_map_iff in Hv; destruct Hv as (w & <- & Hw);
    rewrite (H w Hw).
  - apply rotate_origin.
  - apply scale_origin.
Qed.

(** X23.  Assigning to [scale] the value it has scales the cached outline by
    zero: every vertex is then the position of the sprite, and stays there
    through any later assignments to [scale] and [angle]; only an assignment
    to [shape] rebuilds the outline. *)
Theorem X23_scale_setter_collapses s cmds :
  (forall c, In c cmds -> match c with SetShape _ => False | _ => True end) ->
  vertices (fold_left (apply_setter SHAPES) cmds (set_scale s (_scale s)))
  = map (fun _ => _position s) (_centered_path s).
Proof.
  intro H.
  assert (G : forall t,
            (forall v, In v (_centered_path t) -> v = (0, 0)) ->
            (forall v, In v (_centered_path (fold_left (apply_setter SHAPES) cmds t))
               -> v = (0, 0)) /\
            length (_centered_path (fold_left (apply_setter SHAPES) cmds t))
              = length (_centered_path t) /\
            _position (fold_left (apply_setter SHAPES) cmds t) = _position t).
  { induction cmds as [|c r IH]; intros t Ht; cbn [fold_left]; [auto|].
    destruct (collapsed_setter t c Ht (H c (or_introl eq_refl))) as (A & B & C).
    destruct (IH (fun c' Hc' => H c' (or_intror Hc')) _ A) as (A' & B' & C').
    split; [exact A'|]. split; congruence. }
  destruct (G (set_scale s (_scale s))) as (A & B & C).
  { cbn [set_scale _centered_path]. unfold transform_path. intros v Hv.
    apply in_map_iff in Hv. destruct Hv as (w & <- & _).
    replace (_scale s - _scale s) with 0 by lra. apply scale_zero. }
  unfold vertices, transform_path. rewrite C.
  cbn [set_scale _position _centered_path] in *. unfold transform_path in B.
  rewrite length_map in B.
  revert A B. generalize (_centered_path (fold_left (apply_setter SHAPES) cmds
                                            (set_scale s (_scale s)))).
  generalize (_centered_path s). intros l1.
  induction l1 as [|u l1 IH]; intros l2 A B; destruct l2 as [|w l2];
    try discriminate; [reflexivity|].
  cbn [map]. f_equal.
  - rewrite (A w (or_introl eq_refl)). apply translate_origin.
  - apply IH; [intros v Hv; apply A; right; exact Hv|].
    cbn [length] in B. congruence.
Qed.

(** A linear map multiplies the shoelace sum by its determinant. *)
Lemma shoelace_linear (g : point -> point) (D : R) :
  (forall a b, fst (g a) * snd (g b) - fst (g b) * snd (g a)
               = D * (fst a * snd b - fst b * snd a)) ->
  forall l first, shoelace (g first) (map g l) = D * shoelace first l.
Proof.
  intros Hg. induction l as [|a t IH]; intro first; cbn [map shoelace]; [ring|].
  destruct t as [|b t].
  - cbn [map]. apply Hg.
  - cbn [map] in *. rewrite Hg, IH. cbn [shoelace]. ring.
Qed.

(** A translation changes the shoelace sum of an open chain by the terms of
    its two ends, which cancel when the chain is closed. *)
Lemma shoelace_translate d l : forall first,
  l <> [] ->
  shoelace (translate d first) (map (translate d) l)
  = shoelace first l
    + (fst (hd (0, 0) l) * snd d - fst d * snd (hd (0, 0) l))
    - (fst first * snd d - fst d * snd first).
Proof.
  induction l as [|a t IH]; intros first Hne; [congruence|].
  destruct t as [|b t].
  - cbn [map shoelace hd]. unfold translate. cbn [fst snd]. ring.
  - cbn [map] in *. cbn [shoelace]. cbn [shoelace] in IH.
    rewrite (IH first) by discriminate. cbn [hd]. unfold translate. cbn [fst snd]. ring.
Qed.

Lemma area_translate d l : area (map (translate d) l) = area l.
Proof.
  destruct l as [|v t]; [reflexivity|]. unfold area. cbn [map].
  change (translate d v :: map (translate d) t) with (map (translate d) (v :: t)).
  rewrite shoelace_translate by discriminate. cbn [hd]. f_equal. f_equal. ring.
Qed.

Lemma area_rotate a l : area (map (rotate_deg a) l) = area l.
Proof.
  destruct l as [|v t]; [reflexivity|]. unfold area. cbn [map].
  change (rotate_deg a v :: map (rotate_deg a) t) with (map (rotate_deg a) (v :: t)).
  rewrite (shoelace_linear (rotate_deg a) 1).
  - f_equal. f_equal. ring.
  - intros p q. unfold rotate_deg. cbn [fst snd].
    pose proof (sin2_cos2 (a * PI / 180)) as E. unfold Rsqr in E.
    set (c := cos (a * PI / 180)) in *. set (s := sin (a * PI / 180)) in *.
    replace ((c * fst p - s * snd p) * (s * fst q + c * snd q)
             - (c * fst q - s * snd q) * (s * fst p + c * snd p))
      with ((s * s + c * c) * (fst p * snd q - fst q * snd p)) by ring.
    rewrite E. ring.
Qed.

Lemma area_scale k l : area (map (scale k) l) = k * k * area l.
Proof.
  destruct l as [|v t]; [unfold area; cbn; ring|]. unfold area. cbn [map].
  change (scale k v :: map (scale k) t) with (map (scale k) (v :: t)).
  rewrite (shoelace_linear (scale k) (k * k)).
  - rewrite Rabs_mult, (Rabs_pos_eq (k * k)) by nra. field.
  - intros p q. unfold scale. cbn [fst snd]. ring.
Qed.

Lemma area_nonneg l : 0 <= area l.
Proof.
  destruct l as [|v t]; unfold area; [lra|].
  pose proof (Rabs_pos (shoelace v (v :: t))). lra.
Qed.

Lemma sqrt_square_times k A : 0 <= A -> sqrt (k * k * A) = Rabs k * sqrt A.
Proof.
  intro HA. rewrite sqrt_mult by nra. f_equal.
  change (k * k) with (Rsqr k). apply sqrt_Rsqr_abs.
Qed.

Lemma init_area x y sh a k :
  area (vertices (AbstractSprite_init SHAPES x y sh a k)) = k * k * area (SHAPES sh).
Proof.
  unfold vertices, AbstractSprite_init, _reset_centered_path, transform_path.
  cbn [_position _centered_path _shape _angle _scale].
  rewrite area_translate.
  rewrite <- (map_map (scale k) (rotate_deg a)), area_rotate, area_scale.
  reflexivity.
Qed.

(** X24.  The [prop] that the constructor computes does not depend on the
    position or the angle and is proportional to the scale: it is [|scale|]
    times the side, or the radius, that the canonical outline has by its
    area; a triangle has none. *)
Theorem X24_prop_scales_with_scale x y a k :
  prop (Sprite_init SHAPES x y square a k)
    = Some (Rabs k * sqrt (area (SHAPES square))) /\
  prop (Sprite_init SHAPES x y circle a k)
    = Some (Rabs k * sqrt (area (SHAPES circle) / PI)) /\
  prop (Sprite_init SHAPES x y triangle a k) = None.
Proof.
  unfold Sprite_init, _geometrical_properties.
  split; [|split].
  - change (_shape (AbstractSprite_init SHAPES x y square a k)) with square.
    cbn [prop]. rewrite init_area. f_equal.
    apply sqrt_square_times, area_nonneg.
  - change (_shape (AbstractSprite_init SHAPES x y circle a k)) with circle.
    cbn [prop]. rewrite init_area. f_equal.
    replace (k * k * area (SHAPES circle) / PI)
      with (k * k * (area (SHAPES circle) / PI)) by (field; apply PI_neq0).
    apply sqrt_square_times.
    apply Rmult_le_pos; [apply area_nonneg|].
    left. apply Rinv_0_lt_compat, PI_RGT_0.
  - reflexivity.
Qed.

End SetterFacts.

Lemma X22_witness :
  (forall c, In c [Geometry.SetAngle 30; Geometry.SetShape triangle; Geometry.SetAngle 45] ->
     match c with Geometry.SetScale _ => False | _ => True end) /\
  (forall SHAPES,
     Geometry.consistent SHAPES
       (fold_left (Geometry.apply_setter SHAPES)
          [Geometry.SetAngle 30; Geometry.SetShape triangle; Geometry.SetAngle 45]
          (Geometry.Sprite_init SHAPES 0.5 0.5 square 0 0.1))).
Proof.
  assert (H : forall c,
            In c [Geometry.SetAngle 30; Geometry.SetShape triangle; Geometry.SetAngle 45] ->
            match c with Geometry.SetScale _ => False | _ => True end).
  { intros c Hc. cbn [In] in Hc. destruct Hc as [<-|[<-|[<-|[]]]]; exact I. }
  split; [exact H|]. intro SH.
  apply (X22_angle_shape_setters_consistent SH 0.5 0.5 square 0 0.1 _ H).
Defined.

Lemma X23_witness :
  (forall c, In c [Geometry.SetAngle 90; Geometry.SetScale 3] ->
     match c with Geometry.SetShape _ => False | _ => True end) /\
  (forall SHAPES,
     Geometry.vertices
       (fold_left (Geometry.apply_setter SHAPES)
          [Geometry.SetAngle 90; Geometry.SetScale 3]
          (Geometry.set_scale (Geometry.Sprite_init SHAPES 0.5 0.5 square 0 0.1) 0.1))
     = map (fun _ => (0.5, 0.5))
         (Geometry._centered_path (Geometry.Sprite_init SHAPES 0.5 0.5 square 0 0.1)))%R.
Proof.
  assert (H : forall c, In c [Geometry.SetAngle 90; Geometry.SetScale 3] ->
            match c with Geometry.SetShape _ => False | _ => True end).
  { intros c Hc. cbn [In] in Hc. destruct Hc as [<-|[<-|[]]]; exact I. }
  split; [exact H|]. intro SH.
  apply (X23_scale_setter_collapses SH
           (Geometry.Sprite_init SH 0.5 0.5 square 0 0.1) _ H).
Defined.
